(** * Feed distribution engine of [server.py]: sequenced ring, resume
    handshake, live sender and playback driver.

    The development follows the source top down: Python helpers, the
    [FeedRun] ring, [playback_from_memory], then the [WSServer] session
    code, each embedded as an executable definition, followed by the
    properties proved about them. *)

From Stdlib Require Import ZArith Lia Bool.
From stdpp Require Import base option list gmap strings sorting.

Set Warnings "-register-all".
Local Open Scope Z_scope.

(** ** Python helpers *)

(** [range(start, stop)]. *)
Definition py_range (start stop : Z) : list Z := seqZ start (stop - start).

(** [lst[i]] on a list: negative indices count from the end, anything out of
    range is an [IndexError] ([None]). *)
Definition py_getitem {A} (lst : list A) (i : Z) : option A :=
  let n := Z.of_nat (length lst) in
  if (0 <=? i) && (i <? n) then lst !! Z.to_nat i
  else if (- n <=? i) && (i <? 0) then lst !! Z.to_nat (n + i)
  else None.

(** Normalisation of one slice bound, as [PySlice_AdjustIndices] does it for
    step 1. *)
Definition py_slice_bound (n i : Z) : Z :=
  if i <? 0 then Z.max 0 (i + n) else Z.min i n.

(** [lst[i:j]]. *)
Definition py_slice {A} (lst : list A) (i j : Z) : list A :=
  let n := Z.of_nat (length lst) in
  let lo := py_slice_bound n i in
  let hi := py_slice_bound n j in
  take (Z.to_nat (hi - lo)) (drop (Z.to_nat lo) lst).

(** [range(0, stop, step)] for a positive step; [fuel] bounds the number of
    elements. *)
Fixpoint range_step (fuel : nat) (i stop step : Z) : list Z :=
  match fuel with
  | O => []
  | S fuel' => if i <? stop then i :: range_step fuel' (i + step) stop step else []
  end.

(** [chunked(seq_list, n)], consumed by a [for] loop. [range] raises
    [ValueError] on a zero step ([None]) and is empty for a negative one. *)
Definition chunked {A} (seq_list : list A) (n : Z) : option (list (list A)) :=
  if n =? 0 then None
  else if n <? 0 then Some []
  else Some ((fun i => py_slice seq_list i (i + n))
               <$> range_step (length seq_list) 0 (Z.of_nat (length seq_list)) n).

(** ** Python values that travel as JSON *)

(** A float is [nan], an infinity, or the rational it stands for. *)
Inductive pyfloat :=
| FNan
| FInf (negative : bool)
| FFinite (num : Z) (den : positive).

Inductive pyval :=
| PNone
| PBool (b : bool)
| PInt (n : Z)
| PFloat (f : pyfloat)
| PStr (s : string)
| PList (items : list pyval)
| PDict (items : list (string * pyval)).

(** [d.get(key)] on a dict kept as an association list. *)
Fixpoint dict_get (items : list (string * pyval)) (key : string) : option pyval :=
  match items with
  | [] => None
  | (k, v) :: rest => if String.eqb k key then Some v else dict_get rest key
  end.

(** Truth value of a Python object. *)
Definition truthy (v : pyval) : bool :=
  match v with
  | PNone => false
  | PBool b => b
  | PInt n => negb (n =? 0)
  | PFloat FNan => true
  | PFloat (FInf _) => true
  | PFloat (FFinite num _) => negb (num =? 0)
  | PStr s => negb (String.eqb s "")
  | PList items => match items with [] => false | _ => true end
  | PDict items => match items with [] => false | _ => true end
  end.

(** ** Samples *)

(** A sample dict: the producer fills [series_id], [t_ms] and [payload];
    [seq] and [series_seq] are keys that [_append] sets. Every producer hands
    [_append] a dict of its own ([dict(s)] in playback, a dict display in the
    database tailer), so no two ring slots share an object and a sample is
    kept by value. *)
Record Sample := {
  series_id : option string;
  t_ms : Z;
  payload : pyval;
  seq : option Z;
  series_seq : option Z;
}.

Definition set_seq (v : Z) (s : Sample) : Sample :=
  {| series_id := series_id s; t_ms := t_ms s; payload := payload s;
     seq := Some v; series_seq := series_seq s |}.

Definition set_series_seq (v : Z) (s : Sample) : Sample :=
  {| series_id := series_id s; t_ms := t_ms s; payload := payload s;
     seq := seq s; series_seq := Some v |}.

(** ** The ring: [class FeedRun] *)

(** [deque.append] on a deque built with [maxlen]: push on the right, then
    drop from the left when the bound is exceeded. *)
Definition deque_append {A} (maxlen : Z) (d : list A) (x : A) : list A :=
  let d' := d ++ [x] in
  if maxlen <? Z.of_nat (length d') then tail d' else d'.

(** The state of a run. [new_event] is the flag of the [asyncio.Event];
    [self.lock] is never taken and is left out. *)
Record FeedRun := {
  ring : list Sample;
  ring_capacity : Z;
  live_batch : Z;
  new_event : bool;
  next_seq : Z;
  final_seq : option Z;
  done : bool;
  _series_next_seq : gmap string Z;
}.

(** [FeedRun.__init__]; [deque(maxlen=...)] raises [ValueError] on a negative
    bound. *)
Definition FeedRun_init (ring_capacity live_batch : Z) : option FeedRun :=
  if ring_capacity <? 0 then None
  else Some {| ring := []; ring_capacity := ring_capacity;
               live_batch := live_batch; new_event := false;
               next_seq := 1; final_seq := None; done := false;
               _series_next_seq := ∅ |}.

Definition min_seq (self : FeedRun) : Z :=
  match ring self with
  | [] => next_seq self
  | _ => next_seq self - Z.of_nat (length (ring self))
  end.

Definition last_seq (self : FeedRun) : Z := next_seq self - 1.

(** [if sid:] on the value of [sample.get("series_id")]. *)
Definition sid_truthy (sid : option string) : option string :=
  match sid with
  | Some s => if String.eqb s "" then None else Some s
  | None => None
  end.

(** [FeedRun._append]. The dict passed in is mutated, so the stamped sample
    is returned next to the new state. *)
Definition _append (self : FeedRun) (sample : Sample) : FeedRun * Sample :=
  let '(sample, series_next) :=
    match sid_truthy (series_id sample) with
    | Some sid =>
        let sseq := default 1 (_series_next_seq self !! sid) in
        (set_series_seq sseq sample, <[sid := sseq + 1]> (_series_next_seq self))
    | None => (sample, _series_next_seq self)
    end in
  let sample := set_seq (next_seq self) sample in
  ({| ring := deque_append (ring_capacity self) (ring self) sample;
      ring_capacity := ring_capacity self;
      live_batch := live_batch self;
      new_event := true;
      next_seq := next_seq self + 1;
      final_seq := final_seq self;
      done := done self;
      _series_next_seq := series_next |}, sample).

(** [FeedRun.get_range]; [None] is the [IndexError] of [lst[i]]. *)
Definition get_range (self : FeedRun) (start_seq end_seq : Z) : option (list Sample) :=
  if end_seq <? start_seq then Some []
  else
    let base := min_seq self in
    let last := last_seq self in
    let start_seq := Z.max start_seq base in
    let end_seq := Z.min end_seq last in
    if end_seq <? start_seq then Some []
    else
      let start_idx := start_seq - base in
      let end_idx := end_seq - base in
      let lst := ring self in
      mapM (py_getitem lst) (py_range start_idx (end_idx + 1)).

(** The part of [wait_for_new_after] that runs before it suspends:
    [new_event.clear()]. *)
Definition clear_new_event (self : FeedRun) : FeedRun :=
  {| ring := ring self; ring_capacity := ring_capacity self;
     live_batch := live_batch self; new_event := false;
     next_seq := next_seq self; final_seq := final_seq self;
     done := done self; _series_next_seq := _series_next_seq self |}.

(** The last three statements of [playback_from_memory]:
    [run.done = True; run.final_seq = run.last_seq(); run.new_event.set()]. *)
Definition mark_done (run : FeedRun) : FeedRun :=
  {| ring := ring run; ring_capacity := ring_capacity run;
     live_batch := live_batch run; new_event := true;
     next_seq := next_seq run; final_seq := Some (last_seq run);
     done := true; _series_next_seq := _series_next_seq run |}.

(** A run of appends: the final state and the stamped samples, oldest
    first. *)
Fixpoint append_all (run : FeedRun) (samples : list Sample) : FeedRun * list Sample :=
  match samples with
  | [] => (run, [])
  | s :: rest =>
      let '(run', s') := _append run s in
      let '(run'', out) := append_all run' rest in
      (run'', s' :: out)
  end.

(** The states a run goes through: built by [__init__], then changed only by
    [_append], by the drain of a finite producer and by waiters clearing the
    event. *)
Inductive reachable : FeedRun -> Prop :=
| reach_init cap lb run :
    FeedRun_init cap lb = Some run -> reachable run
| reach_append run s :
    reachable run -> reachable (fst (_append run s))
| reach_drain run :
    reachable run -> reachable (mark_done run)
| reach_clear run :
    reachable run -> reachable (clear_new_event run).

(** ** Outcomes of fallible and of long-running code *)

Inductive Exn :=
| TimeoutError
| ConnectionClosed
| ValueError
| TypeError
| OverflowError
| IndexError
| KeyError
| AttributeError.

(** What a call has produced once the model stops following it: a value, an
    exception, or nothing yet ([Pending]: the iteration budget ran out and
    the coroutine is still running). *)
Inductive Outcome (A : Type) :=
| Ret (a : A)
| Raise (e : Exn)
| Pending.
Arguments Ret {A} a.
Arguments Raise {A} e.
Arguments Pending {A}.

(** ** [playback_from_memory] *)

(** What the model leaves to the surroundings of the playback task: the
    clock, seen through [int(carry)] at each wake of the paced loop ([None]
    when the conversion raises), and the waiters that clear the event while
    the task sleeps. *)
Record PlaybackEnv := {
  pb_credit : nat -> option Z;
  pb_waiter_clears : nat -> bool;
}.

(** [emit_sps <= 0] on a float. *)
Definition float_le_0 (f : pyfloat) : bool :=
  match f with
  | FNan => false
  | FInf negative => negative
  | FFinite num _ => num <=? 0
  end.

Section Playback.
Variable penv : PlaybackEnv.

(** [await asyncio.sleep(...)] at the [k]-th suspension of the task. *)
Definition pb_sleep (k : nat) (run : FeedRun) : FeedRun :=
  if pb_waiter_clears penv k then clear_new_event run else run.

(** [for s in samples[idx:end]: run._append(dict(s))]. *)
Definition append_slice (run : FeedRun) (samples : list Sample) (idx end_ : Z) : FeedRun :=
  fst (append_all run (py_slice samples idx end_)).

(** The unpaced [while idx < n] loop; [k] counts the suspensions so far. *)
Fixpoint unpaced_loop (fuel k : nat) (run : FeedRun) (samples : list Sample)
    (batch_size idx : Z) : Outcome FeedRun :=
  let n := Z.of_nat (length samples) in
  if idx <? n then
    match fuel with
    | O => Pending
    | S fuel' =>
        let end_ := Z.min (idx + batch_size) n in
        let run := append_slice run samples idx end_ in
        unpaced_loop fuel' (S k) (pb_sleep k run) samples batch_size end_
    end
  else Ret run.

(** The paced [while idx < n] loop. *)
Fixpoint paced_loop (fuel k : nat) (run : FeedRun) (samples : list Sample)
    (idx : Z) : Outcome FeedRun :=
  let n := Z.of_nat (length samples) in
  if idx <? n then
    match fuel with
    | O => Pending
    | S fuel' =>
        match pb_credit penv k with
        | None => Raise ValueError
        | Some to_emit =>
            if to_emit <=? 0 then
              paced_loop fuel' (S k) (pb_sleep k run) samples idx
            else
              let end_ := Z.min (idx + to_emit) n in
              let run := append_slice run samples idx end_ in
              paced_loop fuel' (S k) (pb_sleep k run) samples end_
        end
    end
  else Ret run.

Definition playback_from_memory (fuel : nat) (run : FeedRun) (samples : list Sample)
    (emit_sps : pyfloat) : Outcome FeedRun :=
  let n := Z.of_nat (length samples) in
  if n =? 0 then Ret (mark_done run)
  else
    let looped :=
      if float_le_0 emit_sps then
        let batch_size := Z.max 1 (live_batch run * 4) in
        unpaced_loop fuel 0 run samples batch_size 0
      else paced_loop fuel 0 run samples 0 in
    match looped with
    | Ret run => Ret (mark_done run)
    | Raise e => Raise e
    | Pending => Pending
    end.
End Playback.

(** ** Frames, the transport and the world of one session *)

(** The [type] of a data frame: ["history"], ["delta"] or ["live"]. *)
Inductive DataType := History | Delta | Live.

(** The dicts handed to [_send]. *)
Inductive Frame :=
| FError (reason : string)
| FInitBegin (wm_seq min_seq ring_capacity : Z)
| FData (type : DataType) (samples : list Sample)
| FInitComplete (resume_from : Z) (resume_truncated : bool)
| FHeartbeat (ts_ms : Z)
| FTestDone (final_seq : option Z).

(** The argument of [ws.send]: [json.dumps(obj)], or the bytes that
    [_encode_samples_binary(frame_type, samples)] returns. *)
Inductive WireMsg :=
| WText (obj : Frame)
| WBinary (frame_type : DataType) (samples : list Sample).

(** What happens on the connection, oldest first. [ASend m ok] is a call of
    [ws.send(m)] that returned ([ok]) or raised. *)
Inductive Action :=
| ASend (m : WireMsg) (ok : bool)
| AClose
| ACancelHeartbeat.

(** [self.args], as far as the session code reads it. *)
Record Args := {
  args_ring_capacity : Z;
  args_history_chunk : Z;
  args_live_batch : Z;
  args_heartbeat_sec : Z;
  args_ws_format : string;
}.

(** The three checks of [validate_and_log_config] that make [main] raise
    [SystemExit] before a server exists; the rest of it only prints. *)
Definition validate_and_log_config (args : Args) : bool :=
  (0 <? args_ring_capacity args) && (0 <? args_history_chunk args)
  && (0 <? args_live_batch args).

(** Library code the model does not look into. *)
Record Lib := {
  json_loads : string -> option pyval;
  int_of_str : string -> option Z;
  binary_encodes : DataType -> list Sample -> bool;
}.

(** The first [ws.recv()] under its 15 s deadline. *)
Inductive Recv :=
| RecvTimeout
| RecvClosed
| RecvMsg (raw : string).

(** What other tasks do while this one is suspended. *)
Inductive OtherAct :=
| ProducerAppend (s : Sample)
| ProducerDrain
| WaiterClear
| HeartbeatSend (ts_ms : Z) (ok : bool).

(** The surroundings of a session task, indexed by its suspension points. *)
Record Env := {
  e_first : Recv;
  e_others : nat -> list OtherAct;
  e_send_ok : nat -> bool;
  e_wait_timeout : nat -> bool;
  e_now_ms : nat -> Z;
}.

(** [w_run] is [server.run] and the object behind it (assigned once, in
    [main]); [w_tick] counts the suspension points passed; [w_hb] tells
    whether the heartbeat task of the session is alive. *)
Record World := {
  w_run : option FeedRun;
  w_tick : nat;
  w_log : list Action;
  w_hb : bool;
}.

(** The world of a connection that was just accepted. *)
Definition new_session (run : option FeedRun) : World :=
  {| w_run := run; w_tick := 0; w_log := []; w_hb := false |}.

Definition set_run (r : option FeedRun) (w : World) : World :=
  {| w_run := r; w_tick := w_tick w; w_log := w_log w; w_hb := w_hb w |}.
Definition set_tick (k : nat) (w : World) : World :=
  {| w_run := w_run w; w_tick := k; w_log := w_log w; w_hb := w_hb w |}.
Definition add_log (a : Action) (w : World) : World :=
  {| w_run := w_run w; w_tick := w_tick w; w_log := w_log w ++ [a]; w_hb := w_hb w |}.
Definition set_hb (b : bool) (w : World) : World :=
  {| w_run := w_run w; w_tick := w_tick w; w_log := w_log w; w_hb := b |}.

Definition apply_other (w : World) (a : OtherAct) : World :=
  match a with
  | ProducerAppend s => set_run (fst <$> (flip _append s <$> w_run w)) w
  | ProducerDrain => set_run (mark_done <$> w_run w) w
  | WaiterClear => set_run (clear_new_event <$> w_run w) w
  | HeartbeatSend ts ok =>
      if w_hb w then add_log (ASend (WText (FHeartbeat ts)) ok) w else w
  end.

(** ** The session monad: state, exceptions, and the iteration budget *)

Definition M (A : Type) : Type := World -> Outcome A * World.

Definition ret {A} (a : A) : M A := fun w => (Ret a, w).
Definition raise {A} (e : Exn) : M A := fun w => (Raise e, w).
Definition pending {A} : M A := fun w => (Pending, w).

Definition bind {A B} (m : M A) (k : A -> M B) : M B :=
  fun w =>
    match m w with
    | (Ret a, w') => k a w'
    | (Raise e, w') => (Raise e, w')
    | (Pending, w') => (Pending, w')
    end.

(** [try: m except Exception as e: h e]. *)
Definition try_except {A} (m : M A) (h : Exn -> M A) : M A :=
  fun w =>
    match m w with
    | (Raise e, w') => h e w'
    | r => r
    end.

Declare Scope session_scope.
Delimit Scope session_scope with session.
Notation "x <- m ;; k" := (bind m (fun x => k))
  (at level 100, m at next level, right associativity) : session_scope.
Notation "m ;; k" := (bind m (fun _ => k))
  (at level 100, right associativity) : session_scope.
Local Open Scope session_scope.

Definition get_tick : M nat := fun w => (Ret (w_tick w), w).
Definition get_server_run : M (option FeedRun) := fun w => (Ret (w_run w), w).
Definition modify (f : World -> World) : M unit := fun w => (Ret tt, f w).

(** Lifting of pure fallible code. *)
Definition lift_sum {A} (r : Exn + A) : M A :=
  match r with inl e => raise e | inr a => ret a end.
Definition lift_option {A} (e : Exn) (r : option A) : M A :=
  match r with None => raise e | Some a => ret a end.

(** [for x in xs: body x]. *)
Fixpoint for_each {A} (xs : list A) (body : A -> M unit) : M unit :=
  match xs with
  | [] => ret tt
  | x :: rest => body x ;; for_each rest body
  end.

(** [int(v)]. *)
Definition py_int (lib : Lib) (v : pyval) : Exn + Z :=
  match v with
  | PNone => inl TypeError
  | PBool b => inr (if b then 1 else 0)
  | PInt n => inr n
  | PFloat FNan => inl ValueError
  | PFloat (FInf _) => inl OverflowError
  | PFloat (FFinite num den) => inr (Z.quot num (Z.pos den))
  | PStr s => match int_of_str lib s with Some n => inr n | None => inl ValueError end
  | PList _ => inl TypeError
  | PDict _ => inl TypeError
  end.

(** [a or b]. *)
Definition py_or (a b : pyval) : pyval := if truthy a then a else b.

(** [msg.get(key)] where [msg] is known to be a dict. *)
Definition msg_get (msg : pyval) (key : string) : pyval :=
  match msg with
  | PDict items => default PNone (dict_get items key)
  | _ => PNone
  end.

(** [isinstance(msg, dict) and msg.get("type") == "resume"]. *)
Definition is_resume (msg : pyval) : bool :=
  match msg with
  | PDict items =>
      match dict_get items "type" with
      | Some (PStr s) => String.eqb s "resume"
      | _ => false
      end
  | _ => false
  end.

(** Per-series bookkeeping of the live sender ([series_state]). *)
Record SeriesState := {
  ss_prev : option Z;
  ss_gaps : Z;
  ss_missed : Z;
  ss_warned_initial : bool;
}.

(** One turn of [for s in batch:] in [_live_loop]; the [print] calls are left
    out. *)
Definition track_sample (series_state : gmap string SeriesState) (s : Sample)
    : gmap string SeriesState :=
  match sid_truthy (series_id s), series_seq s with
  | Some sid, Some sseq =>
      let st := default {| ss_prev := None; ss_gaps := 0; ss_missed := 0;
                           ss_warned_initial := false |} (series_state !! sid) in
      let st' :=
        match ss_prev st with
        | None =>
            if (1 <? sseq) && negb (ss_warned_initial st) then
              {| ss_prev := Some sseq; ss_gaps := ss_gaps st + 1;
                 ss_missed := ss_missed st + (sseq - 1); ss_warned_initial := true |}
            else
              {| ss_prev := Some sseq; ss_gaps := ss_gaps st;
                 ss_missed := ss_missed st; ss_warned_initial := ss_warned_initial st |}
        | Some prev =>
            if prev + 1 <? sseq then
              {| ss_prev := Some sseq; ss_gaps := ss_gaps st + 1;
                 ss_missed := ss_missed st + (sseq - prev - 1);
                 ss_warned_initial := ss_warned_initial st |}
            else
              {| ss_prev := Some sseq; ss_gaps := ss_gaps st;
                 ss_missed := ss_missed st; ss_warned_initial := ss_warned_initial st |}
        end in
      <[sid := st']> series_state
  | _, _ => series_state
  end.

(** ** [class WSServer]: the session code *)

Section Session.
Variable lib : Lib.
Variable env : Env.
Variable args : Args.

(** A suspension point: the other tasks run, then this one resumes. *)
Definition suspend : M unit :=
  fun w =>
    (Ret tt, set_tick (S (w_tick w)) (foldl apply_other w (e_others env (w_tick w)))).

(** [await ws.send(m)]. *)
Definition ws_send (m : WireMsg) : M unit :=
  fun w =>
    let ok := e_send_ok env (w_tick w) in
    (modify (add_log (ASend m ok)) ;;
     suspend ;;
     if ok then ret tt else raise ConnectionClosed) w.

(** [await ws.close()]. *)
Definition ws_close : M unit :=
  modify (add_log AClose) ;; suspend.

(** [await asyncio.wait_for(ws.recv(), timeout=15.0)]. *)
Definition ws_recv : M string :=
  suspend ;;
  match e_first env with
  | RecvTimeout => raise TimeoutError
  | RecvClosed => raise ConnectionClosed
  | RecvMsg raw => ret raw
  end.

(** The local [run] of the session code: the object behind [server.run]. *)
Definition get_run : M FeedRun :=
  fun w =>
    match w_run w with
    | Some run => (Ret run, w)
    | None => (Raise AttributeError, w)
    end.

(** [WSServer._send]. *)
Definition _send (obj : Frame) : M unit :=
  let fmt := args_ws_format args in
  match obj with
  | FData frame_type samples =>
      if String.eqb fmt "binary" then
        match samples with
        | [] => ret tt
        | _ =>
            try_except
              (if binary_encodes lib frame_type samples
               then ws_send (WBinary frame_type samples)
               else raise ValueError)
              (fun _ => ret tt)
        end
      else try_except (ws_send (WText obj)) (fun _ => ret tt)
  | _ => try_except (ws_send (WText obj)) (fun _ => ret tt)
  end.

(** [WSServer._heartbeat_loop], run as a task of its own. *)
Fixpoint _heartbeat_loop (fuel : nat) : M unit :=
  match fuel with
  | O => pending
  | S fuel' =>
      suspend ;;
      k <- get_tick ;;
      _send (FHeartbeat (e_now_ms env k)) ;;
      _heartbeat_loop fuel'
  end.

(** [FeedRun.wait_for_new_after], called with [timeout=1.0]. *)
Definition wait_for_new_after (seq : Z) : M bool :=
  run <- get_run ;;
  if seq <? last_seq run then ret true
  else
    modify (fun w => set_run (clear_new_event <$> w_run w) w) ;;
    k <- get_tick ;;
    suspend ;;
    if e_wait_timeout env k then ret false
    else run <- get_run ;; ret (seq <? last_seq run).

(** [run.final_seq or last_sent]. *)
Definition final_seq_or (final_seq : option Z) (last_sent : Z) : Z :=
  match final_seq with
  | Some v => if v =? 0 then last_sent else v
  | None => last_sent
  end.

(** The inner [while idx < n] loop of [_live_loop]. *)
Fixpoint live_batches (fuel : nat) (to_send : list Sample) (idx last_sent : Z)
    (series_state : gmap string SeriesState) : M (Z * gmap string SeriesState) :=
  let n := Z.of_nat (length to_send) in
  if idx <? n then
    match fuel with
    | O => pending
    | S fuel' =>
        let batch := py_slice to_send idx (idx + args_live_batch args) in
        match batch with
        | [] => ret (last_sent, series_state)
        | _ =>
            let series_state := foldl track_sample series_state batch in
            _send (FData Live batch) ;;
            last_sent <- lift_option KeyError (last batch ≫= seq) ;;
            let idx := idx + Z.of_nat (length batch) in
            suspend ;;
            live_batches fuel' to_send idx last_sent series_state
        end
    end
  else ret (last_sent, series_state).

(** The [while True] loop of [_live_loop]; the warning about a gap in front
    of [to_send] only prints and is left out. *)
Fixpoint _live_loop_while (fuel : nat) (last_sent : Z)
    (series_state : gmap string SeriesState) : M unit :=
  match fuel with
  | O => pending
  | S fuel' =>
      run <- get_run ;;
      if done run && (final_seq_or (final_seq run) last_sent <=? last_sent) then
        _send (FTestDone (final_seq run))
      else if last_seq run <=? last_sent then
        wait_for_new_after last_sent ;;
        _live_loop_while fuel' last_sent series_state
      else
        let end_ := last_seq run in
        let expected_start := last_sent + 1 in
        to_send <- lift_option IndexError (get_range run expected_start end_) ;;
        r <- live_batches (S (length to_send)) to_send 0 last_sent series_state ;;
        _live_loop_while fuel' (fst r) (snd r)
  end.

(** [WSServer._live_loop]. *)
Definition _live_loop (fuel : nat) (after_seq : Z) : M unit :=
  try_except (_live_loop_while fuel after_seq ∅) (fun _ => ret tt).

(** [WSServer.handler] from the snapshot to [init_complete]; the result is
    [delta_end]. *)
Definition handler_handshake (from_seq : Z) : M Z :=
  run <- get_run ;;
  let min_seq := min_seq run in
  let wm_seq := last_seq run in
  let start := Z.max from_seq min_seq in
  let resume_truncated := from_seq <? min_seq in
  _send (FInitBegin wm_seq min_seq (ring_capacity run)) ;;
  (if start <=? wm_seq then
     run <- get_run ;;
     hist <- lift_option IndexError (get_range run start wm_seq) ;;
     batches <- lift_option ValueError (chunked hist (args_history_chunk args)) ;;
     for_each batches (fun batch => _send (FData History batch))
   else ret tt) ;;
  run <- get_run ;;
  let delta_end := last_seq run in
  (if wm_seq <? delta_end then
     dlt <- lift_option IndexError (get_range run (wm_seq + 1) delta_end) ;;
     batches <- lift_option ValueError (chunked dlt (args_history_chunk args)) ;;
     for_each batches (fun batch => _send (FData Delta batch))
   else ret tt) ;;
  _send (FInitComplete delta_end resume_truncated) ;;
  ret delta_end.

(** [WSServer.handler] after [init_complete]: the two tasks, the wait for
    the first of them to finish (the heartbeat loop never does), the
    cancellation of the other and the close. *)
Definition handler_live (fuel : nat) (delta_end : Z) : M unit :=
  modify (set_hb true) ;;
  _live_loop fuel delta_end ;;
  modify (fun w => set_hb false (add_log ACancelHeartbeat w)) ;;
  try_except ws_close (fun _ => ret tt).

(** [WSServer.handler]. [async with self._run_lock] is no suspension point:
    no task holds that lock across an [await], so it is always free. *)
Definition handler (fuel : nat) : M unit :=
  first <- try_except (raw <- ws_recv ;; ret (Some raw))
             (fun e => match e with TimeoutError => ret None | _ => raise e end) ;;
  match first with
  | None =>
      _send (FError "first frame must be resume (timeout)") ;; ws_close
  | Some raw =>
      match json_loads lib raw with
      | None => _send (FError "invalid JSON for first frame") ;; ws_close
      | Some msg =>
          if negb (is_resume msg) then
            _send (FError "first frame must be resume") ;; ws_close
          else
            from_seq <- lift_sum (py_int lib (py_or (msg_get msg "from_seq") (PInt 1))) ;;
            run <- get_server_run ;;
            match run with
            | None => _send (FError "no active run") ;; ws_close
            | Some _ =>
                delta_end <- handler_handshake from_seq ;;
                handler_live fuel delta_end
            end
      end
  end.
End Session.

(** ** Vocabulary of the properties *)

(** The sample carries a global sequence number inside [lo, hi]. *)
Definition seq_in (lo hi : Z) (s : Sample) : bool :=
  match seq s with
  | Some q => (lo <=? q) && (q <=? hi)
  | None => false
  end.

(** The sample belongs to series [sid]. *)
Definition has_sid (sid : string) (s : Sample) : bool :=
  match series_id s with
  | Some sid' => String.eqb sid' sid
  | None => false
  end.

(** The global sequence numbers of [out] are [first, first + 1, ...]. *)
Definition seq_contiguous (first : Z) (out : list Sample) : Prop :=
  seq <$> out = Some <$> py_range first (first + Z.of_nat (length out)).

(** The samples of series [sid] in [out] carry the sub-sequence numbers
    [1, 2, 3, ...], in order. *)
Definition series_contiguous (sid : string) (out : list Sample) : Prop :=
  let mine := List.filter (has_sid sid) out in
  series_seq <$> mine = Some <$> py_range 1 (1 + Z.of_nat (length mine)).

(** The last [c] elements of a list. *)
Definition keep_last {A} (c : nat) (l : list A) : list A :=
  drop (length l - c) l.

(** The retained samples carry the sequence numbers
    [min_seq(), ..., last_seq()], oldest first. *)
Definition ring_ok (run : FeedRun) : Prop :=
  seq <$> ring run = Some <$> py_range (min_seq run) (next_seq run).

(** Two run states that differ at most in the flag of [new_event]. *)
Definition same_but_event (r1 r2 : FeedRun) : Prop :=
  clear_new_event r1 = clear_new_event r2.

(** The clock gives the paced loop enough credit to emit [todo] more samples
    within [fuel] wakes, counted from wake [k]. *)
Fixpoint credit_suffices (penv : PlaybackEnv) (fuel k : nat) (todo : Z) : bool :=
  if todo <=? 0 then true
  else
    match fuel with
    | O => false
    | S fuel' =>
        match pb_credit penv k with
        | None => false
        | Some c =>
            if c <=? 0 then credit_suffices penv fuel' (S k) todo
            else credit_suffices penv fuel' (S k) (todo - c)
        end
    end.

(** The state of the run after the first [idx] input samples went in. *)
Definition fed_prefix (run0 : FeedRun) (samples : list Sample) (idx : Z) : FeedRun :=
  fst (append_all run0 (take (Z.to_nat idx) samples)).

(** The messages handed to [ws.send], in order. *)
Definition sent_msgs (log : list Action) : list WireMsg :=
  omap (fun a => match a with ASend m _ => Some m | _ => None end) log.

(** What [_send(obj)] hands to [ws.send]: nothing for an empty or
    unencodable data frame in binary mode. *)
Definition on_wire (lib : Lib) (args : Args) (obj : Frame) : option WireMsg :=
  match obj with
  | FData frame_type samples =>
      if String.eqb (args_ws_format args) "binary" then
        match samples with
        | [] => None
        | _ => if binary_encodes lib frame_type samples
               then Some (WBinary frame_type samples) else None
        end
      else Some (WText obj)
  | _ => Some (WText obj)
  end.

(** The world after [_send(obj)]. *)
Definition sent (lib : Lib) (env : Env) (args : Args) (obj : Frame) (w : World) : World :=
  match on_wire lib args obj with
  | Some m => snd (suspend env (add_log (ASend m (e_send_ok env (w_tick w))) w))
  | None => w
  end.

(** The samples of a data frame on the wire. *)
Definition wire_samples (m : WireMsg) : option (list Sample) :=
  match m with
  | WText (FData _ samples) => Some samples
  | WBinary _ samples => Some samples
  | WText _ => None
  end.

(** The action is not the sending of a data frame without samples. *)
Definition not_empty_data (a : Action) : Prop :=
  match a with
  | ASend m _ => wire_samples m <> Some []
  | _ => True
  end.

(** The session handler got a frame that passes its checks and asks to
    resume from [from_seq]. *)
Definition valid_resume (lib : Lib) (env : Env) (from_seq : Z) : Prop :=
  exists raw msg,
    e_first env = RecvMsg raw /\ json_loads lib raw = Some msg
    /\ is_resume msg = true
    /\ py_int lib (py_or (msg_get msg "from_seq") (PInt 1)) = inr from_seq.

(** The handler answered with one text [error] frame and closed. *)
Definition rejected (reason : string) (res : Outcome unit * World) : Prop :=
  fst res = Ret tt
  /\ exists ok, w_log (snd res) = [ASend (WText (FError reason)) ok; AClose].

(** The same surroundings with another first frame. *)
Definition with_first (first : Recv) (env : Env) : Env :=
  {| e_first := first; e_others := e_others env; e_send_ok := e_send_ok env;
     e_wait_timeout := e_wait_timeout env; e_now_ms := e_now_ms env |}.

(** Every step of the computation [m] takes the world to one related to it
    by [R]. *)
Definition respects {A} (R : World -> World -> Prop) (m : M A) : Prop :=
  forall w, R w (snd (m w)).

(** No data frame without samples was sent up to now. *)
Definition no_empty_data (w : World) : Prop := Forall not_empty_data (w_log w).

(** The later world has the log of the earlier one as a prefix. *)
Definition log_grows (w w' : World) : Prop :=
  exists rest, w_log w' = w_log w ++ rest.

(** A property of the world that holds later if it holds now. *)
Definition keeps (P : World -> Prop) (w w' : World) : Prop := P w -> P w'.

(** What one action of another task does to the run. *)
Definition producer_step (run : FeedRun) (a : OtherAct) : FeedRun :=
  match a with
  | ProducerAppend s => fst (_append run s)
  | ProducerDrain => mark_done run
  | WaiterClear => clear_new_event run
  | HeartbeatSend _ _ => run
  end.

(** The run as the session finds it after its first [k] suspensions. *)
Fixpoint run_at (env : Env) (run0 : FeedRun) (k : nat) : FeedRun :=
  match k with
  | O => run0
  | S k' => foldl producer_step (run_at env run0 k') (e_others env k')
  end.

(** The session before its heartbeat task exists, in step with the run. *)
Definition in_step (env : Env) (run0 : FeedRun) (w : World) : Prop :=
  w_hb w = false /\ w_run w = Some (run_at env run0 (w_tick w)).

(** The world after [for batch in batches: _send({type, samples: batch})]. *)
Definition sent_all (lib : Lib) (env : Env) (args : Args) (ty : DataType)
    (batches : list (list Sample)) (w : World) : World :=
  foldl (fun w batch => sent lib env args (FData ty batch) w) w batches.

(** The messages that carry [samples] in frames of type [ty], chunk by
    chunk. *)
Definition data_msgs (lib : Lib) (args : Args) (ty : DataType)
    (samples : list Sample) : list WireMsg :=
  omap (fun batch => on_wire lib args (FData ty batch))
       (default [] (chunked samples (args_history_chunk args))).

(** Once a [ws.send] has raised, no further message is handed to the
    transport. *)
Definition stops_after_failure (log : list Action) : Prop :=
  forall pre m post, log = pre ++ ASend m false :: post -> sent_msgs post = [].

(** The same surroundings over a transport on which every send succeeds. *)
Definition send_succeeds (a : OtherAct) : OtherAct :=
  match a with
  | HeartbeatSend ts_ms _ => HeartbeatSend ts_ms true
  | a => a
  end.

Definition all_sends_ok (env : Env) : Env :=
  {| e_first := e_first env;
     e_others := fun k => send_succeeds <$> e_others env k;
     e_send_ok := fun _ => true;
     e_wait_timeout := e_wait_timeout env;
     e_now_ms := e_now_ms env |}.

(** The world with the outcome of every send forgotten. *)
Definition forget_outcome (a : Action) : Action :=
  match a with
  | ASend m _ => ASend m true
  | a => a
  end.

Definition forget_outcomes (w : World) : World :=
  {| w_run := w_run w; w_tick := w_tick w;
     w_log := forget_outcome <$> w_log w; w_hb := w_hb w |}.

(** [m'] does on the world without outcomes what [m] does on the world. *)
Definition same_attempts {A} (m m' : M A) : Prop :=
  forall w, m' (forget_outcomes w) = (fst (m w), forget_outcomes (snd (m w))).

(** The samples of the data frames handed to [ws.send], oldest first. *)
Definition data_samples (log : list Action) : list Sample :=
  concat (omap wire_samples (sent_msgs log)).

(** [s] comes before [s'] in the global numbering. *)
Definition seq_lt (s s' : Sample) : Prop :=
  exists q q', seq s = Some q /\ seq s' = Some q' /\ q < q'.

(** The samples carry strictly increasing sequence numbers, all of them
    inside [lo, hi]. *)
Definition in_order (lo hi : Z) (l : list Sample) : Prop :=
  StronglySorted seq_lt l /\ Forall (fun s => seq_in lo hi s = true) l.

(** The most samples a data frame of type [ty] may hold:
    [args.history_chunk] for history and delta, [args.live_batch] for
    live. *)
Definition frame_limit (args : Args) (ty : DataType) : Z :=
  match ty with
  | Live => args_live_batch args
  | _ => args_history_chunk args
  end.

(** A message on the wire is in the configured format and, when it carries
    samples, holds at least one and no more than the limit of its type. *)
Definition wire_fits (lib : Lib) (args : Args) (m : WireMsg) : Prop :=
  match m with
  | WText (FData ty samples) =>
      String.eqb (args_ws_format args) "binary" = false
      /\ 1 <= Z.of_nat (length samples) <= frame_limit args ty
  | WBinary ty samples =>
      String.eqb (args_ws_format args) "binary" = true
      /\ binary_encodes lib ty samples = true
      /\ 1 <= Z.of_nat (length samples) <= frame_limit args ty
  | WText _ => True
  end.

Definition is_heartbeat (m : WireMsg) : Prop := exists ts_ms, m = WText (FHeartbeat ts_ms).

(** The run is done and the last frame of the session, heartbeats apart, is
    a [test_done]. *)
Definition finished (w : World) : Prop :=
  (exists run, w_run w = Some run /\ done run = true)
  /\ exists pre final hbs,
      sent_msgs (w_log w) = pre ++ WText (FTestDone final) :: hbs
      /\ Forall is_heartbeat hbs.

(** What holds of a session between any two steps of its handler: the run
    is one a run can reach and has got to [top] at least; the samples sent
    so far are in order, inside [lo, hi], with [hi <= top]; and, for a
    [live_batch] that is not negative, every frame sent fits. *)
Definition session_inv (lib : Lib) (args : Args) (lo hi top : Z) (w : World) : Prop :=
  (exists run, w_run w = Some run /\ reachable run /\ top <= last_seq run)
  /\ hi <= top /\ lo <= hi + 1
  /\ in_order lo hi (data_samples (w_log w))
  /\ Forall (fun m => 0 <= args_live_batch args -> wire_fits lib args m)
       (sent_msgs (w_log w)).

(** What a call has to establish, by the way it ends: [Qret] when it
    returns, [Qraise] when it raises, [Qpend] when it is still running. *)
Definition outcome_post {A} (Qret : A -> World -> Prop) (Qraise Qpend : World -> Prop)
    (res : Outcome A * World) : Prop :=
  match res with
  | (Ret a, w) => Qret a w
  | (Raise _, w) => Qraise w
  | (Pending, w) => Qpend w
  end.

(** The run of the world is the run as the surroundings have made it by
    now, the flag of the event apart (the session clears it in
    [wait_for_new_after]). *)
Definition tracked (env : Env) (run0 : FeedRun) (w : World) : Prop :=
  exists run, w_run w = Some run /\ same_but_event run (run_at env run0 (w_tick w)).

(** The samples sent so far are exactly those numbered [lo, ..., hi], each
    once and in order. *)
Definition sent_exactly (lo hi : Z) (w : World) : Prop :=
  seq_contiguous lo (data_samples (w_log w))
  /\ lo + Z.of_nat (length (data_samples (w_log w))) = hi + 1.

(** [session_inv] for a session that loses nothing. *)
Definition lossless_inv (lib : Lib) (env : Env) (args : Args) (run0 : FeedRun)
    (lo hi top : Z) (w : World) : Prop :=
  session_inv lib args lo hi top w /\ tracked env run0 w /\ sent_exactly lo hi w.

(** The last frame of the session, heartbeats apart, is a [test_done] whose
    [final_seq], when it is set, is at most [hi]. *)
Definition closed_at (hi : Z) (w : World) : Prop :=
  exists pre final hbs,
    sent_msgs (w_log w) = pre ++ WText (FTestDone final) :: hbs
    /\ Forall is_heartbeat hbs
    /\ forall v, final = Some v -> v <> 0 -> v <= hi.

(** The heartbeat frames of [n] wakes of the heartbeat task, started at
    suspension [k]: the task suspends twice per turn, in the sleep and in the
    send, and reads the clock in between. *)
Definition heartbeats (env : Env) (k n : nat) : list WireMsg :=
  (fun i => WText (FHeartbeat (e_now_ms env (k + 2 * i + 1)%nat))) <$> List.seq 0 n.

(** ** A small scenario to run the model on *)

Definition tick (t : Z) : Sample :=
  {| series_id := Some "ES:ticks"; t_ms := t;
     payload := PDict [("price", PFloat (FFinite 4000 1)); ("volume", PInt 1)];
     seq := None; series_seq := None |}.

(** A sample of another series, or of none when [sid] is empty. *)
Definition bar (sid : string) (t : Z) : Sample :=
  {| series_id := Some sid; t_ms := t; payload := PDict [("close", PInt 1)];
     seq := None; series_seq := None |}.

Definition fresh_run : FeedRun :=
  {| ring := []; ring_capacity := 2; live_batch := 2; new_event := false;
     next_seq := 1; final_seq := None; done := false; _series_next_seq := ∅ |}.

(** Three ticks into a ring of capacity 2: it retains [seq] 2 and 3. *)
Definition demo_run : FeedRun := fst (append_all fresh_run [tick 10; tick 20; tick 30]).

(** The tick of time [t] as the ring holds it once stamped with [q]. *)
Definition stamped (t q : Z) : Sample := set_seq q (set_series_seq q (tick t)).

(** A run marked done by a producer that left [final_seq] unset, with two
    samples retained. *)
Definition stalled_run : FeedRun :=
  {| ring := ring demo_run; ring_capacity := 2; live_batch := 2; new_event := true;
     next_seq := 4; final_seq := None; done := true;
     _series_next_seq := _series_next_seq demo_run |}.

(** A stand-in for [json.loads] that knows a few frames. *)
Definition demo_lib : Lib :=
  {| json_loads := fun raw =>
       if String.eqb raw "resume" then Some (PDict [("type", PStr "resume")])
       else if String.eqb raw "resume from 1" then
         Some (PDict [("type", PStr "resume"); ("from_seq", PInt 1)])
       else if String.eqb raw "resume from 3" then
         Some (PDict [("type", PStr "resume"); ("from_seq", PInt 3)])
       else if String.eqb raw "resume from [1]" then
         Some (PDict [("type", PStr "resume"); ("from_seq", PList [PInt 1])])
       else if String.eqb raw "hello" then Some (PStr "hello")
       else None;
     int_of_str := fun _ => None;
     binary_encodes := fun _ _ => true |}.

(** The producer appends a tick while [init_begin] is being sent and drains
    two suspensions later; every [ws.send] returns [send_ok]. *)
Definition demo_env (first : Recv) (send_ok : bool) : Env :=
  {| e_first := first;
     e_others := fun k =>
       if Nat.eqb k 1 then [ProducerAppend (tick 40)]
       else if Nat.eqb k 3 then [ProducerDrain; HeartbeatSend 99 send_ok]
       else [];
     e_send_ok := fun _ => send_ok;
     e_wait_timeout := fun _ => true;
     e_now_ms := fun k => 1000 * Z.of_nat k |}.

Definition demo_args (ws_format : string) : Args :=
  {| args_ring_capacity := 2; args_history_chunk := 1; args_live_batch := 2;
     args_heartbeat_sec := 5; args_ws_format := ws_format |}.

(** * Properties *)

(** ** Python helpers *)

Lemma py_range_nil start stop : stop <= start -> py_range start stop = [].
Proof. intros H. apply seqZ_nil. lia. Qed.

Lemma py_range_length start stop :
  length (py_range start stop) = Z.to_nat (stop - start).
Proof. apply length_seqZ. Qed.

Lemma py_range_snoc start stop :
  start <= stop -> py_range start (stop + 1) = py_range start stop ++ [stop].
Proof.
  intros H. unfold py_range.
  replace (stop + 1 - start) with ((stop - start) + 1) by lia.
  rewrite seqZ_app by lia. f_equal.
  rewrite seqZ_cons, seqZ_nil by lia. f_equal. lia.
Qed.

Lemma py_range_cons start stop :
  start < stop -> py_range start stop = start :: py_range (start + 1) stop.
Proof.
  intros H. unfold py_range. rewrite seqZ_cons by lia.
  do 2 f_equal; lia.
Qed.

Lemma py_range_lookup start stop (i : nat) :
  (i < Z.to_nat (stop - start))%nat ->
  py_range start stop !! i = Some (start + Z.of_nat i).
Proof. intros H. apply lookup_seqZ_lt. lia. Qed.

Lemma py_getitem_nat {A} (lst : list A) (i : nat) :
  (i < length lst)%nat -> py_getitem lst (Z.of_nat i) = lst !! i.
Proof.
  intros H. unfold py_getitem.
  replace (0 <=? Z.of_nat i) with true by lia.
  replace (Z.of_nat i <? Z.of_nat (length lst)) with true by lia.
  simpl. by rewrite Nat2Z.id.
Qed.

(** Reading the indices [a, a+1, ..., a+n-1] of a list that has them is
    slicing it. *)
Lemma mapM_getitem_range {A} (lst : list A) (a n : nat) :
  (a + n <= length lst)%nat ->
  mapM (py_getitem lst) (py_range (Z.of_nat a) (Z.of_nat (a + n)))
  = Some (take n (drop a lst)).
Proof.
  intros H. apply mapM_Some. apply Forall2_same_length_lookup. split.
  - rewrite py_range_length, length_take, length_drop. lia.
  - intros i x y Hx Hy.
    assert (i < n)%nat as Hi.
    { apply lookup_lt_Some in Hx. rewrite py_range_length in Hx. lia. }
    rewrite py_range_lookup in Hx by lia. injection Hx as <-.
    rewrite lookup_take_lt, lookup_drop in Hy by done.
    rewrite <- Nat2Z.inj_add, py_getitem_nat by lia. done.
Qed.

(** ** The ring *)

Lemma min_seq_eq r : min_seq r = next_seq r - Z.of_nat (length (ring r)).
Proof. unfold min_seq. destruct (ring r); simpl; lia. Qed.

Lemma append_next_seq r s : next_seq (fst (_append r s)) = next_seq r + 1.
Proof. unfold _append. by destruct (sid_truthy (series_id s)). Qed.

Lemma append_capacity r s : ring_capacity (fst (_append r s)) = ring_capacity r.
Proof. unfold _append. by destruct (sid_truthy (series_id s)). Qed.

Lemma append_live_batch r s : live_batch (fst (_append r s)) = live_batch r.
Proof. unfold _append. by destruct (sid_truthy (series_id s)). Qed.

Lemma append_ring r s :
  ring (fst (_append r s))
  = deque_append (ring_capacity r) (ring r) (snd (_append r s)).
Proof. unfold _append. by destruct (sid_truthy (series_id s)). Qed.

Lemma append_seq r s : seq (snd (_append r s)) = Some (next_seq r).
Proof. unfold _append. by destruct (sid_truthy (series_id s)). Qed.

Lemma append_series_id r s : series_id (snd (_append r s)) = series_id s.
Proof. unfold _append. by destruct (sid_truthy (series_id s)). Qed.

Lemma append_content r s :
  t_ms (snd (_append r s)) = t_ms s /\ payload (snd (_append r s)) = payload s.
Proof. unfold _append. by destruct (sid_truthy (series_id s)). Qed.

Lemma deque_append_keep_last {A} (c : nat) (d : list A) (x : A) :
  (length d <= c)%nat ->
  deque_append (Z.of_nat c) d x = keep_last c (d ++ [x]).
Proof.
  intros H. unfold deque_append, keep_last. rewrite length_app. simpl.
  destruct (Z.ltb_spec (Z.of_nat c) (Z.of_nat (length d + 1))) as [Hlt | Hge].
  - replace (length d + 1 - c)%nat with 1%nat by lia.
    by destruct (d ++ [x]).
  - by replace (length d + 1 - c)%nat with 0%nat by lia.
Qed.

Lemma keep_last_length {A} (c : nat) (l : list A) :
  length (keep_last c l) = (length l `min` c)%nat.
Proof. unfold keep_last. rewrite length_drop. lia. Qed.

Lemma keep_last_app {A} (c : nat) (l m : list A) :
  keep_last c (keep_last c l ++ m) = keep_last c (l ++ m).
Proof.
  unfold keep_last. rewrite !length_app, length_drop.
  destruct (Nat.le_gt_cases (length l) c) as [Hle | Hgt].
  - replace (length l - c)%nat with 0%nat by lia. simpl.
    by rewrite Nat.sub_0_r.
  - replace (length l - (length l - c) + length m - c)%nat with (length m) by lia.
    replace (length l + length m - c)%nat
      with ((length l - c) + length m)%nat by lia.
    rewrite <- drop_drop. f_equal.
    rewrite drop_app_le by lia. done.
Qed.

Lemma keep_last_all {A} (c : nat) (l : list A) :
  (length l <= c)%nat -> keep_last c l = l.
Proof. intros H. unfold keep_last. by replace (length l - c)%nat with 0%nat by lia. Qed.

(** The ring after a run of appends is the last [capacity] elements of what
    it held followed by the stamped samples. *)
Lemma append_all_ring (c : nat) r xs :
  ring_capacity r = Z.of_nat c ->
  (length (ring r) <= c)%nat ->
  ring (fst (append_all r xs)) = keep_last c (ring r ++ snd (append_all r xs)).
Proof.
  revert r. induction xs as [| s rest IH]; intros r Hcap Hlen; simpl.
  - rewrite app_nil_r. by rewrite keep_last_all.
  - pose proof (append_ring r s) as Hring.
    pose proof (append_capacity r s) as Hc.
    destruct (_append r s) as [r' s'] eqn:Happ. simpl in *.
    rewrite Hcap, deque_append_keep_last in Hring by done.
    specialize (IH r').
    destruct (append_all r' rest) as [r'' out] eqn:Hall. simpl in *.
    rewrite IH.
    + rewrite Hring, keep_last_app, <- app_assoc. done.
    + congruence.
    + rewrite Hring, keep_last_length. lia.
Qed.

Lemma append_all_length r xs : length (snd (append_all r xs)) = length xs.
Proof.
  revert r. induction xs as [| s rest IH]; intros r; simpl; [done |].
  destruct (_append r s) as [r' s']. specialize (IH r').
  destruct (append_all r' rest). simpl in *. by rewrite IH.
Qed.

Lemma append_all_next_seq r xs :
  next_seq (fst (append_all r xs)) = next_seq r + Z.of_nat (length xs).
Proof.
  revert r. induction xs as [| s rest IH]; intros r; simpl; [lia |].
  pose proof (append_next_seq r s) as Hn.
  destruct (_append r s) as [r' s']. specialize (IH r').
  destruct (append_all r' rest). simpl in *. rewrite IH, Hn. lia.
Qed.

Lemma append_all_seq r xs :
  seq <$> snd (append_all r xs)
  = Some <$> py_range (next_seq r) (next_seq r + Z.of_nat (length xs)).
Proof.
  revert r. induction xs as [| s rest IH]; intros r.
  - simpl. by rewrite py_range_nil by lia.
  - cbn [append_all length].
    pose proof (append_next_seq r s) as Hn.
    pose proof (append_seq r s) as Hs.
    destruct (_append r s) as [r' s']. specialize (IH r').
    destruct (append_all r' rest) as [r'' out]. cbn [fst snd] in *.
    rewrite py_range_cons by lia. rewrite !fmap_cons, Hs. f_equal.
    rewrite IH, Hn. do 2 f_equal. lia.
Qed.

(** Stamping leaves what the producer put into a sample alone. *)
Lemma append_all_content r xs :
  Forall2 (fun s s' => series_id s' = series_id s /\ t_ms s' = t_ms s
                       /\ payload s' = payload s)
          xs (snd (append_all r xs)).
Proof.
  revert r. induction xs as [| s rest IH]; intros r; cbn [append_all]; [constructor |].
  pose proof (append_series_id r s) as Hid.
  pose proof (append_content r s) as [Ht Hp].
  destruct (_append r s) as [r' s']. specialize (IH r').
  destruct (append_all r' rest) as [r'' out]. cbn [fst snd] in *.
  by constructor.
Qed.

Lemma append_all_app r xs ys :
  append_all r (xs ++ ys)
  = (fst (append_all (fst (append_all r xs)) ys),
     snd (append_all r xs) ++ snd (append_all (fst (append_all r xs)) ys)).
Proof.
  revert r. induction xs as [| s rest IH]; intros r; simpl.
  - by destruct (append_all r ys).
  - destruct (_append r s) as [r' s']. rewrite IH.
    destruct (append_all r' rest) as [r'' out]. simpl. done.
Qed.

Lemma init_inv cap lb r :
  FeedRun_init cap lb = Some r ->
  0 <= cap /\ ring r = [] /\ ring_capacity r = cap /\ next_seq r = 1
  /\ _series_next_seq r = ∅ /\ live_batch r = lb /\ done r = false
  /\ final_seq r = None.
Proof.
  unfold FeedRun_init. destruct (Z.ltb_spec cap 0); [done |].
  intros [= <-]. simpl. repeat split; (lia || done).
Qed.

Lemma has_sid_append sid r s : has_sid sid (snd (_append r s)) = has_sid sid s.
Proof. unfold has_sid. by rewrite append_series_id. Qed.

Lemma has_sid_true sid s :
  sid <> "" -> has_sid sid s = true -> sid_truthy (series_id s) = Some sid.
Proof.
  unfold has_sid, sid_truthy. intros Hne H.
  destruct (series_id s) as [sid' |]; [| done].
  apply String.eqb_eq in H as ->.
  destruct (String.eqb_spec sid ""); done.
Qed.

Lemma has_sid_false sid s sid' :
  has_sid sid s = false -> sid_truthy (series_id s) = Some sid' -> sid' <> sid.
Proof.
  unfold has_sid, sid_truthy. intros H Ht ->.
  destruct (series_id s) as [x |]; [| done].
  destruct (String.eqb x ""); [done |]. injection Ht as ->.
  by rewrite String.eqb_refl in H.
Qed.

(** What one append does to the counter of a series. *)
Lemma append_series_mine sid r s :
  sid <> "" -> has_sid sid s = true ->
  let c := default 1 (_series_next_seq r !! sid) in
  series_seq (snd (_append r s)) = Some c
  /\ default 1 (_series_next_seq (fst (_append r s)) !! sid) = c + 1.
Proof.
  intros Hne Hs. unfold _append. rewrite (has_sid_true sid s Hne Hs). simpl.
  by rewrite lookup_insert_eq.
Qed.

Lemma append_series_other sid r s :
  has_sid sid s = false ->
  _series_next_seq (fst (_append r s)) !! sid = _series_next_seq r !! sid.
Proof.
  intros Hs. unfold _append.
  destruct (sid_truthy (series_id s)) as [sid' |] eqn:Ht; simpl; [| done].
  apply lookup_insert_ne. by eapply has_sid_false.
Qed.

Lemma append_all_series sid r xs :
  sid <> "" ->
  let c := default 1 (_series_next_seq r !! sid) in
  let mine := List.filter (has_sid sid) (snd (append_all r xs)) in
  series_seq <$> mine = Some <$> py_range c (c + Z.of_nat (length mine))
  /\ default 1 (_series_next_seq (fst (append_all r xs)) !! sid)
     = c + Z.of_nat (length mine).
Proof.
  intros Hne. revert r. induction xs as [| s rest IH]; intros r.
  - simpl. rewrite py_range_nil by lia. split; [done | lia].
  - cbn [append_all].
    pose proof (has_sid_append sid r s) as Hh.
    pose proof (append_series_mine sid r s Hne) as Hmine.
    pose proof (append_series_other sid r s) as Hother.
    destruct (_append r s) as [r' s']. specialize (IH r').
    destruct (append_all r' rest) as [r'' out]. cbn [fst snd] in *.
    cbn [List.filter]. rewrite Hh.
    destruct (has_sid sid s) eqn:Hs.
    + destruct (Hmine eq_refl) as [Hseq Hnext]. destruct IH as [IH1 IH2].
      rewrite Hnext in IH1, IH2. cbn [length]. split.
      * rewrite py_range_cons by lia. rewrite !fmap_cons, Hseq. f_equal.
        rewrite IH1. do 2 f_equal. lia.
      * rewrite IH2. lia.
    + rewrite <- (Hother eq_refl). apply IH.
Qed.

(** C4: with capacity [cap], once more than [cap] samples have been
    appended the ring holds exactly [cap] samples (the last [cap] ones) and
    [min_seq() = next_seq - cap]; up to [cap] appends the ring holds every
    appended sample. *)
Theorem ring_holds_last_capacity cap lb run0 samples :
  FeedRun_init cap lb = Some run0 ->
  let run := fst (append_all run0 samples) in
  let out := snd (append_all run0 samples) in
  (cap < Z.of_nat (length samples) ->
     Z.of_nat (length (ring run)) = cap
     /\ min_seq run = next_seq run - cap
     /\ ring run = keep_last (Z.to_nat cap) out)
  /\ (Z.of_nat (length samples) <= cap -> ring run = out).
Proof.
  intros Hinit run out.
  destruct (init_inv _ _ _ Hinit) as (Hcap & Hring & Hc & _).
  assert (ring run = keep_last (Z.to_nat cap) out) as Hkeep.
  { unfold run, out. rewrite (append_all_ring (Z.to_nat cap)).
    - by rewrite Hring.
    - lia.
    - rewrite Hring. simpl. lia. }
  assert (length out = length samples) as Hlen by apply append_all_length.
  split.
  - intros Hmore. rewrite min_seq_eq, Hkeep, keep_last_length.
    repeat split; lia || done.
  - intros Hfew. rewrite Hkeep. apply keep_last_all. lia.
Qed.

Lemma ring_holds_last_capacity_witness :
  FeedRun_init 2 2 = Some fresh_run
  /\ Z.of_nat (length (ring demo_run)) = 2
  /\ min_seq demo_run = next_seq demo_run - 2.
Proof.
  split; [reflexivity |].
  destruct (ring_holds_last_capacity 2 2 fresh_run [tick 10; tick 20; tick 30] eq_refl)
    as [Hmore _].
  destruct Hmore as (H1 & H2 & _); [simpl; lia |].
  split; [exact H1 | exact H2].
Defined.

(** A sample without a series id, or with the empty one, passes [if sid:]
    by: [_append] gives it a [seq] and leaves its [series_seq] as the caller
    passed it, and the counters of the run are not touched. *)
Lemma append_unstamped r s :
  sid_truthy (series_id s) = None ->
  seq (snd (_append r s)) = Some (next_seq r)
  /\ series_seq (snd (_append r s)) = series_seq s
  /\ _series_next_seq (fst (_append r s)) = _series_next_seq r.
Proof. intros H. unfold _append. by rewrite H. Qed.

Lemma append_all_unstamped r xs :
  Forall2 (fun s s' => sid_truthy (series_id s) = None ->
                       is_Some (seq s') /\ series_seq s' = series_seq s)
          xs (snd (append_all r xs)).
Proof.
  revert r. induction xs as [| s rest IH]; intros r; cbn [append_all]; [constructor |].
  pose proof (append_unstamped r s) as Hs.
  destruct (_append r s) as [r' s']. specialize (IH r').
  destruct (append_all r' rest) as [r'' out]. cbn [fst snd] in *.
  constructor; [| done]. intros Hnone. destruct (Hs Hnone) as (Hseq & Hss & _).
  split; [by eexists | done].
Qed.

(** C1 (amended): the appends into a fresh run stamp the global sequence
    numbers 1, 2, 3, ... in append order, and for every series id that is not
    the empty string the samples of that series are stamped with the
    sub-sequence numbers 1, 2, 3, ... in append order. A sample whose series
    id is absent or the empty string is given a [seq] but no [series_seq]:
    the field is left as the caller passed it, absent in a new sample. *)
Theorem append_numbers_contiguous cap lb run0 samples sid :
  FeedRun_init cap lb = Some run0 ->
  sid <> "" ->
  let out := snd (append_all run0 samples) in
  seq_contiguous 1 out
  /\ series_contiguous sid out
  /\ Forall2 (fun s s' => sid_truthy (series_id s) = None ->
                          is_Some (seq s') /\ series_seq s' = series_seq s)
       samples out
  /\ Forall2 (fun s s' => sid_truthy (series_id s) = None -> series_seq s = None ->
                          series_seq s' = None)
       samples out.
Proof.
  intros Hinit Hne out.
  destruct (init_inv _ _ _ Hinit) as (_ & _ & _ & Hnext & Hmap & _).
  split; [| split; [| split]].
  - unfold seq_contiguous, out.
    rewrite append_all_seq, append_all_length, Hnext. done.
  - unfold series_contiguous.
    destruct (append_all_series sid run0 samples Hne) as [H _].
    rewrite Hmap, lookup_empty in H. exact H.
  - apply append_all_unstamped.
  - eapply Forall2_impl; [apply append_all_unstamped |].
    intros s s' H Hnone Hss. destruct (H Hnone) as [_ ->]. exact Hss.
Qed.

Lemma append_numbers_contiguous_witness :
  let sma t := {| series_id := Some "ES:sma_10"; t_ms := t;
                  payload := PDict [("value", PNone)];
                  seq := None; series_seq := None |} in
  let out := snd (append_all fresh_run [tick 10; bar "" 10; sma 10; tick 20]) in
  seq_contiguous 1 out /\ series_contiguous "ES:ticks" out
  /\ series_seq <$> out = [Some 1; None; Some 1; Some 2].
Proof.
  intros sma out.
  destruct (append_numbers_contiguous 2 2 fresh_run
              [tick 10; bar "" 10; sma 10; tick 20] "ES:ticks")
    as (H1 & H2 & _ & _); [reflexivity | discriminate |].
  split; [exact H1 |]. split; [exact H2 | reflexivity].
Defined.

(** C1 as stated fails for the series id [""]: [if sid:] skips the stamping,
    so two samples of that series carry no [series_seq] at all. *)
Lemma append_series_empty_id_counterexample :
  let s t := {| series_id := Some ""; t_ms := t; payload := PDict [("value", PInt 1)];
                seq := None; series_seq := None |} in
  let out := snd (append_all fresh_run [s 10; s 20]) in
  FeedRun_init 2 2 = Some fresh_run
  /\ series_seq <$> List.filter (has_sid "") out = [None; None]
  /\ ~ series_contiguous "" out.
Proof.
  intros s out. split; [reflexivity |]. split; [reflexivity |].
  unfold series_contiguous. vm_compute. discriminate.
Qed.

(** ** [get_range] *)

Lemma ring_ok_mark_done r : ring_ok r -> ring_ok (mark_done r).
Proof. done. Qed.

Lemma ring_ok_clear r : ring_ok r -> ring_ok (clear_new_event r).
Proof. done. Qed.

Lemma ring_ok_append r s : ring_ok r -> ring_ok (fst (_append r s)).
Proof.
  unfold ring_ok. rewrite !min_seq_eq, append_ring, append_next_seq.
  intros H. pose proof (append_seq r s) as Hs.
  set (s' := snd (_append r s)) in *. unfold deque_append.
  assert (seq <$> ring r ++ [s']
          = Some <$> py_range (next_seq r - Z.of_nat (length (ring r)))
                              (next_seq r + 1)) as Happ.
  { rewrite fmap_app, H, py_range_snoc, fmap_app by lia. simpl. by rewrite Hs. }
  destruct (ring_capacity r <? Z.of_nat (length (ring r ++ [s']))).
  - rewrite fmap_tail, Happ.
    rewrite (py_range_cons (next_seq r - _)) by lia. simpl.
    assert (length (tail (ring r ++ [s'])) = length (ring r)) as ->.
    { destruct (ring r); simpl; [done |]. rewrite length_app. simpl. lia. }
    do 2 f_equal. lia.
  - rewrite Happ, length_app. simpl. do 2 f_equal. lia.
Qed.

Lemma reachable_ring_ok r : reachable r -> ring_ok r.
Proof.
  induction 1 as [cap lb r Hinit | r s _ IH | r _ IH | r _ IH].
  - destruct (init_inv _ _ _ Hinit) as (_ & Hring & _ & Hnext & _).
    unfold ring_ok. rewrite min_seq_eq, Hring, Hnext. done.
  - by apply ring_ok_append.
  - by apply ring_ok_mark_done.
  - by apply ring_ok_clear.
Qed.

Lemma append_all_reachable r xs : reachable r -> reachable (fst (append_all r xs)).
Proof.
  revert r. induction xs as [| s rest IH]; intros r Hr; simpl; [done |].
  pose proof (reach_append r s Hr) as Hr'.
  destruct (_append r s) as [r' s']. specialize (IH r' Hr').
  by destruct (append_all r' rest).
Qed.

Lemma consecutive_cons base x (l : list Sample) :
  seq <$> x :: l = Some <$> py_range base (base + Z.of_nat (length (x :: l))) ->
  seq x = Some base
  /\ seq <$> l = Some <$> py_range (base + 1) (base + 1 + Z.of_nat (length l)).
Proof.
  rewrite py_range_cons by (simpl; lia). rewrite !fmap_cons.
  intros [= Hx Hl]. split; [done |]. rewrite Hl. do 2 f_equal. simpl. lia.
Qed.

Lemma filter_empty_window lo hi (l : list Sample) :
  hi < lo -> List.filter (seq_in lo hi) l = [].
Proof.
  intros H. induction l as [| x l IH]; simpl; [done |].
  unfold seq_in at 1. destruct (seq x) as [q |]; [| done].
  destruct (Z.leb_spec lo q), (Z.leb_spec q hi); simpl; (done || lia).
Qed.

(** A window that starts at or before the first sample selects a prefix. *)
Lemma filter_window_prefix (l : list Sample) base lo hi :
  seq <$> l = Some <$> py_range base (base + Z.of_nat (length l)) ->
  lo <= base ->
  List.filter (seq_in lo hi) l = take (Z.to_nat (hi - base + 1)) l.
Proof.
  revert base. induction l as [| x l IH]; intros base Hl Hlo.
  - by rewrite take_nil.
  - apply consecutive_cons in Hl as [Hx Hl]. simpl.
    unfold seq_in at 1. rewrite Hx.
    replace (lo <=? base) with true by lia. simpl.
    rewrite (IH (base + 1)) by (done || lia).
    destruct (Z.leb_spec base hi).
    + replace (Z.to_nat (hi - base + 1)) with (S (Z.to_nat (hi - (base + 1) + 1))) by lia.
      done.
    + replace (Z.to_nat (hi - base + 1)) with 0%nat by lia.
      by replace (Z.to_nat (hi - (base + 1) + 1)) with 0%nat by lia.
Qed.

(** A window inside consecutive samples selects a slice. *)
Lemma filter_window (l : list Sample) base lo hi :
  seq <$> l = Some <$> py_range base (base + Z.of_nat (length l)) ->
  base <= lo ->
  List.filter (seq_in lo hi) l
  = take (Z.to_nat (hi - lo + 1)) (drop (Z.to_nat (lo - base)) l).
Proof.
  revert base. induction l as [| x l IH]; intros base Hl Hlo.
  - by rewrite drop_nil, take_nil.
  - destruct (Z.eq_dec lo base) as [-> | Hne].
    + rewrite (filter_window_prefix _ base) by (done || lia).
      by rewrite Z.sub_diag.
    + apply consecutive_cons in Hl as [Hx Hl]. simpl.
      unfold seq_in at 1. rewrite Hx.
      replace (lo <=? base) with false by lia. simpl.
      rewrite (IH (base + 1)) by (done || lia).
      replace (Z.to_nat (lo - base)) with (S (Z.to_nat (lo - (base + 1)))) by lia.
      done.
Qed.

Lemma take_drop_seqZ base len (a n : nat) :
  Z.of_nat (a + n) <= len ->
  take n (drop a (seqZ base len)) = seqZ (base + Z.of_nat a) (Z.of_nat n).
Proof.
  intros H. apply list_eq. intros i.
  rewrite lookup_take, lookup_drop. case_decide as Hi.
  - rewrite !lookup_seqZ_lt by lia. f_equal. lia.
  - by rewrite lookup_seqZ_ge by lia.
Qed.

Lemma ring_ok_length r :
  ring_ok r -> seq <$> ring r
  = Some <$> py_range (min_seq r) (min_seq r + Z.of_nat (length (ring r))).
Proof. unfold ring_ok. intros ->. rewrite min_seq_eq. do 2 f_equal. lia. Qed.

(** [get_range] on a well-numbered ring: the samples of the clamped window,
    which carry exactly its sequence numbers. *)
Lemma get_range_ring_ok r lo hi :
  ring_ok r ->
  let lo' := Z.max lo (min_seq r) in
  let hi' := Z.min hi (last_seq r) in
  get_range r lo hi = Some (List.filter (seq_in lo' hi') (ring r))
  /\ seq <$> List.filter (seq_in lo' hi') (ring r) = Some <$> py_range lo' (hi' + 1).
Proof.
  intros Hok lo' hi'. pose proof (ring_ok_length r Hok) as Hseq.
  pose proof (min_seq_eq r) as Hmin.
  assert (last_seq r = next_seq r - 1) as Hlast by done.
  unfold get_range. fold lo' hi'.
  destruct (Z.ltb_spec hi lo) as [Hempty | Hle].
  { rewrite filter_empty_window by lia. by rewrite py_range_nil by lia. }
  destruct (Z.ltb_spec hi' lo') as [Hempty | Hle'].
  { rewrite filter_empty_window by lia. by rewrite py_range_nil by lia. }
  rewrite (filter_window _ (min_seq r)) by (done || lia).
  set (a := Z.to_nat (lo' - min_seq r)).
  set (n := Z.to_nat (hi' - lo' + 1)).
  split.
  - replace (lo' - min_seq r) with (Z.of_nat a) by lia.
    replace (hi' - min_seq r + 1) with (Z.of_nat (a + n)) by lia.
    apply mapM_getitem_range. lia.
  - rewrite fmap_take, fmap_drop, Hseq, <- fmap_drop, <- fmap_take.
    unfold py_range. rewrite take_drop_seqZ by lia.
    do 2 f_equal; lia.
Qed.

(** [get_range] never raises, whatever the state of the run. *)
Lemma get_range_total r lo hi : is_Some (get_range r lo hi).
Proof.
  unfold get_range. pose proof (min_seq_eq r) as Hmin.
  assert (last_seq r = next_seq r - 1) as Hlast by done.
  destruct (Z.ltb_spec hi lo); [done |].
  destruct (Z.ltb_spec (Z.min hi (last_seq r)) (Z.max lo (min_seq r))); [done |].
  set (a := Z.to_nat (Z.max lo (min_seq r) - min_seq r)).
  set (n := Z.to_nat (Z.min hi (last_seq r) - Z.max lo (min_seq r) + 1)).
  replace (Z.max lo (min_seq r) - min_seq r) with (Z.of_nat a) by lia.
  replace (Z.min hi (last_seq r) - min_seq r + 1) with (Z.of_nat (a + n)) by lia.
  rewrite mapM_getitem_range by lia. done.
Qed.

(** C2: in every state a run can reach, [get_range(lo, hi)] returns exactly
    the retained samples whose [seq] lies in
    [max(lo, min_seq), min(hi, last_seq)]; their sequence numbers are that
    interval in increasing order, and the result is empty when the clamped
    interval is empty (in particular when [lo > hi]). *)
Theorem get_range_clamped_window run lo hi :
  reachable run ->
  let lo' := Z.max lo (min_seq run) in
  let hi' := Z.min hi (last_seq run) in
  get_range run lo hi = Some (List.filter (seq_in lo' hi') (ring run))
  /\ seq <$> List.filter (seq_in lo' hi') (ring run) = Some <$> py_range lo' (hi' + 1)
  /\ (hi' < lo' -> get_range run lo hi = Some []).
Proof.
  intros Hreach lo' hi'.
  destruct (get_range_ring_ok run lo hi (reachable_ring_ok run Hreach)) as [Hget Hseq].
  fold lo' hi' in Hget, Hseq. split; [done |]. split; [done |].
  intros Hempty. rewrite Hget. by rewrite filter_empty_window.
Qed.

Lemma get_range_clamped_window_witness :
  get_range demo_run 1 5 = Some (List.filter (seq_in 2 3) (ring demo_run)).
Proof.
  refine (proj1 (get_range_clamped_window demo_run 1 5 _)).
  apply append_all_reachable. by apply (reach_init 2 2).
Defined.

(** ** [playback_from_memory] *)

Lemma py_slice_inner {A} (l : list A) i j :
  0 <= i -> i <= j -> j <= Z.of_nat (length l) ->
  py_slice l i j = take (Z.to_nat (j - i)) (drop (Z.to_nat i) l).
Proof.
  intros Hi Hij Hj. unfold py_slice, py_slice_bound.
  replace (i <? 0) with false by lia. replace (j <? 0) with false by lia.
  by rewrite !Z.min_l by lia.
Qed.

Lemma append_clear r s : _append (clear_new_event r) s = _append r s.
Proof. unfold _append. by destruct (sid_truthy (series_id s)). Qed.

Lemma same_but_event_append r1 r2 s :
  same_but_event r1 r2 -> _append r1 s = _append r2 s.
Proof.
  unfold same_but_event. intros H.
  by rewrite <- (append_clear r1), <- (append_clear r2), H.
Qed.

Lemma same_but_event_append_all r1 r2 xs :
  same_but_event r1 r2 ->
  same_but_event (fst (append_all r1 xs)) (fst (append_all r2 xs)).
Proof.
  intros H. destruct xs as [| s rest]; [done |]. simpl.
  rewrite (same_but_event_append r1 r2 s H). done.
Qed.

Lemma same_but_event_mark_done r1 r2 :
  same_but_event r1 r2 -> mark_done r1 = mark_done r2.
Proof.
  unfold same_but_event. intros H.
  change (mark_done (clear_new_event r1) = mark_done (clear_new_event r2)).
  by rewrite H.
Qed.

Section PlaybackFacts.
Variable penv : PlaybackEnv.
Variable run0 : FeedRun.
Variable samples : list Sample.

Local Abbreviation fed := (fed_prefix run0 samples).
Local Abbreviation n := (Z.of_nat (length samples)).

Lemma pb_sleep_same k r : same_but_event (pb_sleep penv k r) r.
Proof. unfold pb_sleep. by destruct (pb_waiter_clears penv k). Qed.

Lemma append_slice_fed run idx end_ :
  0 <= idx -> idx <= end_ -> end_ <= n ->
  same_but_event run (fed idx) ->
  same_but_event (append_slice run samples idx end_) (fed end_).
Proof.
  intros Hidx Hle Hend Hsame. unfold append_slice, fed_prefix.
  rewrite py_slice_inner by (done || lia).
  replace (Z.to_nat end_) with (Z.to_nat idx + Z.to_nat (end_ - idx))%nat by lia.
  rewrite <- take_take_drop, append_all_app. cbn [fst].
  by apply same_but_event_append_all.
Qed.

Lemma unpaced_loop_spec fuel k run batch_size idx :
  0 <= idx -> idx <= n -> 1 <= batch_size ->
  same_but_event run (fed idx) ->
  match unpaced_loop penv fuel k run samples batch_size idx with
  | Ret run' => same_but_event run' (fed n)
  | Raise _ => False
  | Pending => Z.of_nat fuel < n - idx
  end.
Proof.
  revert k run idx. induction fuel as [| fuel IH]; intros k run idx H0 Hn Hb Hsame.
  - simpl. destruct (Z.ltb_spec idx n); [lia |].
    by replace n with idx by lia.
  - cbn [unpaced_loop]. destruct (Z.ltb_spec idx n) as [Hlt | Hge].
    + set (end_ := Z.min (idx + batch_size) n).
      specialize (IH (S k) (pb_sleep penv k (append_slice run samples idx end_)) end_).
      destruct (unpaced_loop penv fuel (S k) _ samples batch_size end_);
        (apply IH || (intros; cut (Z.of_nat fuel < n - end_); [lia | apply IH]));
        try lia;
        (unfold same_but_event; rewrite (pb_sleep_same k _);
         apply append_slice_fed; (done || lia)).
    + by replace n with idx by lia.
Qed.

Lemma paced_loop_spec fuel k run idx :
  0 <= idx -> idx <= n ->
  same_but_event run (fed idx) ->
  match paced_loop penv fuel k run samples idx with
  | Ret run' => same_but_event run' (fed n)
  | Raise _ => credit_suffices penv fuel k (n - idx) = false
  | Pending => credit_suffices penv fuel k (n - idx) = false
  end.
Proof.
  revert k run idx. induction fuel as [| fuel IH]; intros k run idx H0 Hn Hsame.
  - simpl. destruct (Z.ltb_spec idx n); [| by replace n with idx by lia].
    by replace (n - idx <=? 0) with false by lia.
  - cbn [paced_loop credit_suffices].
    destruct (Z.ltb_spec idx n) as [Hlt | Hge]; [| by replace n with idx by lia].
    replace (n - idx <=? 0) with false by lia.
    destruct (pb_credit penv k) as [c |]; [| done].
    destruct (Z.leb_spec c 0) as [Hc | Hc].
    + apply IH; try done.
      unfold same_but_event. by rewrite (pb_sleep_same k _).
    + set (end_ := Z.min (idx + c) n).
      specialize (IH (S k) (pb_sleep penv k (append_slice run samples idx end_)) end_).
      assert (credit_suffices penv fuel (S k) (n - idx - c)
              = credit_suffices penv fuel (S k) (n - end_)) as ->.
      { destruct (Z.le_gt_cases n (idx + c)).
        - replace end_ with n by lia.
          destruct fuel; simpl;
            by (replace (n - idx - c <=? 0) with true by lia;
                replace (n - n <=? 0) with true by lia).
        - f_equal. lia. }
      apply IH; try lia.
      unfold same_but_event. rewrite (pb_sleep_same k _).
      apply append_slice_fed; (done || lia).
Qed.

Lemma fed_all : fed n = fst (append_all run0 samples).
Proof. unfold fed_prefix. by rewrite Nat2Z.id, firstn_all. Qed.
End PlaybackFacts.

(** The outcome of a playback: if it returns, the run is the one that the
    appends of all the samples leave, marked done. *)
Lemma playback_outcome penv fuel run0 samples emit_sps :
  let drained := mark_done (fst (append_all run0 samples)) in
  (forall run', playback_from_memory penv fuel run0 samples emit_sps = Ret run' ->
     run' = drained)
  /\ (float_le_0 emit_sps = true -> (length samples <= fuel)%nat ->
      playback_from_memory penv fuel run0 samples emit_sps = Ret drained)
  /\ (samples = [] -> playback_from_memory penv fuel run0 samples emit_sps = Ret drained)
  /\ (float_le_0 emit_sps = false ->
      credit_suffices penv fuel 0 (Z.of_nat (length samples)) = true ->
      playback_from_memory penv fuel run0 samples emit_sps = Ret drained)
  /\ done drained = true
  /\ final_seq drained = Some (last_seq drained)
  /\ new_event drained = true
  /\ Forall2 (fun s s' => series_id s' = series_id s /\ t_ms s' = t_ms s
                          /\ payload s' = payload s)
       samples (snd (append_all run0 samples)).
Proof.
  intros drained.
  pose proof (append_all_content run0 samples) as Hcontent.
  assert (same_but_event run0 (fed_prefix run0 samples 0)) as Hstart by done.
  pose proof (unpaced_loop_spec penv run0 samples fuel 0 run0
                (Z.max 1 (live_batch run0 * 4)) 0) as Hun.
  pose proof (paced_loop_spec penv run0 samples fuel 0 run0 0) as Hpa.
  rewrite fed_all, Z.sub_0_r in Hun, Hpa.
  unfold playback_from_memory.
  destruct (Z.eqb_spec (Z.of_nat (length samples)) 0) as [Hz | Hnz].
  { assert (samples = []) as -> by (destruct samples; [done | simpl in Hz; lia]).
    repeat split; try done. by intros run' [= <-]. }
  destruct (float_le_0 emit_sps).
  - destruct (unpaced_loop penv fuel 0 run0 samples _ 0) as [r | e | ].
    + rewrite (same_but_event_mark_done r _) by (apply Hun; (done || lia)).
      repeat split; try done. by intros run' [= <-].
    + exfalso. apply Hun; (done || lia).
    + repeat split; try done.
      * intros _ Hfuel. exfalso.
        cut (Z.of_nat fuel < Z.of_nat (length samples)); [lia |].
        apply Hun; (done || lia).
      * by intros ->.
  - destruct (paced_loop penv fuel 0 run0 samples 0) as [r | e | ].
    + rewrite (same_but_event_mark_done r _) by (apply Hpa; (done || lia)).
      repeat split; try done. by intros run' [= <-].
    + repeat split; try done.
      * by intros ->.
      * intros _ Hc. rewrite Hpa in Hc by (done || lia). done.
    + repeat split; try done.
      * by intros ->.
      * intros _ Hc. rewrite Hpa in Hc by (done || lia). done.
Qed.

(** C8: whatever the clock and the waiters do, a playback that returns has
    appended every input sample once, in input order and with its content
    untouched, and has left [done = True], [final_seq = last_seq()] and the
    event set; it does return within [length samples] wakes when the input
    is empty or the playback unpaced, and within any number of wakes for
    which the clock grants enough credit when it is paced. Appended means:
    the ring of the drained run is what it held before followed by the
    stamped samples, cut to the last [ring_capacity]; the stamped samples
    carry the next [length samples] sequence numbers; and [next_seq] has
    advanced by as many. *)
Theorem playback_drains penv fuel run0 samples emit_sps :
  let drained := mark_done (fst (append_all run0 samples)) in
  let out := snd (append_all run0 samples) in
  (forall run', playback_from_memory penv fuel run0 samples emit_sps = Ret run' ->
     run' = drained)
  /\ (float_le_0 emit_sps = true -> (length samples <= fuel)%nat ->
      playback_from_memory penv fuel run0 samples emit_sps = Ret drained)
  /\ (samples = [] -> playback_from_memory penv fuel run0 samples emit_sps = Ret drained)
  /\ (float_le_0 emit_sps = false ->
      credit_suffices penv fuel 0 (Z.of_nat (length samples)) = true ->
      playback_from_memory penv fuel run0 samples emit_sps = Ret drained)
  /\ done drained = true
  /\ final_seq drained = Some (last_seq drained)
  /\ new_event drained = true
  /\ Forall2 (fun s s' => series_id s' = series_id s /\ t_ms s' = t_ms s
                          /\ payload s' = payload s)
       samples out
  /\ (forall c : nat,
        ring_capacity run0 = Z.of_nat c -> (length (ring run0) <= c)%nat ->
        ring drained = keep_last c (ring run0 ++ out))
  /\ seq <$> out
     = Some <$> py_range (next_seq run0) (next_seq run0 + Z.of_nat (length samples))
  /\ next_seq drained = next_seq run0 + Z.of_nat (length samples).
Proof.
  intros drained out.
  destruct (playback_outcome penv fuel run0 samples emit_sps)
    as (H1 & H2 & H3 & H4 & H5 & H6 & H7 & H8).
  do 8 (split; [assumption |]). split; [| split].
  - intros c Hcap Hlen. unfold drained, out. cbn [mark_done ring].
    by apply append_all_ring.
  - unfold out. by rewrite append_all_seq.
  - unfold drained. cbn [mark_done next_seq]. apply append_all_next_seq.
Qed.

(** ** The session code *)

Section SessionFacts.
Variable lib : Lib.
Variable env : Env.
Variable args : Args.

Local Abbreviation suspend' := (suspend env).
Local Abbreviation send' := (_send lib env args).
Local Abbreviation sent' := (sent lib env args).
Local Abbreviation handler' := (handler lib env args).

(** [_send] never raises: it returns after at most one [ws.send]. *)
Lemma _send_eq obj w : send' obj w = (Ret tt, sent' obj w).
Proof.
  unfold _send, sent, on_wire, try_except, ws_send, bind, modify, suspend.
  destruct obj as [reason | wm mn cap | ty samples | rf tr | ts | fs];
    try (simpl; by destruct (e_send_ok env (w_tick w))).
  destruct (String.eqb (args_ws_format args) "binary").
  - destruct samples as [| s rest]; [done |].
    destruct (binary_encodes lib ty (s :: rest)); [| done].
    simpl. by destruct (e_send_ok env (w_tick w)).
  - simpl. by destruct (e_send_ok env (w_tick w)).
Qed.

Lemma bind_ret_world {A B} (m : M A) (k : A -> M B) w a w' :
  m w = (Ret a, w') -> bind m k w = k a w'.
Proof. unfold bind. by intros ->. Qed.

Lemma bind_ret {A B} (a : A) (k : A -> M B) w : bind (ret a) k w = k a w.
Proof. done. Qed.

Lemma bind_get_server_run {B} (k : option FeedRun -> M B) w :
  bind get_server_run k w = k (w_run w) w.
Proof. done. Qed.

Lemma send_then {B} obj (k : M B) w : bind (send' obj) (fun _ => k) w = k (sent' obj w).
Proof. by rewrite (bind_ret_world _ _ _ _ _ (_send_eq obj w)). Qed.

Lemma ws_close_eq w :
  ws_close env w = (Ret tt, snd (suspend' (add_log AClose w))).
Proof. done. Qed.

(** An error answer: the frame, then the close. *)
Lemma reject_eq reason w :
  bind (send' (FError reason)) (fun _ => ws_close env) w
  = (Ret tt, snd (suspend' (add_log AClose (sent' (FError reason) w)))).
Proof. by rewrite send_then, ws_close_eq. Qed.

(** While no heartbeat task is alive, the other tasks leave the log of the
    connection alone. *)
Lemma apply_other_no_hb w a :
  w_hb w = false ->
  w_hb (apply_other w a) = false /\ w_log (apply_other w a) = w_log w.
Proof. intros H. destruct a; simpl; try done. by rewrite H. Qed.

Lemma others_no_hb w acts :
  w_hb w = false ->
  w_hb (foldl apply_other w acts) = false
  /\ w_log (foldl apply_other w acts) = w_log w.
Proof.
  revert w. induction acts as [| a acts IH]; intros w H; simpl; [done |].
  destruct (apply_other_no_hb w a H) as [Hhb Hlog].
  destruct (IH _ Hhb) as [IH1 IH2]. split; [done |]. by rewrite IH2.
Qed.

Lemma suspend_no_hb w :
  w_hb w = false ->
  w_hb (snd (suspend' w)) = false /\ w_log (snd (suspend' w)) = w_log w.
Proof. intros H. unfold suspend. simpl. by apply others_no_hb. Qed.

Lemma apply_other_run_none w a : w_run w = None -> w_run (apply_other w a) = None.
Proof. intros H. destruct a; simpl; rewrite ?H; try done. by destruct (w_hb w). Qed.

Lemma suspend_run_none w : w_run w = None -> w_run (snd (suspend' w)) = None.
Proof.
  intros H. unfold suspend. simpl.
  generalize (e_others env (w_tick w)). intros acts. revert w H.
  induction acts as [| a acts IH]; intros w H; simpl; [done |].
  apply IH. by apply apply_other_run_none.
Qed.

Lemma sent_error_log reason w :
  w_hb w = false ->
  w_hb (sent' (FError reason) w) = false
  /\ w_log (sent' (FError reason) w)
     = w_log w ++ [ASend (WText (FError reason)) (e_send_ok env (w_tick w))].
Proof.
  intros H. unfold sent. cbn [on_wire].
  destruct (suspend_no_hb (add_log (ASend (WText (FError reason))
                                      (e_send_ok env (w_tick w))) w) H) as [Hhb Hlog].
  by rewrite Hhb, Hlog.
Qed.

Lemma rejected_new_session reason run :
  rejected reason
    (bind (send' (FError reason)) (fun _ => ws_close env)
       (snd (suspend' (new_session run)))).
Proof.
  rewrite reject_eq. split; [done |]. cbn [snd].
  destruct (suspend_no_hb (new_session run) eq_refl) as [Hhb1 Hlog1].
  set (w1 := snd (suspend' (new_session run))) in *.
  destruct (sent_error_log reason w1 Hhb1) as [Hhb2 Hlog2].
  set (w2 := sent' (FError reason) w1) in *.
  destruct (suspend_no_hb (add_log AClose w2) Hhb2) as [_ Hlog3].
  exists (e_send_ok env (w_tick w1)).
  rewrite Hlog3. cbn [add_log w_log]. rewrite Hlog2, Hlog1. done.
Qed.

(** The handler up to the parsing of the first frame. *)
Lemma handler_timeout fuel w :
  e_first env = RecvTimeout ->
  handler' fuel w
  = bind (send' (FError "first frame must be resume (timeout)"))
      (fun _ => ws_close env) (snd (suspend' w)).
Proof.
  intros H. unfold handler, try_except, ws_recv.
  unfold bind at 1 2 3. simpl. rewrite H. done.
Qed.

Lemma handler_received fuel w raw :
  e_first env = RecvMsg raw ->
  handler' fuel w
  = match json_loads lib raw with
    | None =>
        bind (send' (FError "invalid JSON for first frame")) (fun _ => ws_close env)
    | Some msg =>
        if negb (is_resume msg) then
          bind (send' (FError "first frame must be resume")) (fun _ => ws_close env)
        else
          bind (lift_sum (py_int lib (py_or (msg_get msg "from_seq") (PInt 1))))
            (fun from_seq =>
               bind get_server_run (fun run =>
                 match run with
                 | None => bind (send' (FError "no active run")) (fun _ => ws_close env)
                 | Some _ =>
                     bind (handler_handshake lib env args from_seq)
                       (fun delta_end => handler_live lib env args fuel delta_end)
                 end))
    end (snd (suspend' w)).
Proof.
  intros H. unfold handler, try_except, ws_recv.
  unfold bind at 1 2 3. simpl. rewrite H. done.
Qed.

(** The rejections the handler does make: when the first frame does not
    arrive in time, does not parse, or is not an object of type ["resume"],
    it sends one text [error] frame and closes; when the frame is a resume
    whose [from_seq] converts and there is no active run, it sends [error]
    with reason ["no active run"] and closes. In each case the error frame
    goes out before the close. *)
Lemma handler_rejects_first_frame fuel run :
  let res := handler' fuel (new_session run) in
  (e_first env = RecvTimeout ->
     rejected "first frame must be resume (timeout)" res)
  /\ (forall raw, e_first env = RecvMsg raw -> json_loads lib raw = None ->
        rejected "invalid JSON for first frame" res)
  /\ (forall raw msg, e_first env = RecvMsg raw -> json_loads lib raw = Some msg ->
        is_resume msg = false ->
        rejected "first frame must be resume" res)
  /\ (forall from_seq, valid_resume lib env from_seq -> run = None ->
        rejected "no active run" res).
Proof.
  intros res. unfold res. split; [| split; [| split]].
  - intros H. rewrite (handler_timeout _ _ H). apply rejected_new_session.
  - intros raw H Hparse. rewrite (handler_received _ _ _ H), Hparse.
    apply rejected_new_session.
  - intros raw msg H Hparse Hres. rewrite (handler_received _ _ _ H), Hparse, Hres.
    apply rejected_new_session.
  - intros from_seq (raw & msg & H & Hparse & Hres & Hint) ->.
    rewrite (handler_received _ _ _ H), Hparse, Hres, Hint. cbn [negb lift_sum].
    rewrite bind_ret, bind_get_server_run.
    rewrite (suspend_run_none (new_session None) eq_refl).
    apply rejected_new_session.
Qed.

Lemma apply_other_run_some w a :
  is_Some (w_run w) -> is_Some (w_run (apply_other w a)).
Proof.
  intros [r H]. destruct a; simpl; rewrite ?H; try done.
  destruct (w_hb w); simpl; by rewrite H.
Qed.

Lemma suspend_run_some w : is_Some (w_run w) -> is_Some (w_run (snd (suspend' w))).
Proof.
  intros H. unfold suspend. simpl.
  generalize (e_others env (w_tick w)). intros acts. revert w H.
  induction acts as [| a acts IH]; intros w H; simpl; [done |].
  apply IH. by apply apply_other_run_some.
Qed.

(** A resume frame whose [from_seq] does not convert makes [int(...)] raise
    before the handler looks at the run: nothing is sent, nothing is
    closed. *)
Lemma handler_from_seq_raises fuel w raw msg e :
  e_first env = RecvMsg raw ->
  json_loads lib raw = Some msg ->
  is_resume msg = true ->
  py_int lib (py_or (msg_get msg "from_seq") (PInt 1)) = inl e ->
  handler' fuel w = (Raise e, snd (suspend' w)).
Proof.
  intros H Hparse Hres Hint.
  by rewrite (handler_received _ _ _ H), Hparse, Hres, Hint.
Qed.

(** The handler on a valid resume while a run is active. *)
Lemma handler_valid_resume fuel w from_seq :
  valid_resume lib env from_seq ->
  is_Some (w_run w) ->
  handler' fuel w
  = bind (handler_handshake lib env args from_seq)
      (fun delta_end => handler_live lib env args fuel delta_end) (snd (suspend' w)).
Proof.
  intros (raw & msg & H & Hparse & Hres & Hint) Hrun.
  rewrite (handler_received _ _ _ H), Hparse, Hres, Hint. cbn [negb lift_sum].
  rewrite bind_ret, bind_get_server_run.
  by destruct (suspend_run_some w Hrun) as [r ->].
Qed.

(** C10: when the run is done and [final_seq] is [None] or [0], an
    iteration of the live sender sends [test_done] with that [final_seq]
    and returns, whatever [last_sent] is and whatever the ring still
    holds. *)
Theorem live_loop_done_without_final_seq fuel last_sent series_state w run :
  w_run w = Some run ->
  done run = true ->
  final_seq run = None \/ final_seq run = Some 0 ->
  let test_done := ASend (WText (FTestDone (final_seq run))) (e_send_ok env (w_tick w)) in
  _live_loop_while lib env args (S fuel) last_sent series_state w
  = (Ret tt, snd (suspend' (add_log test_done w)))
  /\ _live_loop lib env args (S fuel) last_sent w
     = (Ret tt, snd (suspend' (add_log test_done w))).
Proof.
  intros Hrun Hdone Hfinal test_done.
  assert (_live_loop_while lib env args (S fuel) last_sent series_state w
          = (Ret tt, snd (suspend' (add_log test_done w)))) as Hloop.
  { cbn [_live_loop_while]. unfold bind at 1, get_run. rewrite Hrun, Hdone.
    assert (final_seq_or (final_seq run) last_sent = last_sent) as ->
      by (by destruct Hfinal as [-> | ->]).
    rewrite Z.leb_refl. cbn [andb]. by rewrite _send_eq. }
  split; [done |].
  unfold _live_loop, try_except.
  assert (_live_loop_while lib env args (S fuel) last_sent ∅ w
          = (Ret tt, snd (suspend' (add_log test_done w)))) as ->; [| done].
  cbn [_live_loop_while]. unfold bind at 1, get_run. rewrite Hrun, Hdone.
  assert (final_seq_or (final_seq run) last_sent = last_sent) as ->
    by (by destruct Hfinal as [-> | ->]).
  rewrite Z.leb_refl. cbn [andb]. by rewrite _send_eq.
Qed.
End SessionFacts.

(** C9: a resume frame whose [from_seq] is absent, [null] or [0] is a valid
    resume from sequence 1: the handler does exactly what it does for a
    frame that says [from_seq: 1], and with an active run it goes on to the
    handshake with [from_seq = 1]. *)
Theorem resume_from_seq_defaults_to_1 lib env args fuel run raw items raw1 msg1 :
  e_first env = RecvMsg raw ->
  json_loads lib raw = Some (PDict items) ->
  is_resume (PDict items) = true ->
  dict_get items "from_seq" = None \/ dict_get items "from_seq" = Some PNone
    \/ dict_get items "from_seq" = Some (PInt 0) ->
  json_loads lib raw1 = Some msg1 ->
  is_resume msg1 = true ->
  msg_get msg1 "from_seq" = PInt 1 ->
  valid_resume lib env 1
  /\ handler lib env args fuel (new_session run)
     = handler lib (with_first (RecvMsg raw1) env) args fuel (new_session run)
  /\ (is_Some run ->
      handler lib env args fuel (new_session run)
      = bind (handler_handshake lib env args 1)
          (fun delta_end => handler_live lib env args fuel delta_end)
          (snd (suspend env (new_session run)))).
Proof.
  intros Hfirst Hparse Hres Hfield Hparse1 Hres1 Hfield1.
  assert (valid_resume lib env 1) as Hvalid.
  { exists raw, (PDict items). repeat split; try done.
    unfold msg_get. by destruct Hfield as [-> | [-> | ->]]. }
  split; [done |]. split.
  - destruct Hvalid as (raw' & msg & H & Hp & Hr & Hint).
    rewrite (handler_received lib env args _ _ _ H), Hp, Hr, Hint.
    rewrite (handler_received lib (with_first (RecvMsg raw1) env) args fuel _ raw1 eq_refl).
    rewrite Hparse1, Hres1, Hfield1. reflexivity.
  - intros Hrun. by apply handler_valid_resume.
Qed.

(** ** What every step of a session preserves *)

Lemma py_slice_length {A} (l : list A) i j :
  0 <= i ->
  length (py_slice l i j)
  = Z.to_nat (py_slice_bound (Z.of_nat (length l)) j - Z.min i (Z.of_nat (length l))).
Proof.
  intros Hi. unfold py_slice. rewrite length_take, length_drop.
  assert (py_slice_bound (Z.of_nat (length l)) i = Z.min i (Z.of_nat (length l))) as ->.
  { unfold py_slice_bound. by replace (i <? 0) with false by lia. }
  unfold py_slice_bound. destruct (Z.ltb_spec j 0); lia.
Qed.

Lemma range_step_bounds fuel i stop step x :
  0 < step -> 0 <= i -> x ∈ range_step fuel i stop step -> 0 <= x < stop.
Proof.
  intros Hstep. revert i. induction fuel as [| fuel IH]; intros i Hi; simpl.
  - by intros ?%elem_of_nil.
  - destruct (Z.ltb_spec i stop); [| by intros ?%elem_of_nil].
    intros [-> | Hx]%elem_of_cons; [lia |]. apply (IH (i + step)); (done || lia).
Qed.

(** The chunks that [chunked] yields are never empty. *)
Lemma chunked_nonempty {A} (l : list A) n batches :
  chunked l n = Some batches -> Forall (fun b => b <> []) batches.
Proof.
  unfold chunked. destruct (Z.eqb_spec n 0); [done |].
  destruct (Z.ltb_spec n 0); intros [= <-]; [done |].
  apply Forall_fmap, Forall_forall. intros x Hx. simpl.
  apply range_step_bounds in Hx; [| lia | lia].
  intros Hnil. apply (f_equal length) in Hnil.
  rewrite py_slice_length in Hnil by lia. unfold py_slice_bound in Hnil.
  replace (x + n <? 0) with false in Hnil by lia. simpl in Hnil. lia.
Qed.

Section Stepwise.
Variable lib : Lib.
Variable env : Env.
Variable args : Args.

(** A relation between an earlier and a later world that holds across
    everything a session does, as long as the data frames it sends carry
    samples. *)
Variable R : World -> World -> Prop.
Hypothesis R_refl : forall w, R w w.
Hypothesis R_trans : forall w1 w2 w3, R w1 w2 -> R w2 w3 -> R w1 w3.
Hypothesis R_other : forall w a, R w (apply_other w a).
Hypothesis R_tick : forall w k, R w (set_tick k w).
Hypothesis R_run : forall w r, R w (set_run r w).
Hypothesis R_hb : forall w b, R w (set_hb b w).
Hypothesis R_send :
  forall w m ok, wire_samples m <> Some [] -> R w (add_log (ASend m ok) w).
Hypothesis R_close : forall w, R w (add_log AClose w).
Hypothesis R_cancel : forall w, R w (add_log ACancelHeartbeat w).

Lemma respects_ret {A} (a : A) : respects R (ret a).
Proof. intros w. apply R_refl. Qed.

Lemma respects_raise {A} e : respects R (@raise A e).
Proof. intros w. apply R_refl. Qed.

Lemma respects_pending {A} : respects R (@pending A).
Proof. intros w. apply R_refl. Qed.

Lemma respects_bind {A B} (m : M A) (k : A -> M B) :
  respects R m ->
  (forall a w w', m w = (Ret a, w') -> respects R (k a)) ->
  respects R (bind m k).
Proof.
  intros Hm Hk w. unfold bind. specialize (Hm w).
  destruct (m w) as [[a | e |] w'] eqn:Hmw; simpl in *; try done.
  eapply R_trans; [exact Hm |]. by apply (Hk a w w').
Qed.

Lemma respects_try {A} (m : M A) (h : Exn -> M A) :
  respects R m -> (forall e, respects R (h e)) -> respects R (try_except m h).
Proof.
  intros Hm Hh w. unfold try_except. specialize (Hm w).
  destruct (m w) as [[a | e |] w'] eqn:Hmw; simpl in *; try done.
  eapply R_trans; [exact Hm |]. apply Hh.
Qed.

Lemma respects_modify f : (forall w, R w (f w)) -> respects R (modify f).
Proof. intros Hf w. apply Hf. Qed.

Lemma respects_lift_sum {A} (r : Exn + A) : respects R (lift_sum r).
Proof. destruct r; [apply respects_raise | apply respects_ret]. Qed.

Lemma respects_lift_option {A} e (r : option A) : respects R (lift_option e r).
Proof. destruct r; [apply respects_ret | apply respects_raise]. Qed.

Lemma respects_get_run : respects R get_run.
Proof. intros w. unfold get_run. destruct (w_run w); apply R_refl. Qed.

Lemma respects_get_tick : respects R get_tick.
Proof. intros w. apply R_refl. Qed.

Lemma respects_get_server_run : respects R get_server_run.
Proof. intros w. apply R_refl. Qed.

Lemma R_others w acts : R w (foldl apply_other w acts).
Proof.
  revert w. induction acts as [| a acts IH]; intros w; simpl; [apply R_refl |].
  eapply R_trans; [apply R_other | apply IH].
Qed.

Lemma respects_suspend : respects R (suspend env).
Proof.
  intros w. unfold suspend. simpl.
  eapply R_trans; [apply R_others | apply R_tick].
Qed.

Lemma respects_ws_send m :
  wire_samples m <> Some [] -> respects R (ws_send env m).
Proof.
  intros Hm w. unfold ws_send.
  generalize (e_send_ok env (w_tick w)). intros ok. revert w.
  change (respects R (bind (modify (add_log (ASend m ok)))
            (fun _ => bind (suspend env)
               (fun _ => if ok then ret tt else raise ConnectionClosed)))).
  apply respects_bind; [apply respects_modify; intros w; by apply R_send |].
  intros _ _ _ _. apply respects_bind; [apply respects_suspend |].
  intros _ _ _ _. destruct ok; [apply respects_ret | apply respects_raise].
Qed.

Lemma respects_send obj :
  (forall ty, obj <> FData ty []) -> respects R (_send lib env args obj).
Proof.
  intros Hobj. unfold _send.
  destruct obj as [reason | wm mn cap | ty samples | rf tr | ts | fs];
    try (apply respects_try; [by apply respects_ws_send | intros; apply respects_ret]).
  assert (samples <> []) as Hne by (intros ->; by apply (Hobj ty)).
  destruct (String.eqb (args_ws_format args) "binary").
  - destruct samples as [| s rest]; [apply respects_ret |].
    apply respects_try; [| intros; apply respects_ret].
    destruct (binary_encodes lib ty (s :: rest)); [| apply respects_raise].
    by apply respects_ws_send.
  - apply respects_try; [| intros; apply respects_ret].
    apply respects_ws_send. simpl. congruence.
Qed.

Lemma respects_ws_close : respects R (ws_close env).
Proof.
  apply respects_bind; [by apply respects_modify |].
  intros. apply respects_suspend.
Qed.

Lemma respects_ws_recv : respects R (ws_recv env).
Proof.
  apply respects_bind; [apply respects_suspend |]. intros.
  destruct (e_first env); [apply respects_raise .. | apply respects_ret].
Qed.

Lemma respects_reject reason :
  respects R (bind (_send lib env args (FError reason)) (fun _ => ws_close env)).
Proof.
  apply respects_bind; [by apply respects_send |]. intros. apply respects_ws_close.
Qed.

Lemma respects_for_each ty batches :
  Forall (fun b => b <> []) batches ->
  respects R (for_each batches (fun batch => _send lib env args (FData ty batch))).
Proof.
  induction 1 as [| b batches Hb _ IH]; cbn [for_each]; [apply respects_ret |].
  apply respects_bind; [| by intros].
  apply respects_send. intros ty' [= _ ->]. done.
Qed.

Lemma respects_wait_for_new_after seq :
  respects R (wait_for_new_after env seq).
Proof.
  apply respects_bind; [apply respects_get_run |]. intros run _ _ _.
  destruct (seq <? last_seq run); [apply respects_ret |].
  apply respects_bind; [by apply respects_modify |]. intros _ _ _ _.
  apply respects_bind; [apply respects_get_tick |]. intros k _ _ _.
  apply respects_bind; [apply respects_suspend |]. intros _ _ _ _.
  destruct (e_wait_timeout env k); [apply respects_ret |].
  apply respects_bind; [apply respects_get_run |]. intros. apply respects_ret.
Qed.

Lemma respects_live_batches fuel to_send idx last_sent series_state :
  respects R (live_batches lib env args fuel to_send idx last_sent series_state).
Proof.
  revert idx last_sent series_state.
  induction fuel as [| fuel IH]; intros idx last_sent series_state;
    cbn [live_batches]; destruct (idx <? Z.of_nat (length to_send));
    try apply respects_ret; try apply respects_pending.
  destruct (py_slice to_send idx (idx + args_live_batch args)) as [| s batch] eqn:Hb;
    [apply respects_ret |].
  apply respects_bind; [by apply respects_send |]. intros _ _ _ _.
  apply respects_bind; [apply respects_lift_option |]. intros ls _ _ _.
  apply respects_bind; [apply respects_suspend |]. intros. apply IH.
Qed.

Lemma respects_live_loop_while fuel last_sent series_state :
  respects R (_live_loop_while lib env args fuel last_sent series_state).
Proof.
  revert last_sent series_state.
  induction fuel as [| fuel IH]; intros last_sent series_state;
    cbn [_live_loop_while]; [apply respects_pending |].
  apply respects_bind; [apply respects_get_run |]. intros run _ _ _.
  destruct (done run && (final_seq_or (final_seq run) last_sent <=? last_sent));
    [by apply respects_send |].
  destruct (last_seq run <=? last_sent).
  - apply respects_bind; [apply respects_wait_for_new_after |]. intros. apply IH.
  - apply respects_bind; [apply respects_lift_option |]. intros to_send _ _ _.
    apply respects_bind; [apply respects_live_batches |]. intros. apply IH.
Qed.

Lemma respects_live_loop fuel after_seq :
  respects R (_live_loop lib env args fuel after_seq).
Proof.
  apply respects_try; [apply respects_live_loop_while | intros; apply respects_ret].
Qed.

Lemma respects_heartbeat_loop fuel : respects R (_heartbeat_loop lib env args fuel).
Proof.
  induction fuel as [| fuel IH]; cbn [_heartbeat_loop]; [apply respects_pending |].
  apply respects_bind; [apply respects_suspend |]. intros _ _ _ _.
  apply respects_bind; [apply respects_get_tick |]. intros k _ _ _.
  apply respects_bind; [by apply respects_send | by intros].
Qed.

Lemma respects_chunks ty (range : option (list Sample)) :
  respects R
    (bind (lift_option IndexError range) (fun samples =>
       bind (lift_option ValueError (chunked samples (args_history_chunk args)))
         (fun batches =>
            for_each batches (fun batch => _send lib env args (FData ty batch))))).
Proof.
  apply respects_bind; [apply respects_lift_option |]. intros samples _ _ _.
  apply respects_bind; [apply respects_lift_option |]. intros batches w w' Hb.
  apply respects_for_each.
  destruct (chunked samples (args_history_chunk args)) as [bs |] eqn:Hc; [| done].
  injection Hb as <- _. by eapply chunked_nonempty.
Qed.

Lemma respects_handshake from_seq :
  respects R (handler_handshake lib env args from_seq).
Proof.
  unfold handler_handshake.
  apply respects_bind; [apply respects_get_run |]. intros run _ _ _.
  apply respects_bind; [by apply respects_send |]. intros _ _ _ _.
  apply respects_bind.
  { destruct (Z.max from_seq (min_seq run) <=? last_seq run); [| apply respects_ret].
    apply respects_bind; [apply respects_get_run |]. intros run' _ _ _.
    apply respects_chunks. }
  intros _ _ _ _.
  apply respects_bind; [apply respects_get_run |]. intros run' _ _ _.
  apply respects_bind.
  { destruct (last_seq run <? last_seq run'); [| apply respects_ret].
    apply respects_chunks. }
  intros _ _ _ _.
  apply respects_bind; [by apply respects_send |]. intros. apply respects_ret.
Qed.

Lemma respects_handler_live fuel delta_end :
  respects R (handler_live lib env args fuel delta_end).
Proof.
  apply respects_bind; [by apply respects_modify |]. intros _ _ _ _.
  apply respects_bind; [apply respects_live_loop |]. intros _ _ _ _.
  apply respects_bind.
  { apply respects_modify. intros w. eapply R_trans; [apply R_cancel | apply R_hb]. }
  intros. apply respects_try; [apply respects_ws_close | intros; apply respects_ret].
Qed.

Lemma respects_handler fuel : respects R (handler lib env args fuel).
Proof.
  unfold handler. apply respects_bind.
  { apply respects_try.
    - apply respects_bind; [apply respects_ws_recv | intros; apply respects_ret].
    - intros []; (apply respects_ret || apply respects_raise). }
  intros [raw |] _ _ _; [| apply respects_reject].
  destruct (json_loads lib raw) as [msg |]; [| apply respects_reject].
  destruct (negb (is_resume msg)); [apply respects_reject |].
  apply respects_bind; [apply respects_lift_sum |]. intros from_seq _ _ _.
  apply respects_bind; [apply respects_get_server_run |].
  intros [run |] _ _ _; [| apply respects_reject].
  apply respects_bind; [apply respects_handshake |]. intros.
  apply respects_handler_live.
Qed.
End Stepwise.

(** The log only grows. *)
Lemma log_grows_ok :
  (forall w, log_grows w w)
  /\ (forall w1 w2 w3, log_grows w1 w2 -> log_grows w2 w3 -> log_grows w1 w3)
  /\ (forall w a, log_grows w (apply_other w a))
  /\ (forall w k, log_grows w (set_tick k w))
  /\ (forall w r, log_grows w (set_run r w))
  /\ (forall w b, log_grows w (set_hb b w))
  /\ (forall w m ok, wire_samples m <> Some [] -> log_grows w (add_log (ASend m ok) w))
  /\ (forall w, log_grows w (add_log AClose w))
  /\ (forall w, log_grows w (add_log ACancelHeartbeat w)).
Proof.
  unfold log_grows. repeat split.
  - intros w. exists []. by rewrite app_nil_r.
  - intros w1 w2 w3 [r1 H1] [r2 H2]. exists (r1 ++ r2). by rewrite H2, H1, app_assoc.
  - intros w [s | | | ts ok]; simpl; try (exists []; by rewrite app_nil_r).
    destruct (w_hb w); simpl; eauto. exists []. by rewrite app_nil_r.
  - intros w k. exists []. by rewrite app_nil_r.
  - intros w r. exists []. by rewrite app_nil_r.
  - intros w b. exists []. by rewrite app_nil_r.
  - intros w m ok _. simpl. eauto.
  - intros w. simpl. eauto.
  - intros w. simpl. eauto.
Qed.

Lemma log_grows_handler_live lib env args fuel delta_end w :
  log_grows w (snd (handler_live lib env args fuel delta_end w)).
Proof.
  destruct log_grows_ok as (H1 & H2 & H3 & H4 & H5 & H6 & H7 & H8 & H9).
  by apply (respects_handler_live lib env args log_grows).
Qed.

Section NoEmptyData.
Variable lib : Lib.
Variable env : Env.
Variable args : Args.

Local Abbreviation keeps' := (keeps no_empty_data).

Lemma keeps_ok :
  (forall w, keeps' w w)
  /\ (forall w1 w2 w3, keeps' w1 w2 -> keeps' w2 w3 -> keeps' w1 w3)
  /\ (forall w a, keeps' w (apply_other w a))
  /\ (forall w k, keeps' w (set_tick k w))
  /\ (forall w r, keeps' w (set_run r w))
  /\ (forall w b, keeps' w (set_hb b w))
  /\ (forall w m ok, wire_samples m <> Some [] -> keeps' w (add_log (ASend m ok) w))
  /\ (forall w, keeps' w (add_log AClose w))
  /\ (forall w, keeps' w (add_log ACancelHeartbeat w)).
Proof.
  unfold keeps, no_empty_data. repeat split; try done; try tauto.
  - intros w [s | | | ts ok]; simpl; try done.
    destruct (w_hb w); simpl; [| done].
    intros H. apply Forall_app. split; [done |]. by repeat constructor.
  - intros w m ok Hm H. simpl. apply Forall_app. split; [done |]. by repeat constructor.
  - intros w H. simpl. apply Forall_app. split; [done |]. by repeat constructor.
  - intros w H. simpl. apply Forall_app. split; [done |]. by repeat constructor.
Qed.

(** C5: no execution of the session handler, of the live sender or of the
    heartbeat loop, in text or in binary mode, ever hands [ws.send] a
    history, delta or live frame without samples. *)
Theorem no_empty_data_frame_sent fuel after_seq w :
  no_empty_data w ->
  no_empty_data (snd (handler lib env args fuel w))
  /\ no_empty_data (snd (_live_loop lib env args fuel after_seq w))
  /\ no_empty_data (snd (_heartbeat_loop lib env args fuel w)).
Proof.
  destruct keeps_ok as (H1 & H2 & H3 & H4 & H5 & H6 & H7 & H8 & H9).
  intros Hw. split; [| split].
  - by apply (respects_handler lib env args keeps').
  - by apply (respects_live_loop lib env args keeps').
  - by apply (respects_heartbeat_loop lib env args keeps').
Qed.
End NoEmptyData.

(** ** The handshake *)

Lemma sent_msgs_app log1 log2 : sent_msgs (log1 ++ log2) = sent_msgs log1 ++ sent_msgs log2.
Proof. apply omap_app. Qed.

Lemma omap_cons_option_list {A B} (f : A -> option B) x (l : list A) :
  omap f (x :: l) = option_list (f x) ++ omap f l.
Proof. cbn [omap list_omap]. by destruct (f x). Qed.

Section Handshake.
Variable lib : Lib.
Variable env : Env.
Variable args : Args.
Variable run0 : FeedRun.

Local Abbreviation in_step' := (in_step env run0).
Local Abbreviation sent' := (sent lib env args).
Local Abbreviation sent_all' := (sent_all lib env args).
Local Abbreviation run_at' := (run_at env run0).

Lemma apply_other_run w a :
  w_run (apply_other w a) = (fun r => producer_step r a) <$> w_run w.
Proof.
  destruct a as [s | | | ts ok]; simpl; try by destruct (w_run w).
  destruct (w_hb w); simpl; by destruct (w_run w).
Qed.

Lemma others_run w acts :
  w_run (foldl apply_other w acts)
  = (fun r => foldl producer_step r acts) <$> w_run w.
Proof.
  revert w. induction acts as [| a acts IH]; intros w; simpl.
  - by destruct (w_run w).
  - rewrite IH, apply_other_run. by destruct (w_run w).
Qed.

Lemma suspend_in_step w :
  in_step' w ->
  in_step' (snd (suspend env w))
  /\ w_tick (snd (suspend env w)) = S (w_tick w)
  /\ w_log (snd (suspend env w)) = w_log w.
Proof.
  intros [Hhb Hrun]. destruct (suspend_no_hb env w Hhb) as [Hhb' Hlog].
  repeat split; try done.
  unfold suspend. simpl. by rewrite others_run, Hrun.
Qed.

Lemma sent_in_step obj w :
  in_step' w ->
  in_step' (sent' obj w)
  /\ w_tick (sent' obj w) = (w_tick w + length (option_list (on_wire lib args obj)))%nat
  /\ sent_msgs (w_log (sent' obj w))
     = sent_msgs (w_log w) ++ option_list (on_wire lib args obj).
Proof.
  intros Hw. unfold sent.
  destruct (on_wire lib args obj) as [m |]; cbn [option_list length].
  - set (w1 := add_log (ASend m (e_send_ok env (w_tick w))) w).
    assert (in_step' w1) as Hw1 by done.
    destruct (suspend_in_step w1 Hw1) as (H1 & H2 & H3).
    split; [done |]. split; [rewrite H2; simpl; lia |].
    rewrite H3. unfold w1. cbn [add_log w_log]. by rewrite sent_msgs_app.
  - rewrite app_nil_r, Nat.add_0_r. done.
Qed.

Lemma sent_all_in_step ty batches w :
  in_step' w ->
  let msgs := omap (fun batch => on_wire lib args (FData ty batch)) batches in
  in_step' (sent_all' ty batches w)
  /\ w_tick (sent_all' ty batches w) = (w_tick w + length msgs)%nat
  /\ sent_msgs (w_log (sent_all' ty batches w)) = sent_msgs (w_log w) ++ msgs.
Proof.
  revert w. induction batches as [| b batches IH]; intros w Hw msgs; subst msgs.
  - unfold sent_all. cbn [foldl omap list_omap length].
    by rewrite app_nil_r, Nat.add_0_r.
  - destruct (sent_in_step (FData ty b) w Hw) as (H1 & H2 & H3).
    destruct (IH _ H1) as (IH1 & IH2 & IH3).
    rewrite omap_cons_option_list, length_app.
    unfold sent_all in *. cbn [foldl]. split; [done |].
    rewrite IH2, IH3, H2, H3. split; [lia |]. by rewrite <- app_assoc.
Qed.

Lemma for_each_send_eq ty batches w :
  for_each batches (fun batch => _send lib env args (FData ty batch)) w
  = (Ret tt, sent_all' ty batches w).
Proof.
  revert w. induction batches as [| b batches IH]; intros w; cbn [for_each]; [done |].
  by rewrite send_then, IH.
Qed.

Lemma get_run_in_step {B} (k : FeedRun -> M B) w :
  in_step' w -> bind get_run k w = k (run_at' (w_tick w)) w.
Proof. intros [_ Hrun]. unfold bind, get_run. by rewrite Hrun. Qed.

(** Sending a range of the ring chunk by chunk. *)
Lemma send_range_eq ty run lo hi w :
  args_history_chunk args <> 0 ->
  bind (lift_option IndexError (get_range run lo hi)) (fun samples =>
    bind (lift_option ValueError (chunked samples (args_history_chunk args)))
      (fun batches =>
         for_each batches (fun batch => _send lib env args (FData ty batch)))) w
  = (Ret tt,
     sent_all' ty
       (default [] (chunked (default [] (get_range run lo hi))
                      (args_history_chunk args))) w).
Proof.
  intros Hn. destruct (get_range_total run lo hi) as [samples ->]. simpl.
  rewrite bind_ret. unfold chunked.
  destruct (Z.eqb_spec (args_history_chunk args) 0); [done |].
  destruct (args_history_chunk args <? 0); simpl; rewrite bind_ret;
    apply for_each_send_eq.
Qed.

(** The handshake, send by send. *)
Lemma handshake_eq from_seq w :
  in_step' w ->
  args_history_chunk args <> 0 ->
  let snap := run_at' (w_tick w) in
  let wm_seq := last_seq snap in
  let mn := min_seq snap in
  let start := Z.max from_seq mn in
  let w1 := sent' (FInitBegin wm_seq mn (ring_capacity snap)) w in
  let hist :=
    if start <=? wm_seq then
      default [] (chunked (default [] (get_range (run_at' (w_tick w1)) start wm_seq))
                    (args_history_chunk args))
    else [] in
  let w2 := sent_all' History hist w1 in
  let later := run_at' (w_tick w2) in
  let delta_end := last_seq later in
  let dlt :=
    if wm_seq <? delta_end then
      default [] (chunked (default [] (get_range later (wm_seq + 1) delta_end))
                    (args_history_chunk args))
    else [] in
  let w3 := sent_all' Delta dlt w2 in
  handler_handshake lib env args from_seq w
  = (Ret delta_end, sent' (FInitComplete delta_end (from_seq <? mn)) w3).
Proof.
  intros Hw Hn snap wm_seq mn start w1 hist w2 later delta_end dlt w3.
  assert (in_step' w1) as Hw1 by apply (sent_in_step _ _ Hw).
  assert (in_step' w2) as Hw2 by apply (sent_all_in_step _ _ _ Hw1).
  unfold handler_handshake. rewrite (get_run_in_step _ _ Hw). cbv beta zeta.
  fold snap. fold wm_seq mn. fold start. rewrite send_then. fold w1.
  match goal with
  | |- bind ?m ?k w1 = _ =>
      assert (m w1 = (Ret tt, w2)) as Hhist
  end.
  { unfold w2, hist. destruct (start <=? wm_seq).
    - rewrite (get_run_in_step _ _ Hw1). by apply send_range_eq.
    - done. }
  rewrite (bind_ret_world _ _ _ _ _ Hhist).
  rewrite (get_run_in_step _ _ Hw2). cbv beta zeta. fold later. fold delta_end.
  match goal with
  | |- bind ?m ?k w2 = _ =>
      assert (m w2 = (Ret tt, w3)) as Hdelta
  end.
  { unfold w3, dlt. destruct (wm_seq <? delta_end).
    - by apply send_range_eq.
    - done. }
  rewrite (bind_ret_world _ _ _ _ _ Hdelta).
  by rewrite send_then.
Qed.

Lemma validated_chunk : validate_and_log_config args = true -> args_history_chunk args <> 0.
Proof.
  unfold validate_and_log_config. intros H.
  apply andb_prop in H as [H _]. apply andb_prop in H as [_ H]. lia.
Qed.

(** The messages of the handshake, in terms of the run at each of its
    suspension points. *)
Lemma handshake_msgs from_seq w t :
  in_step' w ->
  args_history_chunk args <> 0 ->
  w_tick w = t ->
  let snap := run_at' t in
  let wm_seq := last_seq snap in
  let mn := min_seq snap in
  let start := Z.max from_seq mn in
  let hist :=
    if start <=? wm_seq then
      data_msgs lib args History (default [] (get_range (run_at' (S t)) start wm_seq))
    else [] in
  let later := run_at' (S t + length hist) in
  let delta_end := last_seq later in
  let dlt :=
    if wm_seq <? delta_end then
      data_msgs lib args Delta (default [] (get_range later (wm_seq + 1) delta_end))
    else [] in
  exists w4,
    handler_handshake lib env args from_seq w = (Ret delta_end, w4)
    /\ sent_msgs (w_log w4)
       = sent_msgs (w_log w)
         ++ WText (FInitBegin wm_seq mn (ring_capacity snap))
            :: hist ++ dlt ++ [WText (FInitComplete delta_end (from_seq <? mn))].
Proof.
  intros Hw Hn <- snap wm_seq mn start hist later delta_end dlt.
  pose proof (handshake_eq from_seq w Hw Hn) as Heq. cbv zeta in Heq.
  fold snap in Heq. fold wm_seq mn in Heq. fold start in Heq.
  destruct (sent_in_step (FInitBegin wm_seq mn (ring_capacity snap)) w Hw)
    as (Hw1 & Htick1 & Hlog1).
  cbn [on_wire option_list length] in Htick1, Hlog1.
  set (w1 := sent' (FInitBegin wm_seq mn (ring_capacity snap)) w) in *.
  rewrite Htick1, Nat.add_1_r in Heq.
  set (hist_batches := if start <=? wm_seq then _ else []) in Heq.
  assert (omap (fun b => on_wire lib args (FData History b)) hist_batches = hist) as Hhist.
  { unfold hist_batches, hist, data_msgs. by destruct (start <=? wm_seq). }
  destruct (sent_all_in_step History hist_batches w1 Hw1) as (Hw2 & Htick2 & Hlog2).
  rewrite Hhist in Htick2, Hlog2.
  set (w2 := sent_all' History hist_batches w1) in *.
  rewrite Htick2, Htick1, Nat.add_1_r in Heq. fold later in Heq. fold delta_end in Heq.
  set (delta_batches := if wm_seq <? delta_end then _ else []) in Heq.
  assert (omap (fun b => on_wire lib args (FData Delta b)) delta_batches = dlt) as Hdlt.
  { unfold delta_batches, dlt, data_msgs. by destruct (wm_seq <? delta_end). }
  destruct (sent_all_in_step Delta delta_batches w2 Hw2) as (Hw3 & Htick3 & Hlog3).
  rewrite Hdlt in Htick3, Hlog3.
  set (w3 := sent_all' Delta delta_batches w2) in *.
  destruct (sent_in_step (FInitComplete delta_end (from_seq <? mn)) w3 Hw3)
    as (Hw4 & Htick4 & Hlog4).
  cbn [on_wire option_list] in Hlog4.
  eexists. split; [exact Heq |].
  rewrite Hlog4, Hlog3, Hlog2, Hlog1. rewrite <- !app_assoc. done.
Qed.

(** C3: on a valid resume from [from_seq] with a run active, the handler
    reads [wm_seq = last_seq()] and [min_seq()] off the ring at one instant,
    takes [start = max(from_seq, min_seq)] and
    [resume_truncated = (from_seq < min_seq)], sends [init_begin] with
    exactly [wm_seq], [min_seq] and the ring capacity, then the history
    frames of [start, wm_seq], then the delta frames of
    [wm_seq + 1, delta_end] where [delta_end] is [last_seq()] read after the
    history went out, then [init_complete] with exactly [delta_end] and
    [resume_truncated]. *)
Theorem handshake_frames fuel from_seq :
  valid_resume lib env from_seq ->
  validate_and_log_config args = true ->
  let snap := run_at' 1 in
  let wm_seq := last_seq snap in
  let mn := min_seq snap in
  let start := Z.max from_seq mn in
  let resume_truncated := from_seq <? mn in
  let hist :=
    if start <=? wm_seq then
      data_msgs lib args History (default [] (get_range (run_at' 2) start wm_seq))
    else [] in
  let later := run_at' (2 + length hist) in
  let delta_end := last_seq later in
  let dlt :=
    if wm_seq <? delta_end then
      data_msgs lib args Delta (default [] (get_range later (wm_seq + 1) delta_end))
    else [] in
  exists rest,
    sent_msgs (w_log (snd (handler lib env args fuel (new_session (Some run0)))))
    = WText (FInitBegin wm_seq mn (ring_capacity snap))
      :: hist ++ dlt ++ WText (FInitComplete delta_end resume_truncated) :: rest.
Proof.
  intros Hvalid Hcfg snap wm_seq mn start resume_truncated hist later delta_end dlt.
  pose proof (validated_chunk Hcfg) as Hn.
  rewrite (handler_valid_resume lib env args fuel _ from_seq Hvalid) by done.
  assert (in_step' (new_session (Some run0))) as Hw0 by done.
  destruct (suspend_in_step _ Hw0) as (Hw & Htick & Hlog).
  cbn [new_session w_tick w_log] in Htick, Hlog.
  destruct (handshake_msgs from_seq _ 1%nat Hw Hn Htick) as (w4 & Heq & Hmsgs).
  rewrite (bind_ret_world _ _ _ _ _ Heq).
  match goal with
  | |- context [handler_live _ _ _ _ ?d w4] =>
      destruct (log_grows_handler_live lib env args fuel d w4) as [rest Hrest]
  end.
  exists (sent_msgs rest).
  rewrite Hrest, sent_msgs_app, Hmsgs, Hlog. cbn [sent_msgs omap list_omap app].
  rewrite <- !app_assoc. done.
Qed.
End Handshake.

(** ** Send failures *)

Section SendFailures.
Variable lib : Lib.
Variable env : Env.
Variable args : Args.

Local Abbreviation env' := (all_sends_ok env).

Lemma same_ret {A} (a : A) : same_attempts (ret a) (ret a).
Proof. done. Qed.

Lemma same_raise {A} e : same_attempts (@raise A e) (raise e).
Proof. done. Qed.

Lemma same_pending {A} : same_attempts (@pending A) pending.
Proof. done. Qed.

Lemma same_bind {A B} (m m' : M A) (k k' : A -> M B) :
  same_attempts m m' -> (forall a, same_attempts (k a) (k' a)) ->
  same_attempts (bind m k) (bind m' k').
Proof.
  intros Hm Hk w. unfold bind. rewrite Hm.
  destruct (m w) as [[a | e |] w1]; simpl; [apply Hk | done | done].
Qed.

Lemma same_try {A} (m m' : M A) (h h' : Exn -> M A) :
  same_attempts m m' -> (forall e, same_attempts (h e) (h' e)) ->
  same_attempts (try_except m h) (try_except m' h').
Proof.
  intros Hm Hh w. unfold try_except. rewrite Hm.
  destruct (m w) as [[a | e |] w1]; simpl; [done | apply Hh | done].
Qed.

Lemma same_modify f f' :
  (forall w, f' (forget_outcomes w) = forget_outcomes (f w)) ->
  same_attempts (modify f) (modify f').
Proof. intros H w. unfold modify. simpl. by rewrite H. Qed.

Lemma same_lift_sum {A} (r : Exn + A) : same_attempts (lift_sum r) (lift_sum r).
Proof. by destruct r. Qed.

Lemma same_lift_option {A} e (r : option A) :
  same_attempts (lift_option e r) (lift_option e r).
Proof. by destruct r. Qed.

Lemma same_get_run : same_attempts get_run get_run.
Proof. intros w. unfold get_run. simpl. by destruct (w_run w). Qed.

Lemma same_get_tick : same_attempts get_tick get_tick.
Proof. done. Qed.

Lemma same_get_server_run : same_attempts get_server_run get_server_run.
Proof. done. Qed.

Lemma forget_apply_other w a :
  apply_other (forget_outcomes w) (send_succeeds a) = forget_outcomes (apply_other w a).
Proof.
  destruct a as [s | | | ts ok]; try done. simpl.
  destruct (w_hb w); [| done].
  unfold forget_outcomes, add_log. simpl. by rewrite fmap_app.
Qed.

Lemma forget_others w acts :
  foldl apply_other (forget_outcomes w) (send_succeeds <$> acts)
  = forget_outcomes (foldl apply_other w acts).
Proof.
  revert w. induction acts as [| a acts IH]; intros w; [done |].
  rewrite fmap_cons. cbn [foldl]. by rewrite forget_apply_other, IH.
Qed.

Lemma same_suspend : same_attempts (suspend env) (suspend env').
Proof.
  intros w. unfold suspend. cbn [fst snd]. f_equal.
  cbn [all_sends_ok e_others forget_outcomes w_tick].
  change (w_tick w) with (w_tick (forget_outcomes w)) at 1.
  by rewrite forget_others.
Qed.

Lemma forget_sent obj w :
  sent lib env' args obj (forget_outcomes w)
  = forget_outcomes (sent lib env args obj w).
Proof.
  unfold sent. destruct (on_wire lib args obj) as [m |]; [| done].
  pose proof (same_suspend (add_log (ASend m (e_send_ok env (w_tick w))) w)) as H.
  apply (f_equal snd) in H. cbn [snd] in H. rewrite <- H. do 2 f_equal.
  unfold forget_outcomes, add_log. simpl. by rewrite fmap_app.
Qed.

Lemma same_send obj :
  same_attempts (_send lib env args obj) (_send lib env' args obj).
Proof. intros w. by rewrite !_send_eq, forget_sent. Qed.

Lemma same_ws_close : same_attempts (ws_close env) (ws_close env').
Proof.
  apply same_bind; [| intros; apply same_suspend].
  apply same_modify. intros w. unfold forget_outcomes, add_log. simpl.
  by rewrite fmap_app.
Qed.

Lemma same_ws_recv : same_attempts (ws_recv env) (ws_recv env').
Proof.
  apply same_bind; [apply same_suspend |]. intros _.
  cbn [all_sends_ok e_first]. by destruct (e_first env).
Qed.

Lemma same_reject reason :
  same_attempts
    (bind (_send lib env args (FError reason)) (fun _ => ws_close env))
    (bind (_send lib env' args (FError reason)) (fun _ => ws_close env')).
Proof. apply same_bind; [apply same_send | intros; apply same_ws_close]. Qed.

Lemma same_for_each ty batches :
  same_attempts
    (for_each batches (fun batch => _send lib env args (FData ty batch)))
    (for_each batches (fun batch => _send lib env' args (FData ty batch))).
Proof.
  induction batches as [| b batches IH]; cbn [for_each]; [done |].
  apply same_bind; [apply same_send | by intros].
Qed.

Lemma same_wait_for_new_after seq :
  same_attempts (wait_for_new_after env seq) (wait_for_new_after env' seq).
Proof.
  apply same_bind; [apply same_get_run |]. intros run.
  destruct (seq <? last_seq run); [done |].
  apply same_bind; [by apply same_modify |]. intros _.
  apply same_bind; [apply same_get_tick |]. intros k.
  apply same_bind; [apply same_suspend |]. intros _.
  cbn [all_sends_ok e_wait_timeout].
  destruct (e_wait_timeout env k); [done |].
  apply same_bind; [apply same_get_run | done].
Qed.

Lemma same_live_batches fuel to_send idx last_sent series_state :
  same_attempts
    (live_batches lib env args fuel to_send idx last_sent series_state)
    (live_batches lib env' args fuel to_send idx last_sent series_state).
Proof.
  revert idx last_sent series_state.
  induction fuel as [| fuel IH]; intros idx last_sent series_state;
    cbn [live_batches]; destruct (idx <? Z.of_nat (length to_send)); try done.
  destruct (py_slice to_send idx (idx + args_live_batch args)) as [| s batch];
    [done |].
  apply same_bind; [apply same_send |]. intros _.
  apply same_bind; [apply same_lift_option |]. intros ls.
  apply same_bind; [apply same_suspend |]. intros _. apply IH.
Qed.

Lemma same_live_loop_while fuel last_sent series_state :
  same_attempts
    (_live_loop_while lib env args fuel last_sent series_state)
    (_live_loop_while lib env' args fuel last_sent series_state).
Proof.
  revert last_sent series_state.
  induction fuel as [| fuel IH]; intros last_sent series_state;
    cbn [_live_loop_while]; [done |].
  apply same_bind; [apply same_get_run |]. intros run.
  destruct (done run && (final_seq_or (final_seq run) last_sent <=? last_sent));
    [apply same_send |].
  destruct (last_seq run <=? last_sent).
  - apply same_bind; [apply same_wait_for_new_after |]. intros _. apply IH.
  - apply same_bind; [apply same_lift_option |]. intros to_send.
    apply same_bind; [apply same_live_batches |]. intros r. apply IH.
Qed.

Lemma same_live_loop fuel after_seq :
  same_attempts (_live_loop lib env args fuel after_seq)
                (_live_loop lib env' args fuel after_seq).
Proof. apply same_try; [apply same_live_loop_while | done]. Qed.

Lemma same_heartbeat_loop fuel :
  same_attempts (_heartbeat_loop lib env args fuel)
                (_heartbeat_loop lib env' args fuel).
Proof.
  induction fuel as [| fuel IH]; cbn [_heartbeat_loop]; [done |].
  apply same_bind; [apply same_suspend |]. intros _.
  apply same_bind; [apply same_get_tick |]. intros k.
  apply same_bind; [apply same_send | by intros].
Qed.

Lemma same_chunks ty (range : option (list Sample)) :
  same_attempts
    (bind (lift_option IndexError range) (fun samples =>
       bind (lift_option ValueError (chunked samples (args_history_chunk args)))
         (fun batches =>
            for_each batches (fun batch => _send lib env args (FData ty batch)))))
    (bind (lift_option IndexError range) (fun samples =>
       bind (lift_option ValueError (chunked samples (args_history_chunk args)))
         (fun batches =>
            for_each batches (fun batch => _send lib env' args (FData ty batch))))).
Proof.
  apply same_bind; [apply same_lift_option |]. intros samples.
  apply same_bind; [apply same_lift_option |]. intros batches.
  apply same_for_each.
Qed.

Lemma same_handshake from_seq :
  same_attempts (handler_handshake lib env args from_seq)
                (handler_handshake lib env' args from_seq).
Proof.
  unfold handler_handshake.
  apply same_bind; [apply same_get_run |]. intros run.
  apply same_bind; [apply same_send |]. intros _.
  apply same_bind.
  { destruct (Z.max from_seq (min_seq run) <=? last_seq run); [| done].
    apply same_bind; [apply same_get_run |]. intros run'. apply same_chunks. }
  intros _.
  apply same_bind; [apply same_get_run |]. intros run'.
  apply same_bind.
  { destruct (last_seq run <? last_seq run'); [| done]. apply same_chunks. }
  intros _.
  apply same_bind; [apply same_send | done].
Qed.

Lemma same_handler_live fuel delta_end :
  same_attempts (handler_live lib env args fuel delta_end)
                (handler_live lib env' args fuel delta_end).
Proof.
  apply same_bind; [by apply same_modify |]. intros _.
  apply same_bind; [apply same_live_loop |]. intros _.
  apply same_bind.
  { apply same_modify. intros w. unfold forget_outcomes, set_hb, add_log. simpl.
    by rewrite fmap_app. }
  intros _. apply same_try; [apply same_ws_close | done].
Qed.

Lemma same_handler fuel :
  same_attempts (handler lib env args fuel) (handler lib env' args fuel).
Proof.
  unfold handler. apply same_bind.
  { apply same_try.
    - apply same_bind; [apply same_ws_recv | done].
    - by intros []. }
  intros [raw |]; [| apply same_reject].
  destruct (json_loads lib raw) as [msg |]; [| apply same_reject].
  destruct (negb (is_resume msg)); [apply same_reject |].
  apply same_bind; [apply same_lift_sum |]. intros from_seq.
  apply same_bind; [apply same_get_server_run |].
  intros [run |]; [| apply same_reject].
  apply same_bind; [apply same_handshake |]. intros delta_end.
  apply same_handler_live.
Qed.

(** When the wait for the two tasks is over, the heartbeat task is
    cancelled and the transport closed. *)
Lemma handler_live_returns fuel delta_end w :
  fst (handler_live lib env args fuel delta_end w) = Ret tt ->
  w_hb (snd (handler_live lib env args fuel delta_end w)) = false
  /\ exists pre,
      w_log (snd (handler_live lib env args fuel delta_end w))
      = pre ++ [ACancelHeartbeat; AClose].
Proof.
  unfold handler_live. rewrite (bind_ret_world _ _ w tt (set_hb true w)) by done.
  destruct (_live_loop lib env args fuel delta_end (set_hb true w))
    as [[[] | e |] w2] eqn:Hlive;
    [| unfold bind; by rewrite Hlive | unfold bind; by rewrite Hlive].
  rewrite (bind_ret_world _ _ _ _ _ Hlive). intros _.
  rewrite (bind_ret_world _ _ w2 tt (set_hb false (add_log ACancelHeartbeat w2))) by done.
  unfold try_except. rewrite ws_close_eq. cbn [snd].
  destruct (suspend_no_hb env
              (add_log AClose (set_hb false (add_log ACancelHeartbeat w2))) eq_refl)
    as [Hhb Hlog].
  split; [done |]. exists (w_log w2). rewrite Hlog. simpl.
  by rewrite <- app_assoc.
Qed.

(** How far the defect of [_send] reaches: a [ws.send] that raises never
    gets out of [_send], so the handler with its live sender attempts the
    same frames in the same order, with the same outcome, as over a
    transport on which every send succeeds; the cancellation of the
    heartbeat task and the close come only when the live sender has
    finished with the run. *)
Theorem send_failure_is_swallowed fuel run :
  let res := handler lib env args fuel (new_session run) in
  (forall obj w, fst (_send lib env args obj w) = Ret tt)
  /\ handler lib env' args fuel (new_session run)
     = (fst res, forget_outcomes (snd res))
  /\ (forall from_seq,
        valid_resume lib env from_seq -> is_Some run -> fst res = Ret tt ->
        w_hb (snd res) = false
        /\ exists pre, w_log (snd res) = pre ++ [ACancelHeartbeat; AClose]).
Proof.
  intros res. split; [| split].
  - intros obj w. by rewrite _send_eq.
  - apply (same_handler fuel (new_session run)).
  - intros from_seq Hvalid Hrun. unfold res.
    rewrite (handler_valid_resume lib env args fuel _ from_seq Hvalid) by done.
    destruct (handler_handshake lib env args from_seq
                (snd (suspend env (new_session run)))) as [[d | e |] w4] eqn:Hhs;
      [| unfold bind; by rewrite Hhs | unfold bind; by rewrite Hhs].
    rewrite (bind_ret_world _ _ _ _ _ Hhs). apply handler_live_returns.
Qed.
End SendFailures.

(** C6 (the code misses the termination): on a connection where every
    [ws.send] raises, after a valid resume from 3 the [init_begin] of the
    handler fails and the session goes on all the same. It attempts the
    history, the delta, [init_complete] and [test_done], each of them
    failing in turn, and it cancels the heartbeat task and closes only when
    the live sender is through with the run. The way out that the claim
    asks for is in the code ([_live_loop] returns on any exception and the
    handler closes as soon as one of its two tasks has finished), but
    [_send] catches the exception before it gets there. *)
Lemma send_failure_does_not_end_session :
  let res := handler demo_lib (demo_env (RecvMsg "resume from 3") false)
               (demo_args "text") 3 (new_session (Some demo_run)) in
  fst res = Ret tt
  /\ w_log (snd res)
     = [ASend (WText (FInitBegin 3 2 2)) false;
        ASend (WText (FData History [stamped 30 3])) false;
        ASend (WText (FData Delta [stamped 40 4])) false;
        ASend (WText (FInitComplete 4 false)) false;
        ASend (WText (FTestDone (Some 4))) false;
        ACancelHeartbeat; AClose]
  /\ ~ stops_after_failure (w_log (snd res)).
Proof.
  intros res. split; [reflexivity |]. split; [reflexivity |].
  intros H. set (log := w_log _) in H. vm_compute in log.
  specialize (H [] _ _ eq_refl). vm_compute in H. discriminate.
Qed.

(** ** Loops that end, and the one that does not *)

Section Loops.
Variable lib : Lib.
Variable env : Env.
Variable args : Args.

(** The budget that [_live_loop_while] hands to the batch loop always
    suffices: every turn sends at least one sample. *)
Lemma live_batches_returns fuel to_send idx last_sent series_state w :
  0 <= idx ->
  Z.of_nat (length to_send) - idx < Z.of_nat fuel ->
  fst (live_batches lib env args fuel to_send idx last_sent series_state w) <> Pending.
Proof.
  revert idx last_sent series_state w.
  induction fuel as [| fuel IH]; intros idx last_sent series_state w Hidx Hfuel;
    cbn [live_batches]; destruct (Z.ltb_spec idx (Z.of_nat (length to_send)));
    try done; try lia.
  destruct (py_slice to_send idx (idx + args_live_batch args)) as [| s batch] eqn:Hb;
    [done |].
  rewrite send_then.
  destruct (last (s :: batch) ≫= seq) as [ls |]; [| done].
  cbn [lift_option]. rewrite bind_ret.
  unfold bind at 1. cbn [suspend fst snd].
  apply IH; [lia |]. rewrite length_cons. lia.
Qed.

(** The heartbeat loop never returns and never raises. *)
Lemma heartbeat_loop_never_returns fuel w :
  fst (_heartbeat_loop lib env args fuel w) = Pending.
Proof.
  revert w. induction fuel as [| fuel IH]; intros w; cbn [_heartbeat_loop]; [done |].
  unfold bind at 1. cbn [suspend fst snd].
  unfold bind at 1. cbn [get_tick].
  rewrite send_then. apply IH.
Qed.

(** Every state the session finds the run in is one a run can reach. *)
Lemma run_at_reachable run0 k : reachable run0 -> reachable (run_at env run0 k).
Proof.
  intros H0. induction k as [| k IH]; cbn [run_at]; [done |].
  generalize (e_others env k). intros acts.
  revert IH. generalize (run_at env run0 k). intros r Hr. revert r Hr.
  induction acts as [| a acts IHa]; intros r Hr; cbn [foldl]; [done |].
  apply IHa. destruct a; simpl; try done; by constructor.
Qed.
End Loops.

Lemma range_step_concat {A} (l : list A) n fuel i :
  0 < n -> 0 <= i -> Z.of_nat (length l) - i <= Z.of_nat fuel ->
  concat ((fun i => py_slice l i (i + n)) <$> range_step fuel i (Z.of_nat (length l)) n)
  = drop (Z.to_nat i) l.
Proof.
  intros Hn. revert i. induction fuel as [| fuel IH]; intros i Hi Hfuel; cbn [range_step].
  - by rewrite drop_ge by lia.
  - destruct (Z.ltb_spec i (Z.of_nat (length l))) as [Hlt | Hge];
      [| by rewrite drop_ge by lia].
    rewrite fmap_cons. cbn [concat]. rewrite IH by lia.
    unfold py_slice, py_slice_bound.
    replace (i <? 0) with false by lia. replace (i + n <? 0) with false by lia.
    rewrite (Z.min_l i) by lia.
    destruct (Z.le_gt_cases (i + n) (Z.of_nat (length l))).
    + rewrite Z.min_l by lia.
      replace (Z.to_nat (i + n)) with (Z.to_nat i + Z.to_nat (i + n - i))%nat by lia.
      rewrite <- drop_drop. apply take_drop.
    + rewrite Z.min_r by lia.
      rewrite (drop_ge l (Z.to_nat (i + n))) by lia.
      rewrite app_nil_r. apply take_ge. rewrite length_drop. lia.
Qed.

(** For a positive chunk size the chunks are the list, cut into pieces of at
    most that size. *)
Lemma chunked_concat {A} (l : list A) n batches :
  0 < n -> chunked l n = Some batches ->
  concat batches = l /\ Forall (fun b => Z.of_nat (length b) <= n) batches.
Proof.
  intros Hn. unfold chunked.
  replace (n =? 0) with false by lia. replace (n <? 0) with false by lia.
  intros [= <-]. split.
  - by rewrite range_step_concat by lia.
  - apply Forall_fmap, Forall_forall. intros i Hi. simpl.
    apply range_step_bounds in Hi; [| lia | lia].
    rewrite py_slice_length by lia. unfold py_slice_bound.
    replace (i + n <? 0) with false by lia. lia.
Qed.

(** In text mode, with a validated chunk size, the data frames of a range
    carry exactly its samples, in order. *)
Lemma data_msgs_text lib args ty samples :
  String.eqb (args_ws_format args) "binary" = false ->
  0 < args_history_chunk args ->
  concat (omap wire_samples (data_msgs lib args ty samples)) = samples.
Proof.
  intros Htext Hn. unfold data_msgs.
  destruct (chunked samples (args_history_chunk args)) as [batches |] eqn:Hc.
  - destruct (chunked_concat _ _ _ Hn Hc) as [Hcat _]. rewrite <- Hcat.
    change (default [] (Some batches)) with batches.
    assert (forall b, on_wire lib args (FData ty b) = Some (WText (FData ty b))) as Hf
      by (intros b; cbn [on_wire]; by rewrite Htext).
    clear Hc Hcat. induction batches as [| b batches IH]; [done |].
    rewrite omap_cons_option_list, Hf, omap_app, concat_app, IH.
    simpl. by rewrite app_nil_r.
  - unfold chunked in Hc. replace (args_history_chunk args =? 0) with false in Hc by lia.
    by destruct (args_history_chunk args <? 0).
Qed.

(** ** The theorems at work on the scenario *)

Lemma handshake_frames_witness :
  exists rest,
    sent_msgs (w_log (snd (handler demo_lib (demo_env (RecvMsg "resume from 3") true)
                             (demo_args "text") 3 (new_session (Some demo_run)))))
    = WText (FInitBegin 3 2 2)
      :: [WText (FData History [stamped 30 3])]
      ++ [WText (FData Delta [stamped 40 4])]
      ++ WText (FInitComplete 4 false) :: rest.
Proof.
  refine (handshake_frames demo_lib (demo_env (RecvMsg "resume from 3") true)
            (demo_args "text") demo_run 3 3 _ eq_refl).
  exists "resume from 3", (PDict [("type", PStr "resume"); ("from_seq", PInt 3)]).
  repeat split; reflexivity.
Defined.

Lemma no_empty_data_frame_sent_witness :
  no_empty_data
    (snd (handler demo_lib (demo_env (RecvMsg "resume from 3") true)
            (demo_args "binary") 3 (new_session (Some demo_run)))).
Proof.
  refine (proj1 (no_empty_data_frame_sent demo_lib _ _ 3 0 (new_session (Some demo_run)) _)).
  constructor.
Defined.

Lemma resume_from_seq_defaults_to_1_witness :
  handler demo_lib (demo_env (RecvMsg "resume") true) (demo_args "text") 3
    (new_session (Some demo_run))
  = handler demo_lib (with_first (RecvMsg "resume from 1") (demo_env (RecvMsg "resume") true))
      (demo_args "text") 3 (new_session (Some demo_run)).
Proof.
  refine (proj1 (proj2 (resume_from_seq_defaults_to_1 demo_lib
            (demo_env (RecvMsg "resume") true) (demo_args "text") 3
            (Some demo_run) "resume" [("type", PStr "resume")] "resume from 1"
            (PDict [("type", PStr "resume"); ("from_seq", PInt 1)])
            eq_refl eq_refl eq_refl (or_introl eq_refl) eq_refl eq_refl eq_refl))).
Defined.

Lemma live_loop_done_without_final_seq_witness :
  let env := demo_env RecvTimeout true in
  let w := new_session (Some stalled_run) in
  last_seq stalled_run = 3
  /\ _live_loop demo_lib env (demo_args "text") 1 0 w
     = (Ret tt, snd (suspend env (add_log (ASend (WText (FTestDone None)) true) w))).
Proof.
  intros env w. split; [reflexivity |].
  exact (proj2 (live_loop_done_without_final_seq demo_lib env (demo_args "text") 0 0 ∅
                  w stalled_run eq_refl eq_refl (or_introl eq_refl))).
Defined.

Lemma send_failure_is_swallowed_witness :
  let res := handler demo_lib (demo_env (RecvMsg "resume from 3") false)
               (demo_args "text") 3 (new_session (Some demo_run)) in
  w_hb (snd res) = false
  /\ exists pre, w_log (snd res) = pre ++ [ACancelHeartbeat; AClose].
Proof.
  refine (proj2 (proj2 (send_failure_is_swallowed demo_lib
            (demo_env (RecvMsg "resume from 3") false) (demo_args "text") 3
            (Some demo_run))) 3 _ _ eq_refl).
  - exists "resume from 3", (PDict [("type", PStr "resume"); ("from_seq", PInt 3)]).
    repeat split; reflexivity.
  - by exists demo_run.
Defined.

Lemma playback_drains_witness :
  let penv := {| pb_credit := fun k => Some (Z.of_nat k mod 2);
                 pb_waiter_clears := fun _ => true |} in
  let samples := [tick 10; tick 20; tick 30] in
  playback_from_memory penv 6 fresh_run samples (FFinite 50 1)
  = Ret (mark_done (fst (append_all fresh_run samples)))
  /\ ring (mark_done (fst (append_all fresh_run samples)))
     = [stamped 20 2; stamped 30 3].
Proof.
  intros penv samples.
  destruct (playback_drains penv 6 fresh_run samples (FFinite 50 1))
    as (_ & _ & _ & Hpaced & _ & _ & _ & _ & Hring & _).
  split; [exact (Hpaced eq_refl eq_refl) |].
  rewrite (Hring 2%nat eq_refl); [reflexivity | simpl; lia].
Defined.

(** C7 (the code misses a case): with no active run and a first frame that
    is an object of type ["resume"] whose [from_seq] is the list [[1]],
    [int(...)] raises [TypeError] out of the handler before the run is
    looked at; no [error] frame is sent and the handler does not close. The
    same happens when a run is active. *)
Lemma handler_unconvertible_from_seq_raises :
  forall run,
    let res := handler demo_lib (demo_env (RecvMsg "resume from [1]") true)
                 (demo_args "text") 3 (new_session run) in
    fst res = Raise TypeError /\ w_log (snd res) = [].
Proof.
  intros run res. unfold res.
  rewrite (handler_from_seq_raises demo_lib
             (demo_env (RecvMsg "resume from [1]") true) (demo_args "text") 3
             (new_session run) "resume from [1]"
             (PDict [("type", PStr "resume"); ("from_seq", PList [PInt 1])])
             TypeError eq_refl eq_refl eq_refl eq_refl).
  split; [done |]. cbn [snd].
  exact (proj2 (suspend_no_hb (demo_env (RecvMsg "resume from [1]") true)
                  (new_session run) eq_refl)).
Qed.

(** * Further properties of the code *)

(** ** The ring, beyond the claims *)

Lemma deque_append_length {A} (maxlen : Z) (d : list A) (x : A) :
  0 <= maxlen -> Z.of_nat (length d) <= maxlen ->
  Z.of_nat (length (deque_append maxlen d x)) <= maxlen.
Proof.
  intros H0 Hlen. unfold deque_append.
  destruct (Z.ltb_spec maxlen (Z.of_nat (length (d ++ [x])))) as [Hlt | Hge]; [| done].
  rewrite length_app in Hlt. simpl in Hlt.
  destruct d as [| y d]; simpl in *; [lia |]. rewrite length_app. simpl. lia.
Qed.

Lemma deque_append_length_le {A} (maxlen : Z) (d : list A) (x : A) :
  (length (deque_append maxlen d x) <= S (length d))%nat.
Proof.
  unfold deque_append. destruct (_ <? _).
  - destruct d; simpl; [lia |]. rewrite length_app. simpl. lia.
  - rewrite length_app. simpl. lia.
Qed.

Lemma reachable_bounds r :
  reachable r ->
  0 <= ring_capacity r
  /\ Z.of_nat (length (ring r)) <= ring_capacity r
  /\ Z.of_nat (length (ring r)) < next_seq r.
Proof.
  induction 1 as [cap lb r Hinit | r s _ IH | r _ IH | r _ IH]; try done.
  - destruct (init_inv _ _ _ Hinit) as (Hcap & Hring & Hc & Hnext & _).
    rewrite Hring, Hc, Hnext. simpl. lia.
  - destruct IH as (H0 & Hlen & Hnext).
    rewrite append_capacity, append_ring, append_next_seq.
    pose proof (deque_append_length (ring_capacity r) (ring r) (snd (_append r s)) H0 Hlen).
    pose proof (deque_append_length_le (ring_capacity r) (ring r) (snd (_append r s))).
    split; [done |]. split; [done |]. lia.
Qed.

Lemma ring_ok_members r s :
  ring_ok r -> s ∈ ring r ->
  exists q, seq s = Some q /\ min_seq r <= q <= last_seq r.
Proof.
  intros Hok Hs. apply (list_elem_of_fmap_2 seq) in Hs.
  rewrite Hok in Hs. apply list_elem_of_fmap in Hs as (q & Hq & Hin).
  exists q. split; [done |].
  unfold py_range in Hin. apply elem_of_seqZ in Hin. unfold last_seq. lia.
Qed.

(** X1: in every state a run can reach, the ring holds at most
    [ring_capacity] samples, every retained sample carries a [seq], the
    retained [seq] values are [min_seq(), ..., last_seq()] without a hole, and
    [1 <= min_seq() <= last_seq() + 1]. *)
Theorem ring_numbered_within_capacity run :
  reachable run ->
  Z.of_nat (length (ring run)) <= ring_capacity run
  /\ seq <$> ring run = Some <$> py_range (min_seq run) (last_seq run + 1)
  /\ Forall (fun s => exists q, seq s = Some q /\ min_seq run <= q <= last_seq run)
            (ring run)
  /\ 1 <= min_seq run <= last_seq run + 1.
Proof.
  intros Hr. destruct (reachable_bounds run Hr) as (H0 & Hlen & Hnext).
  pose proof (reachable_ring_ok run Hr) as Hok.
  split; [done |]. split.
  - unfold last_seq. replace (next_seq run - 1 + 1) with (next_seq run) by lia. exact Hok.
  - split.
    + apply Forall_forall. intros s Hs. by apply ring_ok_members.
    + rewrite min_seq_eq. unfold last_seq. lia.
Qed.

Lemma ring_numbered_within_capacity_witness :
  Z.of_nat (length (ring demo_run)) <= 2 /\ 1 <= min_seq demo_run <= last_seq demo_run + 1.
Proof.
  assert (reachable demo_run) as H
    by (apply append_all_reachable; by apply (reach_init 2 2)).
  destruct (ring_numbered_within_capacity demo_run H) as (H1 & _ & _ & H2).
  split; [exact H1 | exact H2].
Defined.

(** X2: [get_range] never raises, whatever the ring holds and whatever the
    bounds are (negative, reversed, far outside the ring), and it returns at
    most [end_seq - start_seq + 1] samples and at most what the ring holds. *)
Theorem get_range_never_raises run start_seq end_seq :
  exists out,
    get_range run start_seq end_seq = Some out
    /\ Z.of_nat (length out) <= Z.max 0 (end_seq - start_seq + 1)
    /\ (length out <= length (ring run))%nat.
Proof.
  unfold get_range. pose proof (min_seq_eq run) as Hmin.
  assert (last_seq run = next_seq run - 1) as Hlast by done.
  destruct (Z.ltb_spec end_seq start_seq);
    [exists []; simpl; split; [done | lia] |].
  destruct (Z.ltb_spec (Z.min end_seq (last_seq run)) (Z.max start_seq (min_seq run)));
    [exists []; simpl; split; [done | lia] |].
  set (a := Z.to_nat (Z.max start_seq (min_seq run) - min_seq run)).
  set (n := Z.to_nat (Z.min end_seq (last_seq run) - Z.max start_seq (min_seq run) + 1)).
  replace (Z.max start_seq (min_seq run) - min_seq run) with (Z.of_nat a) by lia.
  replace (Z.min end_seq (last_seq run) - min_seq run + 1) with (Z.of_nat (a + n)) by lia.
  rewrite mapM_getitem_range by lia.
  eexists. split; [done |]. rewrite length_take, length_drop. lia.
Qed.

(** On a well-numbered ring the clamping of the bounds changes nothing:
    [get_range] is the filter on the bounds as given. *)
Lemma get_range_filter r lo hi :
  ring_ok r -> get_range r lo hi = Some (List.filter (seq_in lo hi) (ring r)).
Proof.
  intros Hok. destruct (get_range_ring_ok r lo hi Hok) as [-> _]. f_equal.
  apply List.filter_ext_in. intros s Hs%list_elem_of_In.
  destruct (ring_ok_members r s Hok Hs) as (q & Hq & Hb).
  unfold seq_in. rewrite Hq.
  destruct (Z.leb_spec lo q), (Z.leb_spec q hi),
    (Z.leb_spec (Z.max lo (min_seq r)) q), (Z.leb_spec q (Z.min hi (last_seq r)));
    simpl; (done || lia).
Qed.

Lemma filter_before (l : list Sample) base lo hi :
  seq <$> l = Some <$> py_range base (base + Z.of_nat (length l)) ->
  hi < base -> List.filter (seq_in lo hi) l = [].
Proof.
  revert base. induction l as [| x l IH]; intros base Hl Hhi; [done |].
  apply consecutive_cons in Hl as [Hx Hl]. simpl. unfold seq_in at 1. rewrite Hx.
  replace (base <=? hi) with false by lia. rewrite andb_false_r.
  apply (IH (base + 1)); (done || lia).
Qed.

Lemma filter_adjacent (l : list Sample) base lo mid hi :
  seq <$> l = Some <$> py_range base (base + Z.of_nat (length l)) ->
  lo <= mid + 1 -> mid <= hi ->
  List.filter (seq_in lo mid) l ++ List.filter (seq_in (mid + 1) hi) l
  = List.filter (seq_in lo hi) l.
Proof.
  revert base. induction l as [| x l IH]; intros base Hl Hlo Hhi; [done |].
  apply consecutive_cons in Hl as [Hx Hl]. cbn [List.filter].
  assert (forall a b, seq_in a b x = (a <=? base) && (base <=? b)) as Hin
    by (intros a b; unfold seq_in; by rewrite Hx).
  rewrite !Hin. specialize (IH (base + 1) Hl Hlo Hhi).
  destruct (Z.leb_spec lo base), (Z.leb_spec base mid), (Z.leb_spec (mid + 1) base),
    (Z.leb_spec base hi); cbn [andb app]; try lia; try (by rewrite <- IH).
  rewrite <- IH. by rewrite (filter_before l (base + 1) lo mid) by (done || lia).
Qed.

(** X3: in every state a run can reach, two adjacent ranges read back to
    back are the range that spans them: [get_range(lo, mid)] followed by
    [get_range(mid + 1, hi)] is [get_range(lo, hi)]. *)
Theorem get_range_adjacent run lo mid hi :
  reachable run -> lo <= mid + 1 -> mid <= hi ->
  exists a b,
    get_range run lo mid = Some a /\ get_range run (mid + 1) hi = Some b
    /\ get_range run lo hi = Some (a ++ b).
Proof.
  intros Hr Hlo Hhi. pose proof (reachable_ring_ok run Hr) as Hok.
  rewrite !get_range_filter by done.
  eexists _, _. split; [done |]. split; [done |]. f_equal. symmetry.
  apply (filter_adjacent _ (min_seq run)); try done.
  by apply ring_ok_length.
Qed.

Lemma get_range_adjacent_witness :
  exists a b,
    get_range demo_run 0 2 = Some a /\ get_range demo_run 3 9 = Some b
    /\ get_range demo_run 0 9 = Some (a ++ b).
Proof.
  apply (get_range_adjacent demo_run 0 2 9); [| lia | lia].
  apply append_all_reachable. by apply (reach_init 2 2).
Defined.

Lemma filter_none {A} (f : A -> bool) (l : list A) :
  (forall x, x ∈ l -> f x = false) -> List.filter f l = [].
Proof.
  induction l as [| x l IH]; intros H; [done |]. simpl.
  rewrite (H x) by apply list_elem_of_here.
  apply IH. intros y Hy. apply H. by apply list_elem_of_further.
Qed.

Lemma deque_append_last {A} (maxlen : Z) (d : list A) (x : A) :
  1 <= maxlen ->
  exists d', deque_append maxlen d x = d' ++ [x] /\ (forall y, y ∈ d' -> y ∈ d).
Proof.
  intros Hcap. unfold deque_append. destruct (Z.ltb_spec maxlen (Z.of_nat (length (d ++ [x])))).
  - destruct d as [| y d]; [simpl in *; lia |].
    exists d. split; [done |]. intros z Hz. by apply list_elem_of_further.
  - by exists d.
Qed.

(** X4: a sample appended to a run of capacity at least 1 can be read back
    at once: it is out with the old [next_seq], [last_seq()] is that
    number afterwards, and [get_range(last_seq(), last_seq())] returns
    exactly the out sample. *)
Theorem append_then_get_range run sample :
  reachable run -> 1 <= ring_capacity run ->
  let run' := fst (_append run sample) in
  let out := snd (_append run sample) in
  seq out = Some (next_seq run)
  /\ last_seq run' = next_seq run
  /\ get_range run' (last_seq run') (last_seq run') = Some [out].
Proof.
  intros Hr Hcap run' out.
  assert (last_seq run' = next_seq run) as Hlast
    by (unfold last_seq, run'; rewrite append_next_seq; lia).
  pose proof (append_seq run sample) as Hseq. fold out in Hseq.
  split; [done |]. split; [done |]. rewrite Hlast.
  rewrite get_range_filter by (apply reachable_ring_ok; by apply reach_append).
  unfold run'. rewrite append_ring. fold out.
  destruct (deque_append_last (ring_capacity run) (ring run) out Hcap)
    as (d' & -> & Hd').
  rewrite List.filter_app. rewrite filter_none.
  - simpl. unfold seq_in. rewrite Hseq.
    by replace (next_seq run <=? next_seq run) with true by lia.
  - intros y Hy%Hd'.
    destruct (ring_ok_members run y (reachable_ring_ok run Hr) Hy) as (q & Hq & Hb).
    unfold seq_in. rewrite Hq. unfold last_seq in Hb.
    replace (next_seq run <=? q) with false by lia. done.
Qed.

Lemma append_then_get_range_witness :
  get_range (fst (_append demo_run (tick 40))) 4 4
  = Some [snd (_append demo_run (tick 40))].
Proof.
  assert (reachable demo_run) as H
    by (apply append_all_reachable; by apply (reach_init 2 2)).
  destruct (append_then_get_range demo_run (tick 40) H) as (_ & _ & H3);
    [vm_compute; discriminate |].
  exact H3.
Defined.

Lemma append_counter r s sid :
  _series_next_seq (fst (_append r s)) !! sid
  = if negb (String.eqb sid "") && has_sid sid s
    then Some (default 1 (_series_next_seq r !! sid) + 1)
    else _series_next_seq r !! sid.
Proof.
  destruct (String.eqb_spec sid "") as [-> | Hne]; simpl.
  - unfold _append. destruct (sid_truthy (series_id s)) as [sid' |] eqn:Ht; [| done].
    simpl. apply lookup_insert_ne. unfold sid_truthy in Ht.
    destruct (series_id s) as [x |]; [| done].
    destruct (String.eqb_spec x ""); [done |]. by injection Ht as <-.
  - destruct (has_sid sid s) eqn:Hs.
    + unfold _append. rewrite (has_sid_true sid s Hne Hs). simpl.
      by rewrite lookup_insert_eq.
    + by apply append_series_other.
Qed.

Lemma append_all_counter r xs sid :
  let n := length (List.filter (has_sid sid) xs) in
  _series_next_seq (fst (append_all r xs)) !! sid
  = if String.eqb sid "" || (Z.of_nat n =? 0)
    then _series_next_seq r !! sid
    else Some (default 1 (_series_next_seq r !! sid) + Z.of_nat n).
Proof.
  revert r. induction xs as [| s rest IH]; intros r.
  - simpl. by rewrite orb_true_r.
  - cbn [append_all List.filter].
    pose proof (append_counter r s sid) as Hc.
    destruct (_append r s) as [r' s']. specialize (IH r').
    destruct (append_all r' rest) as [r'' out]. simpl in *.
    rewrite IH, Hc.
    destruct (String.eqb sid ""); simpl; [done |].
    destruct (has_sid sid s); simpl.
    + destruct (Z.eqb_spec (Z.of_nat (length (List.filter (has_sid sid) rest))) 0);
        f_equal; lia.
    + done.
Qed.

(** X5: the per-series counters of a run. After any samples have been
    appended to a new run, [_series_next_seq] has an entry for a series id
    exactly when the id is a non-empty string that occurs among the samples,
    and the entry is one more than the number of its samples; an empty
    [series_id] never gets a counter. *)
Theorem series_counters cap lb run0 samples sid :
  FeedRun_init cap lb = Some run0 ->
  let n := length (List.filter (has_sid sid) samples) in
  _series_next_seq (fst (append_all run0 samples)) !! sid
  = if String.eqb sid "" || (Z.of_nat n =? 0) then None else Some (1 + Z.of_nat n).
Proof.
  intros Hinit n.
  destruct (init_inv _ _ _ Hinit) as (_ & _ & _ & _ & Hmap & _).
  unfold n. rewrite append_all_counter, Hmap, lookup_empty. done.
Qed.

Lemma series_counters_witness :
  _series_next_seq (fst (append_all fresh_run [bar "a" 1; bar "" 2; bar "a" 3])) !! "a"
  = Some 3
  /\ _series_next_seq (fst (append_all fresh_run [bar "a" 1; bar "" 2; bar "a" 3])) !! ""
     = None.
Proof.
  split.
  - by apply (series_counters 2 2 fresh_run [bar "a" 1; bar "" 2; bar "a" 3] "a").
  - by apply (series_counters 2 2 fresh_run [bar "a" 1; bar "" 2; bar "a" 3] "").
Defined.

(** ** [chunked] *)

Lemma range_step_lookup fuel i stop step (k : nat) :
  0 < step -> stop - i <= Z.of_nat fuel ->
  range_step fuel i stop step !! k
  = if i + Z.of_nat k * step <? stop then Some (i + Z.of_nat k * step) else None.
Proof.
  intros Hstep. revert i k. induction fuel as [| fuel IH]; intros i k Hfuel; cbn [range_step].
  - destruct (Z.ltb_spec (i + Z.of_nat k * step) stop); [nia | done].
  - destruct (Z.ltb_spec i stop) as [Hlt | Hge].
    + destruct k as [| k]; simpl.
      * replace (i + Z.of_nat 0 * step) with i by lia.
        by replace (i <? stop) with true by lia.
      * rewrite IH by lia.
        by replace (i + step + Z.of_nat k * step)
          with (i + Z.of_nat (S k) * step) by lia.
    + destruct (Z.ltb_spec (i + Z.of_nat k * step) stop); [nia | done].
Qed.

(** X6: for a positive size [n], [chunked(l, n)] yields exactly the slices
    [l[0:n], l[n:2n], ...]: chunk number [k] exists when [k * n < len(l)]
    and is then the [n] elements from position [k * n] on (fewer at the end
    of the list), so the chunks put end to end give back [l]. *)
Theorem chunked_slices {A} (l : list A) n :
  0 < n ->
  exists batches,
    chunked l n = Some batches
    /\ (forall k : nat,
          batches !! k
          = if Z.of_nat k * n <? Z.of_nat (length l)
            then Some (take (Z.to_nat n) (drop (k * Z.to_nat n) l))
            else None)
    /\ concat batches = l.
Proof.
  intros Hn. unfold chunked.
  replace (n =? 0) with false by lia. replace (n <? 0) with false by lia.
  eexists. split; [done |]. split.
  - intros k. rewrite list_lookup_fmap, range_step_lookup by lia.
    rewrite Z.add_0_l.
    destruct (Z.ltb_spec (Z.of_nat k * n) (Z.of_nat (length l))) as [Hlt | Hge]; [| done].
    simpl. f_equal. unfold py_slice, py_slice_bound.
    replace (Z.of_nat k * n <? 0) with false by lia.
    replace (Z.of_nat k * n + n <? 0) with false by lia.
    rewrite (Z.min_l (Z.of_nat k * n)) by lia.
    replace (Z.to_nat (Z.of_nat k * n)) with (k * Z.to_nat n)%nat by lia.
    destruct (Z.le_gt_cases (Z.of_nat k * n + n) (Z.of_nat (length l))).
    + rewrite Z.min_l by lia. f_equal. lia.
    + rewrite Z.min_r by lia.
      rewrite !take_ge; [done | rewrite length_drop; lia | rewrite length_drop; lia].
  - by rewrite range_step_concat by lia.
Qed.

Lemma chunked_slices_witness :
  exists batches,
    chunked [1; 2; 3; 4; 5] 2 = Some batches
    /\ (forall k : nat,
          batches !! k
          = if Z.of_nat k * 2 <? Z.of_nat (length [1; 2; 3; 4; 5])
            then Some (take (Z.to_nat 2) (drop (k * Z.to_nat 2) [1; 2; 3; 4; 5]))
            else None)
    /\ concat batches = [1; 2; 3; 4; 5].
Proof. apply (chunked_slices [1; 2; 3; 4; 5] 2). lia. Defined.

(** ** Playback, then reading the ring *)

Lemma filter_all {A} (f : A -> bool) (l : list A) :
  (forall x, x ∈ l -> f x = true) -> List.filter f l = l.
Proof.
  induction l as [| x l IH]; intros H; [done |]. simpl.
  rewrite (H x) by apply list_elem_of_here. f_equal.
  apply IH. intros y Hy. apply H. by apply list_elem_of_further.
Qed.

Lemma playback_ret penv fuel run0 samples emit_sps run' :
  playback_from_memory penv fuel run0 samples emit_sps = Ret run' ->
  run' = mark_done (fst (append_all run0 samples)).
Proof.
  assert (same_but_event run0 (fed_prefix run0 samples 0)) as Hstart by done.
  pose proof (unpaced_loop_spec penv run0 samples fuel 0 run0
                (Z.max 1 (live_batch run0 * 4)) 0) as Hun.
  pose proof (paced_loop_spec penv run0 samples fuel 0 run0 0) as Hpa.
  rewrite fed_all in Hun, Hpa.
  unfold playback_from_memory.
  destruct (Z.eqb_spec (Z.of_nat (length samples)) 0) as [Hz | Hnz].
  { assert (samples = []) as -> by (destruct samples; [done | simpl in Hz; lia]).
    by intros [= <-]. }
  destruct (float_le_0 emit_sps).
  - destruct (unpaced_loop penv fuel 0 run0 samples _ 0) as [r | e |]; [| done | done].
    intros [= <-]. apply same_but_event_mark_done. apply Hun; (done || lia).
  - destruct (paced_loop penv fuel 0 run0 samples 0) as [r | e |]; [| done | done].
    intros [= <-]. apply same_but_event_mark_done. apply Hpa; (done || lia).
Qed.

(** X7: playback into a new run, then a read. When [playback_from_memory]
    returns, [final_seq] is the number of samples played, [min_seq()] is
    [max(1, n - ring_capacity + 1)], and [get_range(1, n)] returns the last
    [ring_capacity] stamped samples in input order; all of them when the
    ring is large enough. *)
Theorem playback_then_get_range penv fuel cap lb run0 samples emit_sps run' :
  FeedRun_init cap lb = Some run0 ->
  playback_from_memory penv fuel run0 samples emit_sps = Ret run' ->
  let n := Z.of_nat (length samples) in
  let out := snd (append_all run0 samples) in
  final_seq run' = Some n
  /\ min_seq run' = Z.max 1 (n - cap + 1)
  /\ get_range run' 1 n = Some (keep_last (Z.to_nat cap) out)
  /\ (n <= cap -> get_range run' 1 n = Some out).
Proof.
  intros Hinit Hret n out. apply playback_ret in Hret.
  destruct (init_inv _ _ _ Hinit) as (Hcap & Hring & Hc & Hnext & _).
  set (r := fst (append_all run0 samples)) in *.
  assert (next_seq r = 1 + n) as Hn
    by (unfold r; rewrite append_all_next_seq, Hnext; done).
  assert (ring r = keep_last (Z.to_nat cap) out) as Hr.
  { unfold r. rewrite (append_all_ring (Z.to_nat cap)); [| lia | rewrite Hring; simpl; lia].
    by rewrite Hring. }
  assert (reachable r) as Hreach
    by (apply append_all_reachable; by apply (reach_init cap lb)).
  pose proof (reachable_ring_ok r Hreach) as Hok.
  assert (length out = length samples) as Hlen by apply append_all_length.
  assert (min_seq r = Z.max 1 (n - cap + 1)) as Hmin.
  { rewrite min_seq_eq, Hr, keep_last_length, Hn. lia. }
  assert (get_range r 1 n = Some (keep_last (Z.to_nat cap) out)) as Hget.
  { rewrite get_range_filter by done. rewrite <- Hr. f_equal.
    apply filter_all. intros s Hs.
    destruct (ring_ok_members r s Hok Hs) as (q & Hq & Hb).
    unfold seq_in. rewrite Hq. unfold last_seq in Hb.
    apply andb_true_intro. split; lia. }
  subst run'. split; [| split; [| split]].
  - simpl. f_equal. unfold last_seq. lia.
  - exact Hmin.
  - exact Hget.
  - intros Hle. change (get_range r 1 n = Some out).
    rewrite Hget, keep_last_all by lia. done.
Qed.

Lemma playback_then_get_range_witness :
  exists run',
    final_seq run' = Some 3
    /\ get_range run' 1 3 = Some [stamped 20 2; stamped 30 3].
Proof.
  exists (mark_done demo_run).
  destruct (playback_then_get_range
              {| pb_credit := fun _ => Some 1; pb_waiter_clears := fun _ => false |}
              3 2 2 fresh_run [tick 10; tick 20; tick 30] (FFinite 0 1)
              (mark_done demo_run) eq_refl eq_refl) as (H1 & _ & H3 & _).
  split; [exact H1 | exact H3].
Defined.

(** ** The gap accounting of the live sender *)

Lemma track_sample_other sid m s :
  has_sid sid s = false -> track_sample m s !! sid = m !! sid.
Proof.
  intros Hs. unfold track_sample.
  destruct (sid_truthy (series_id s)) as [sid' |] eqn:Ht; [| done].
  destruct (series_seq s); [| done].
  apply lookup_insert_ne. by eapply has_sid_false.
Qed.

Lemma track_sample_mine sid m s q :
  sid_truthy (series_id s) = Some sid -> series_seq s = Some q ->
  exists st',
    track_sample m s !! sid = Some st' /\ ss_prev st' = Some q
    /\ (m !! sid = None -> 1 <= q ->
        ss_missed st' = q - 1 /\ 0 <= ss_gaps st' <= ss_missed st')
    /\ (forall st p, m !! sid = Some st -> ss_prev st = Some p -> p < q ->
        ss_missed st' = ss_missed st + (q - p - 1)
        /\ 0 <= ss_gaps st' - ss_gaps st <= q - p - 1).
Proof.
  intros Ht Hq. unfold track_sample. rewrite Ht, Hq, lookup_insert_eq.
  set (st0 := default _ (m !! sid)).
  eexists. split; [done |]. split; [| split].
  - destruct (ss_prev st0) as [p |]; [by destruct (p + 1 <? q) |].
    by destruct ((1 <? q) && negb (ss_warned_initial st0)).
  - intros Hm Hpos. subst st0. rewrite Hm. cbn.
    destruct (Z.ltb_spec 1 q); cbn; lia.
  - intros st p Hm Hp Hlt.
    assert (st0 = st) as -> by (subst st0; by rewrite Hm). rewrite Hp.
    destruct (Z.ltb_spec (p + 1) q); cbn; lia.
Qed.

(** X8: the per-series accounting of [_live_loop]. Over the samples handed
    to one client, in any mix of series, a series whose [series_seq] values
    arrive in increasing order has no state before its first sample;
    afterwards [prev] is the last [series_seq] seen, and the samples
    reported missed plus the samples seen add up to it, with at most one
    gap counted per missed sample. *)
Theorem track_missed_accounting sid (batch : list Sample) qs :
  sid <> "" ->
  series_seq <$> List.filter (has_sid sid) batch = Some <$> qs ->
  StronglySorted Z.lt qs ->
  Forall (fun q => 1 <= q) qs ->
  match last qs with
  | None => foldl track_sample ∅ batch !! sid = None
  | Some q =>
      exists st,
        foldl track_sample ∅ batch !! sid = Some st
        /\ ss_prev st = Some q
        /\ ss_missed st + Z.of_nat (length qs) = q
        /\ 0 <= ss_gaps st <= ss_missed st
  end.
Proof.
  intros Hne. revert qs.
  induction batch as [| s b IH] using rev_ind; intros qs Hqs Hsorted Hpos.
  - destruct qs; [| done]. simpl. apply lookup_empty.
  - rewrite foldl_snoc. rewrite List.filter_app in Hqs. cbn [List.filter] in Hqs.
    destruct (has_sid sid s) eqn:Hs.
    + rewrite fmap_app in Hqs. symmetry in Hqs.
      apply fmap_app_inv in Hqs as (qs1 & qs2 & Hq1 & Hq2 & ->).
      destruct qs2 as [| q [| ? ?]]; try done.
      injection Hq2 as Hq.
      apply StronglySorted_app in Hsorted as (Hlt & Hs1 & _).
      apply Forall_app in Hpos as [Hp1 Hpq]. apply Forall_inv in Hpq.
      specialize (IH qs1 Hq1 Hs1 Hp1).
      rewrite last_snoc, length_app. cbn [length].
      destruct (track_sample_mine sid (foldl track_sample ∅ b) s q
                  (has_sid_true sid s Hne Hs) Hq) as (st' & Hst' & Hprev' & Hnew & Hold).
      exists st'. split; [done |]. split; [done |].
      destruct (last qs1) as [p |] eqn:Hlast.
      * destruct IH as (st & Hst & Hprev & Hmissed & Hgaps).
        assert (p < q) as Hpq'.
        { apply Hlt; [| apply list_elem_of_here]. by apply last_Some_elem_of. }
        destruct (Hold st p Hst Hprev Hpq'). lia.
      * apply last_None in Hlast as ->. cbn [length].
        destruct (Hnew IH Hpq). lia.
    + rewrite app_nil_r in Hqs. specialize (IH qs Hqs Hsorted Hpos).
      by rewrite track_sample_other.
Qed.

Lemma track_missed_accounting_witness :
  exists st,
    foldl track_sample ∅
      [set_series_seq 3 (bar "a" 1); set_series_seq 1 (bar "b" 2);
       set_series_seq 6 (bar "a" 3)] !! "a" = Some st
    /\ ss_prev st = Some 6
    /\ ss_missed st + 2 = 6
    /\ 0 <= ss_gaps st <= ss_missed st.
Proof.
  apply (track_missed_accounting "a"
           [set_series_seq 3 (bar "a" 1); set_series_seq 1 (bar "b" 2);
            set_series_seq 6 (bar "a" 3)] [3; 6]).
  - done.
  - reflexivity.
  - repeat constructor.
  - repeat constructor; lia.
Defined.

(** ** The heartbeat task *)

Section Heartbeat.
Variable lib : Lib.
Variable env : Env.
Variable args : Args.

Lemma sent_heartbeat_no_hb ts w :
  w_hb w = false ->
  let w' := sent lib env args (FHeartbeat ts) w in
  w_hb w' = false /\ w_tick w' = S (w_tick w)
  /\ sent_msgs (w_log w') = sent_msgs (w_log w) ++ [WText (FHeartbeat ts)].
Proof.
  intros Hhb. unfold sent. cbn [on_wire].
  destruct (suspend_no_hb env
              (add_log (ASend (WText (FHeartbeat ts)) (e_send_ok env (w_tick w))) w) Hhb)
    as [Hhb' Hlog].
  split; [done |]. split; [done |]. rewrite Hlog. cbn [add_log w_log].
  by rewrite sent_msgs_app.
Qed.

End Heartbeat.


(** ** What a session sends, from the resume to the end *)

Lemma data_samples_app log1 log2 :
  data_samples (log1 ++ log2) = data_samples log1 ++ data_samples log2.
Proof. unfold data_samples. by rewrite sent_msgs_app, omap_app, concat_app. Qed.

Ltac in_bounds := apply andb_true_intro; split; apply Z.leb_le; simpl length; lia.

Lemma in_order_nil lo hi : in_order lo hi [].
Proof. split; constructor. Qed.

Lemma seq_in_weaken lo hi lo' hi' s :
  lo' <= lo -> hi <= hi' -> seq_in lo hi s = true -> seq_in lo' hi' s = true.
Proof.
  unfold seq_in. intros Hlo Hhi. destruct (seq s) as [q |]; [| done].
  intros [H1 H2]%andb_prop. apply andb_true_intro. split; lia.
Qed.

Lemma in_order_weaken lo hi lo' hi' l :
  lo' <= lo -> hi <= hi' -> in_order lo hi l -> in_order lo' hi' l.
Proof.
  intros Hlo Hhi [Hs Hb]. split; [done |].
  eapply Forall_impl; [exact Hb |]. intros s. by apply seq_in_weaken.
Qed.

Lemma seq_in_lt lo hi lo' hi' s s' :
  hi < lo' -> seq_in lo hi s = true -> seq_in lo' hi' s' = true -> seq_lt s s'.
Proof.
  unfold seq_in, seq_lt. intros Hlt.
  destruct (seq s) as [q |]; [| done]. destruct (seq s') as [q' |]; [| done].
  intros [H1 H2]%andb_prop [H3 H4]%andb_prop. exists q, q'. repeat split; lia.
Qed.

Lemma in_order_app lo hi lo1 hi' l l' :
  in_order lo hi l -> in_order lo1 hi' l' ->
  hi < lo1 -> lo <= lo1 -> hi <= hi' ->
  in_order lo hi' (l ++ l').
Proof.
  intros [Hs Hb] [Hs' Hb'] Hlt Hlo Hhi. split.
  - apply StronglySorted_app_2; [| done | done].
    intros x1 x2 H1 H2. rewrite Forall_forall in Hb, Hb'.
    eapply seq_in_lt; [exact Hlt | by apply Hb | by apply Hb'].
  - apply Forall_app. split.
    + eapply Forall_impl; [exact Hb |]. intros s. apply seq_in_weaken; lia.
    + eapply Forall_impl; [exact Hb' |]. intros s. apply seq_in_weaken; lia.
Qed.

(** A list in order splits into two lists in order, around the number of
    the last sample of the first. *)
Lemma in_order_split lo hi l1 l2 :
  in_order lo hi (l1 ++ l2) -> lo <= hi + 1 ->
  exists mid,
    lo - 1 <= mid <= hi
    /\ in_order lo mid l1 /\ in_order (mid + 1) hi l2
    /\ (l1 = [] /\ mid = lo - 1 \/ last l1 ≫= seq = Some mid).
Proof.
  revert lo. induction l1 as [| x l1 IH]; intros lo [Hs Hb] Hlo.
  - exists (lo - 1). split; [lia |]. split; [apply in_order_nil |].
    split; [| by left]. replace (lo - 1 + 1) with lo by lia. done.
  - simpl in Hs, Hb. apply StronglySorted_inv in Hs as [Hs Hx].
    apply Forall_cons in Hb as [Hbx Hb].
    assert (exists q, seq x = Some q /\ lo <= q <= hi) as (q & Hq & Hqb).
    { unfold seq_in in Hbx. destruct (seq x) as [q |]; [| done].
      exists q. apply andb_prop in Hbx. split; [done | lia]. }
    destruct (IH (q + 1)) as (mid & Hmid & H1 & H2 & Hlast); [| lia |].
    { split; [done |]. rewrite Forall_forall in Hb, Hx. apply Forall_forall.
      intros y Hy. specialize (Hb y Hy). destruct (Hx y Hy) as (a & b & Ha & Hb' & Hab).
      unfold seq_in in *. rewrite Hb' in *. rewrite Hq in Ha. injection Ha as <-.
      apply andb_prop in Hb. apply andb_true_intro. split; lia. }
    exists mid. split; [lia |]. split; [| split; [done |]].
    + destruct H1 as [Hs1 Hb1]. split.
      * constructor; [done |]. apply Forall_app in Hx. tauto.
      * constructor.
        -- unfold seq_in. rewrite Hq. apply andb_true_intro. split; lia.
        -- eapply Forall_impl; [exact Hb1 |]. intros s. apply seq_in_weaken; lia.
    + right. destruct Hlast as [[-> ->] | Hlast].
      * simpl. rewrite Hq. f_equal. lia.
      * destruct l1 as [| y l1]; [done |]. by rewrite last_cons_cons.
Qed.

(** Consecutive numbers are in order. *)
Lemma consecutive_in_order (l : list Sample) base :
  seq <$> l = Some <$> py_range base (base + Z.of_nat (length l)) ->
  in_order base (base + Z.of_nat (length l) - 1) l.
Proof.
  revert base. induction l as [| x l IH]; intros base Hl; [apply in_order_nil |].
  apply consecutive_cons in Hl as [Hx Hl]. specialize (IH _ Hl).
  assert (seq_in base (base + Z.of_nat (length (x :: l)) - 1) x = true) as Hbx.
  { unfold seq_in. rewrite Hx. in_bounds. }
  replace (base + Z.of_nat (length (x :: l)) - 1)
    with (base + 1 + Z.of_nat (length l) - 1) by (simpl length; lia).
  destruct IH as [Hs Hb]. split.
  - constructor; [done |]. eapply Forall_impl; [exact Hb |].
    intros y Hy. eapply (seq_in_lt base base (base + 1)); [lia | | exact Hy].
    unfold seq_in. rewrite Hx. in_bounds.
  - constructor.
    + eapply seq_in_weaken; [| | exact Hbx]; rewrite ?length_cons; lia.
    + eapply Forall_impl; [exact Hb |]. intros s. apply seq_in_weaken; lia.
Qed.

Lemma range_in_order (l : list Sample) a b :
  seq <$> l = Some <$> py_range a b -> in_order a (b - 1) l.
Proof.
  intros Hl. pose proof (f_equal length Hl) as Hlen.
  rewrite !length_fmap, py_range_length in Hlen.
  destruct (Z.le_gt_cases a b).
  - replace (b - 1) with (a + Z.of_nat (length l) - 1) by lia.
    apply consecutive_in_order. rewrite Hl. do 2 f_equal. lia.
  - destruct l; [apply in_order_nil | simpl in Hlen; lia].
Qed.

(** What [get_range] returns in a state a run can reach is in order and
    inside the bounds asked for. *)
Lemma get_range_in_order r a b :
  reachable r ->
  exists out, get_range r a b = Some out /\ in_order a b out.
Proof.
  intros Hr. destruct (get_range_ring_ok r a b (reachable_ring_ok r Hr)) as [-> Hseq].
  eexists. split; [done |]. apply range_in_order in Hseq.
  eapply in_order_weaken; [| | exact Hseq]; lia.
Qed.

(** The chunks of a list in order, put end to end, are in order, and each
    of them holds between one sample and [n]. *)
Lemma chunked_in_order (l : list Sample) n batches a b :
  chunked l n = Some batches -> in_order a b l ->
  in_order a b (concat batches)
  /\ Forall (fun batch => 1 <= Z.of_nat (length batch) <= n) batches.
Proof.
  intros Hc Hl. pose proof (chunked_nonempty l n batches Hc) as Hne.
  unfold chunked in Hc. destruct (Z.eqb_spec n 0); [done |].
  destruct (Z.ltb_spec n 0).
  - injection Hc as <-. split; [apply in_order_nil | done].
  - assert (chunked l n = Some batches) as Hc'.
    { unfold chunked. replace (n =? 0) with false by lia.
      by replace (n <? 0) with false by lia. }
    destruct (chunked_concat l n batches) as [-> Hle]; [lia | done |].
    split; [done |]. rewrite Forall_forall in Hne, Hle. apply Forall_forall.
    intros batch Hb. specialize (Hne batch Hb). specialize (Hle batch Hb).
    destruct batch; [done | simpl length in *; lia].
Qed.

Lemma post_bind {A B} (m : M A) (k : A -> M B) w
    (Pr : A -> World -> Prop) (Px Pp : World -> Prop)
    (Qr : B -> World -> Prop) (Qx Qp : World -> Prop) :
  outcome_post Pr Px Pp (m w) ->
  (forall a w', Pr a w' -> outcome_post Qr Qx Qp (k a w')) ->
  (forall w', Px w' -> Qx w') ->
  (forall w', Pp w' -> Qp w') ->
  outcome_post Qr Qx Qp (bind m k w).
Proof.
  unfold bind. destruct (m w) as [[a | e |] w']; simpl; eauto.
Qed.

Lemma post_weaken {A} (res : Outcome A * World)
    (Pr : A -> World -> Prop) (Px Pp : World -> Prop)
    (Qr : A -> World -> Prop) (Qx Qp : World -> Prop) :
  outcome_post Pr Px Pp res ->
  (forall a w', Pr a w' -> Qr a w') ->
  (forall w', Px w' -> Qx w') ->
  (forall w', Pp w' -> Qp w') ->
  outcome_post Qr Qx Qp res.
Proof. destruct res as [[a | e |] w']; simpl; eauto. Qed.

Lemma take_prefix {A} (k : nat) (l b : list A) :
  take k l = b -> l = b ++ drop (length b) l.
Proof.
  intros <-. rewrite length_take.
  destruct (Nat.le_gt_cases k (length l)).
  - rewrite Nat.min_l by done. by rewrite take_drop.
  - rewrite Nat.min_r by lia. rewrite take_ge, drop_ge by lia. by rewrite app_nil_r.
Qed.

Lemma py_slice_prefix {A} (l : list A) i j :
  0 <= i <= Z.of_nat (length l) ->
  exists k, py_slice l i j = take k (drop (Z.to_nat i) l).
Proof.
  intros Hi. unfold py_slice. eexists.
  assert (py_slice_bound (Z.of_nat (length l)) i = i) as ->; [| done].
  unfold py_slice_bound. replace (i <? 0) with false by lia. lia.
Qed.

Section SessionOrder.
Variable lib : Lib.
Variable env : Env.
Variable args : Args.
Variable lo : Z.

Local Abbreviation inv := (session_inv lib args lo).
Local Abbreviation fits := (fun m => 0 <= args_live_batch args -> wire_fits lib args m).
Local Abbreviation send_range := (fun ty r a b =>
  bind (lift_option IndexError (get_range r a b)) (fun samples =>
    bind (lift_option ValueError (chunked samples (args_history_chunk args)))
      (fun batches =>
         for_each batches (fun batch => _send lib env args (FData ty batch))))).

Lemma inv_same hi top w w' :
  w_run w' = w_run w -> w_log w' = w_log w -> inv hi top w -> inv hi top w'.
Proof. unfold session_inv. by intros -> ->. Qed.

Lemma inv_add_log hi top hi' lo1 a w :
  inv hi top w ->
  in_order lo1 hi' (data_samples [a]) ->
  Forall fits (sent_msgs [a]) ->
  hi < lo1 -> lo <= lo1 -> hi <= hi' -> hi' <= top ->
  inv hi' top (add_log a w).
Proof.
  intros (Hrun & Hhi & Hlo & Hord & Hfit) Ha Hfa H1 H2 H3 H4.
  split; [exact Hrun |]. split; [done |]. split; [lia |].
  cbn [add_log w_log]. rewrite data_samples_app, sent_msgs_app. split.
  - by apply (in_order_app lo hi lo1 hi').
  - apply Forall_app. by split.
Qed.

Lemma inv_add_ctl hi top a w :
  data_samples [a] = [] -> Forall fits (sent_msgs [a]) ->
  inv hi top w -> inv hi top (add_log a w).
Proof.
  intros Hd Hf H. pose proof H as (_ & Hhi & Hlo & _).
  apply (inv_add_log hi top hi (hi + 1)); try done; try lia.
  rewrite Hd. apply in_order_nil.
Qed.

Lemma inv_apply_other hi top w a : inv hi top w -> inv hi top (apply_other w a).
Proof.
  intros H. destruct a as [s | | | ts ok]; cbn [apply_other].
  - destruct H as ((r & Hrun & Hr & Htop) & H). split; [| exact H].
    exists (fst (_append r s)). cbn [set_run w_run]. rewrite Hrun.
    split; [done |]. split; [by apply reach_append |].
    unfold last_seq in *. rewrite append_next_seq. lia.
  - destruct H as ((r & Hrun & Hr & Htop) & H). split; [| exact H].
    exists (mark_done r). cbn [set_run w_run]. rewrite Hrun.
    split; [done |]. split; [by apply reach_drain | done].
  - destruct H as ((r & Hrun & Hr & Htop) & H). split; [| exact H].
    exists (clear_new_event r). cbn [set_run w_run]. rewrite Hrun.
    split; [done |]. split; [by apply reach_clear | done].
  - destruct (w_hb w); [| done]. apply inv_add_ctl; [done | | done].
    constructor; [by intros _ | constructor].
Qed.

Lemma inv_others hi top w acts : inv hi top w -> inv hi top (foldl apply_other w acts).
Proof.
  revert w. induction acts as [| a acts IH]; intros w H; cbn [foldl]; [done |].
  by apply IH, inv_apply_other.
Qed.

Lemma inv_suspend hi top w : inv hi top w -> inv hi top (snd (suspend env w)).
Proof.
  intros H. unfold suspend. cbn [snd].
  eapply inv_same; [| | apply inv_others, H]; done.
Qed.

Lemma inv_raise hi top hi' top' w r :
  inv hi top w -> w_run w = Some r ->
  hi <= hi' -> hi' <= top' -> top' <= last_seq r ->
  inv hi' top' w.
Proof.
  intros ((r' & Hrun & Hr & Htop) & Hhi & Hlo & Hord & Hfit) Hw H1 H2 H3.
  rewrite Hw in Hrun. injection Hrun as <-.
  split; [by exists r |]. split; [done |]. split; [lia |]. split; [| done].
  eapply in_order_weaken; [| | exact Hord]; lia.
Qed.

Lemma inv_raise_hi hi top hi' w :
  inv hi top w -> hi <= hi' -> hi' <= top -> inv hi' top w.
Proof.
  intros H. pose proof H as ((r & Hrun & _ & Htop) & _). intros.
  by apply (inv_raise hi top hi' top w r).
Qed.

Lemma inv_sent_ctl obj hi top w :
  (forall ty samples, obj <> FData ty samples) ->
  inv hi top w -> inv hi top (sent lib env args obj w).
Proof.
  intros Hobj H. unfold sent.
  destruct obj as [? | ? ? ? | ty samples | ? ? | ? | ?];
    try (apply inv_suspend, inv_add_ctl;
         [done | constructor; [by intros _ | constructor] | done]).
  by destruct (Hobj ty samples).
Qed.

Lemma inv_sent_data ty batch hi top hi' lo1 w :
  inv hi top w -> in_order lo1 hi' batch ->
  1 <= Z.of_nat (length batch) ->
  (0 <= args_live_batch args -> Z.of_nat (length batch) <= frame_limit args ty) ->
  hi < lo1 -> lo <= lo1 -> hi <= hi' -> hi' <= top ->
  inv hi' top (sent lib env args (FData ty batch) w).
Proof.
  intros H Hb Hne Hsize H1 H2 H3 H4. unfold sent, on_wire.
  assert (data_samples_one : forall m ok,
            wire_samples m = Some batch -> data_samples [ASend m ok] = batch).
  { intros m ok Hm. unfold data_samples. simpl. rewrite Hm. simpl. apply app_nil_r. }
  destruct (String.eqb (args_ws_format args) "binary") eqn:Hfmt.
  - destruct batch as [| s rest]; [simpl in Hne; lia |].
    destruct (binary_encodes lib ty (s :: rest)) eqn:Henc.
    + apply inv_suspend. apply (inv_add_log hi top hi' lo1); try done.
      * by rewrite data_samples_one.
      * constructor; [| constructor]. intros Hlb. cbn [wire_fits].
        split; [done |]. split; [done |]. split; [done | by apply Hsize].
    + by apply (inv_raise_hi hi top hi').
  - apply inv_suspend. apply (inv_add_log hi top hi' lo1); try done.
    + by rewrite data_samples_one.
    + constructor; [| constructor]. intros Hlb. cbn [wire_fits].
      split; [done |]. split; [done | by apply Hsize].
Qed.

Lemma inv_sent_all ty batches hi w lo1 hi' top :
  inv hi top w -> in_order lo1 hi' (concat batches) ->
  Forall (fun batch =>
            1 <= Z.of_nat (length batch)
            /\ (0 <= args_live_batch args ->
                Z.of_nat (length batch) <= frame_limit args ty)) batches ->
  hi < lo1 -> lo <= lo1 -> lo1 <= hi' + 1 -> hi' <= top ->
  inv hi' top (sent_all lib env args ty batches w).
Proof.
  unfold sent_all. revert hi w lo1.
  induction batches as [| b batches IH]; intros hi w lo1 H Hord Hsz H1 H2 H3 H4;
    cbn [foldl].
  - apply (inv_raise_hi hi); [done | lia | lia].
  - cbn [concat] in Hord. apply Forall_cons in Hsz as [[Hne Hsize] Hsz].
    destruct (in_order_split _ _ _ _ Hord H3) as (mid & Hmid & Hb & Hrest & _).
    apply (IH mid _ (mid + 1)); try done; try lia.
    apply (inv_sent_data ty b hi top mid lo1); try done; lia.
Qed.

Lemma post_get_run {B} (k : FeedRun -> M B) hi top w (Q : Outcome B * World -> Prop) :
  inv hi top w ->
  (forall r, w_run w = Some r -> reachable r -> top <= last_seq r -> Q (k r w)) ->
  Q (bind get_run k w).
Proof.
  intros ((r & Hrun & Hr & Htop) & _) H. unfold bind, get_run. rewrite Hrun.
  by apply H.
Qed.

Lemma bind_modify {B} f (k : M B) w : bind (modify f) (fun _ => k) w = k (f w).
Proof. done. Qed.

Lemma bind_suspend {B} (k : M B) w :
  bind (suspend env) (fun _ => k) w = k (snd (suspend env w)).
Proof. done. Qed.

(** Sending a range of the ring chunk by chunk, as history or as delta. *)
Lemma send_range_inv ty r a b hi top w :
  frame_limit args ty = args_history_chunk args ->
  inv hi top w -> reachable r ->
  hi < a -> lo <= a -> a <= b + 1 -> b <= top ->
  outcome_post (fun _ w' => inv b top w')
    (fun w' => args_history_chunk args = 0 /\ inv hi top w')
    (fun _ => False)
    (send_range ty r a b w).
Proof.
  intros Hty H Hr H1 H2 H3 H4.
  destruct (get_range_in_order r a b Hr) as (out & -> & Hord).
  cbn [lift_option]. rewrite bind_ret.
  destruct (chunked out (args_history_chunk args)) as [batches |] eqn:Hc;
    cbn [lift_option].
  - rewrite bind_ret, for_each_send_eq. cbn [outcome_post].
    destruct (chunked_in_order out _ batches a b Hc Hord) as [Hcat Hsz].
    apply (inv_sent_all ty batches hi w a b top); try done.
    eapply Forall_impl; [exact Hsz |]. intros batch [Hne Hle].
    split; [done |]. intros _. by rewrite Hty.
  - cbn. split; [| done]. unfold chunked in Hc.
    destruct (Z.eqb_spec (args_history_chunk args) 0); [done |].
    by destruct (args_history_chunk args <? 0).
Qed.

(** The batch loop of the live sender never raises over samples in order,
    and leaves [last_sent] at the number of the last sample it sent. *)
Lemma live_batches_inv fuel to_send idx last_sent series_state w top hi' :
  0 <= idx <= Z.of_nat (length to_send) ->
  inv last_sent top w ->
  in_order (last_sent + 1) hi' (drop (Z.to_nat idx) to_send) ->
  last_sent <= hi' -> hi' <= top ->
  outcome_post (fun r w' => inv (fst r) top w') (fun _ => False)
    (fun w' => exists hi, inv hi top w')
    (live_batches lib env args fuel to_send idx last_sent series_state w).
Proof.
  revert idx last_sent series_state w.
  induction fuel as [| fuel IH]; intros idx last_sent series_state w Hidx H Hord H1 H2;
    cbn [live_batches]; destruct (Z.ltb_spec idx (Z.of_nat (length to_send))) as [Hlt | Hge];
    try done; try (by exists last_sent).
  pose proof (py_slice_length to_send idx (idx + args_live_batch args)) as Hlen.
  destruct (py_slice_prefix to_send idx (idx + args_live_batch args)) as [k Hk]; [lia |].
  destruct (py_slice to_send idx (idx + args_live_batch args)) as [| s rest] eqn:Hb;
    [done |].
  symmetry in Hk. apply take_prefix in Hk.
  set (batch := s :: rest) in *.
  rewrite Hk in Hord.
  destruct (in_order_split _ _ _ _ Hord) as (mid & Hmid & Hbatch & Hrest & Hlast); [lia |].
  destruct Hlast as [[? _] | Hlast]; [done |].
  pose proof H as (_ & _ & Hlo & _).
  assert (Z.of_nat (length batch) <= Z.of_nat (length to_send) - idx) as Hfit.
  { apply (f_equal length) in Hk. rewrite length_app, length_drop in Hk. lia. }
  rewrite send_then, Hlast. cbn [lift_option]. rewrite bind_ret, bind_suspend.
  apply IH.
  - lia.
  - apply inv_suspend. apply (inv_sent_data Live batch last_sent top mid (last_sent + 1));
      try done; try lia.
    + unfold batch. simpl length. lia.
    + intros Hlb. rewrite Hlen by lia. unfold py_slice_bound, frame_limit.
      replace (idx + args_live_batch args <? 0) with false by lia. lia.
  - replace (Z.to_nat (idx + Z.of_nat (length batch)))
      with (Z.to_nat idx + length batch)%nat by lia.
    by rewrite <- drop_drop.
  - lia.
  - lia.
Qed.

Lemma wait_inv seq hi top w :
  inv hi top w ->
  outcome_post (fun _ w' => inv hi top w') (fun _ => False) (fun _ => False)
    (wait_for_new_after env seq w).
Proof.
  intros H. unfold wait_for_new_after.
  apply (post_get_run _ hi top w); [done |]. intros r Hrun Hr Htop.
  destruct (seq <? last_seq r); [exact H |].
  rewrite bind_modify. unfold bind at 1. cbn [get_tick]. rewrite bind_suspend.
  set (w1 := set_run (clear_new_event <$> w_run w) w).
  assert (inv hi top (snd (suspend env w1))) as H1.
  { apply inv_suspend. destruct H as (_ & H). split; [| exact H].
    exists (clear_new_event r). unfold w1. cbn [set_run w_run]. rewrite Hrun.
    split; [done |]. split; [by apply reach_clear | done]. }
  destruct (e_wait_timeout env (w_tick w1)); [exact H1 |].
  apply (post_get_run _ hi top _); [done |]. intros. exact H1.
Qed.

Lemma finished_same w w' :
  w_run w' = w_run w -> sent_msgs (w_log w') = sent_msgs (w_log w) ->
  finished w -> finished w'.
Proof. unfold finished. by intros -> ->. Qed.

Lemma finished_apply_other w a : finished w -> finished (apply_other w a).
Proof.
  intros H. pose proof H as [(r & Hrun & Hdone) Hlog].
  destruct a as [s | | | ts ok]; cbn [apply_other].
  - split; [| exact Hlog]. exists (fst (_append r s)). cbn [set_run w_run].
    rewrite Hrun. split; [done |]. unfold _append.
    by destruct (sid_truthy (series_id s)).
  - split; [| exact Hlog]. exists (mark_done r). cbn [set_run w_run].
    by rewrite Hrun.
  - split; [| exact Hlog]. exists (clear_new_event r). cbn [set_run w_run].
    by rewrite Hrun.
  - destruct (w_hb w); [| exact H]. split; [by exists r |].
    destruct Hlog as (pre & final & hbs & Hlog & Hhbs).
    exists pre, final, (hbs ++ [WText (FHeartbeat ts)]).
    cbn [add_log w_log]. rewrite sent_msgs_app, Hlog. split.
    + by rewrite <- app_assoc.
    + apply Forall_app. split; [done |]. constructor; [by exists ts | constructor].
Qed.

Lemma finished_suspend w : finished w -> finished (snd (suspend env w)).
Proof.
  intros H. unfold suspend. cbn [snd].
  apply (finished_same (foldl apply_other w (e_others env (w_tick w)))); [done | done |].
  generalize (e_others env (w_tick w)). intros acts. revert w H.
  induction acts as [| a acts IH]; intros w H; cbn [foldl]; [done |].
  by apply IH, finished_apply_other.
Qed.

Lemma finished_add_log a w :
  sent_msgs [a] = [] -> finished w -> finished (add_log a w).
Proof.
  intros Ha. apply finished_same; [done |]. cbn [add_log w_log].
  by rewrite sent_msgs_app, Ha, app_nil_r.
Qed.

(** The live sender over a run in a reachable state: it never raises, it
    keeps what it sends in order, and it returns only after [test_done] on a
    run that is done. *)
Lemma live_loop_while_inv fuel last_sent series_state w top :
  inv last_sent top w ->
  outcome_post (fun _ w' => (exists hi top', inv hi top' w') /\ finished w')
    (fun _ => False)
    (fun w' => exists hi top', inv hi top' w')
    (_live_loop_while lib env args fuel last_sent series_state w).
Proof.
  revert last_sent series_state w top.
  induction fuel as [| fuel IH]; intros last_sent series_state w top H;
    cbn [_live_loop_while]; [by exists last_sent, top |].
  apply (post_get_run _ last_sent top w); [done |]. intros r Hrun Hr Htop.
  destruct (done r && (final_seq_or (final_seq r) last_sent <=? last_sent)) eqn:Hdone.
  - rewrite _send_eq. cbn [outcome_post]. split.
    + exists last_sent, top. by apply inv_sent_ctl.
    + unfold sent. cbn [on_wire]. apply finished_suspend.
      apply andb_prop in Hdone as [Hdone _]. split; [by exists r |].
      exists (sent_msgs (w_log w)), (final_seq r), [].
      cbn [add_log w_log]. by rewrite sent_msgs_app.
  - destruct (Z.leb_spec (last_seq r) last_sent) as [Hle | Hgt].
    + eapply post_bind; [by apply (wait_inv last_sent last_sent top) | | done | done].
      intros ? w' H'. by apply (IH _ _ _ top).
    + destruct (get_range_in_order r (last_sent + 1) (last_seq r) Hr)
        as (to_send & -> & Hord).
      cbn [lift_option]. rewrite bind_ret.
      eapply post_bind;
        [apply (live_batches_inv _ to_send 0 last_sent series_state w
                  (last_seq r) (last_seq r)) | | done |].
      * lia.
      * apply (inv_raise last_sent top last_sent (last_seq r) w r); (done || lia).
      * done.
      * lia.
      * lia.
      * intros [ls st] w' H'. by apply (IH _ _ _ (last_seq r)).
      * intros w' [hi H']. by exists hi, (last_seq r).
Qed.

Lemma live_loop_inv fuel after_seq w top :
  inv after_seq top w ->
  outcome_post (fun _ w' => (exists hi top', inv hi top' w') /\ finished w')
    (fun _ => False)
    (fun w' => exists hi top', inv hi top' w')
    (_live_loop lib env args fuel after_seq w).
Proof.
  intros H. unfold _live_loop, try_except.
  pose proof (live_loop_while_inv fuel after_seq ∅ w top H) as Hloop.
  by destruct (_live_loop_while lib env args fuel after_seq ∅ w) as [[[] | e |] w'].
Qed.

Lemma handler_live_inv fuel delta_end w top :
  inv delta_end top w ->
  outcome_post (fun _ w' => (exists hi top', inv hi top' w') /\ finished w')
    (fun _ => False)
    (fun w' => exists hi top', inv hi top' w')
    (handler_live lib env args fuel delta_end w).
Proof.
  intros H. unfold handler_live. rewrite bind_modify.
  eapply post_bind; [apply (live_loop_inv _ _ _ top); by apply (inv_same _ _ w) | | done | done].
  intros ? w' [(hi & top' & H') Hfin]. rewrite bind_modify.
  unfold try_except. rewrite ws_close_eq. cbn [outcome_post]. split.
  - exists hi, top'. apply inv_suspend. apply inv_add_ctl; [done | done |].
    apply (inv_same _ _ (add_log ACancelHeartbeat w')); [done | done |].
    by apply inv_add_ctl.
  - apply finished_suspend, finished_add_log; [done |].
    apply (finished_same (add_log ACancelHeartbeat w')); [done | done |].
    by apply finished_add_log.
Qed.

(** The handshake: history inside [max(from_seq, min_seq), wm_seq], delta
    inside [wm_seq + 1, delta_end]. It raises only on a zero
    [history_chunk]. *)
Lemma handshake_inv from_seq w snap :
  w_run w = Some snap -> reachable snap ->
  data_samples (w_log w) = [] -> Forall fits (sent_msgs (w_log w)) ->
  lo <= Z.max from_seq (min_seq snap) -> lo <= last_seq snap + 1 ->
  outcome_post (fun delta_end w' => inv delta_end delta_end w')
    (fun w' => args_history_chunk args = 0 /\ exists hi top, inv hi top w')
    (fun _ => False)
    (handler_handshake lib env args from_seq w).
Proof.
  intros Hrun Hsnap Hdata Hfit Hlo1 Hlo2.
  set (wm := last_seq snap) in *. set (start := Z.max from_seq (min_seq snap)) in *.
  assert (inv (lo - 1) wm w) as H0.
  { split; [exists snap; by repeat split |]. split; [lia |]. split; [lia |].
    rewrite Hdata. split; [apply in_order_nil | done]. }
  unfold handler_handshake.
  apply (post_get_run _ (lo - 1) wm w); [done |]. intros r Hr _ _.
  rewrite Hrun in Hr. injection Hr as <-. cbv beta zeta. fold wm start.
  rewrite send_then.
  set (w1 := sent lib env args (FInitBegin wm (min_seq snap) (ring_capacity snap)) w).
  assert (inv (lo - 1) wm w1) as H1 by (by apply inv_sent_ctl).
  eapply (post_bind _ _ w1 (fun _ w2 => inv wm wm w2)
            (fun w2 => args_history_chunk args = 0 /\ exists hi top, inv hi top w2)
            (fun _ => False)); [| | done | done].
  { destruct (Z.leb_spec start wm) as [Hle | Hgt].
    - apply (post_get_run _ (lo - 1) wm w1); [done |]. intros r1 Hr1 Hreach1 Htop1.
      eapply post_weaken;
        [apply (send_range_inv History r1 start wm (lo - 1) wm w1); (done || lia)
        | done | | done].
      intros w2 [Hz H2]. split; [done |]. by exists (lo - 1), wm.
    - cbn [ret outcome_post]. apply (inv_raise_hi (lo - 1)); (done || lia). }
  intros ? w2 H2. cbv beta in H2.
  apply (post_get_run _ wm wm w2); [done |]. intros r2 Hr2 Hreach2 Htop2.
  cbv beta zeta.
  eapply (post_bind _ _ w2 (fun _ w3 => inv (last_seq r2) (last_seq r2) w3)
            (fun w3 => args_history_chunk args = 0 /\ exists hi top, inv hi top w3)
            (fun _ => False)); [| | done | done].
  { assert (inv wm (last_seq r2) w2) as H2'
      by (apply (inv_raise wm wm wm (last_seq r2) w2 r2); (done || lia)).
    destruct (Z.ltb_spec wm (last_seq r2)) as [Hlt | Hge].
    - eapply post_weaken;
        [apply (send_range_inv Delta r2 (wm + 1) (last_seq r2) wm (last_seq r2) w2);
         (done || lia)
        | done | | done].
      intros w3 [Hz H3]. split; [done |]. by exists wm, (last_seq r2).
    - cbn [ret outcome_post]. apply (inv_raise_hi wm); (done || lia). }
  intros ? w3 H3. cbv beta in H3. rewrite send_then. cbn [ret outcome_post].
  by apply inv_sent_ctl.
Qed.
End SessionOrder.

(** The whole session after a valid resume on a run in a reachable state. *)
Lemma handler_session lib env args fuel run0 from_seq :
  valid_resume lib env from_seq -> reachable run0 ->
  let snap := run_at env run0 1 in
  let lo := Z.min (Z.max from_seq (min_seq snap)) (last_seq snap + 1) in
  outcome_post
    (fun _ w' => (exists hi top, session_inv lib args lo hi top w') /\ finished w')
    (fun w' => args_history_chunk args = 0
               /\ exists hi top, session_inv lib args lo hi top w')
    (fun w' => exists hi top, session_inv lib args lo hi top w')
    (handler lib env args fuel (new_session (Some run0))).
Proof.
  intros Hres Hr snap lo.
  rewrite (handler_valid_resume lib env args fuel _ from_seq Hres) by (by eexists).
  destruct (suspend_in_step env run0 (new_session (Some run0)))
    as ([Hhb Hrun] & Htick & Hlog); [done |].
  rewrite Htick in Hrun. change (run_at env run0 1) with snap in Hrun.
  eapply post_bind.
  - apply (handshake_inv lib env args lo from_seq _ snap); try done.
    + by apply run_at_reachable.
    + by rewrite Hlog.
    + by rewrite Hlog.
    + lia.
    + lia.
  - intros delta_end w' H'. cbv beta in H'.
    eapply post_weaken; [by apply (handler_live_inv lib env args lo fuel delta_end w' delta_end)
                        | done | done | done].
  - done.
  - done.
Qed.

(** X10: what a session sends is in order. After a valid resume on a run in
    a reachable state, whatever the producer, the transport and the clock
    do, the samples of the history, delta and live frames handed to
    [ws.send], taken in the order of the sends, carry strictly increasing
    [seq] numbers: no sample is sent twice and none out of order. *)
Theorem handler_sends_in_order lib env args fuel run0 from_seq :
  valid_resume lib env from_seq -> reachable run0 ->
  StronglySorted seq_lt
    (data_samples (w_log (snd (handler lib env args fuel (new_session (Some run0)))))).
Proof.
  intros Hres Hr. pose proof (handler_session lib env args fuel run0 from_seq Hres Hr) as H.
  cbv zeta in H.
  destruct (handler lib env args fuel (new_session (Some run0))) as [[[] | e |] w'];
    cbn [outcome_post snd] in *.
  - by destruct H as [(hi & top & _ & _ & _ & [Hs _] & _) _].
  - by destruct H as (_ & hi & top & _ & _ & _ & [Hs _] & _).
  - by destruct H as (hi & top & _ & _ & _ & [Hs _] & _).
Qed.

Lemma demo_resume_from_3 :
  valid_resume demo_lib (demo_env (RecvMsg "resume from 3") true) 3.
Proof.
  exists "resume from 3", (PDict [("type", PStr "resume"); ("from_seq", PInt 3)]).
  repeat split; reflexivity.
Defined.

Lemma demo_run_reachable : reachable demo_run.
Proof. apply append_all_reachable. by apply (reach_init 2 2). Defined.

Lemma handler_sends_in_order_witness :
  StronglySorted seq_lt
    (data_samples
       (w_log (snd (handler demo_lib (demo_env (RecvMsg "resume from 3") true)
                      (demo_args "text") 6 (new_session (Some demo_run)))))).
Proof.
  exact (handler_sends_in_order demo_lib (demo_env (RecvMsg "resume from 3") true)
           (demo_args "text") 6 demo_run 3 demo_resume_from_3 demo_run_reachable).
Defined.

(** X11: a session sends nothing from before the resume point. With
    [min_seq] and [wm_seq] the bounds of the ring when the handler takes its
    snapshot, a client that resumes from [from_seq <= wm_seq + 1] is sent
    only samples whose [seq] is at least [from_seq] and at least [min_seq],
    in history, delta and live frames alike. *)
Theorem handler_sends_from_resume_point lib env args fuel run0 from_seq :
  valid_resume lib env from_seq -> reachable run0 ->
  let snap := run_at env run0 1 in
  from_seq <= last_seq snap + 1 ->
  Forall (fun s => exists q, seq s = Some q /\ from_seq <= q /\ min_seq snap <= q)
    (data_samples (w_log (snd (handler lib env args fuel (new_session (Some run0)))))).
Proof.
  intros Hres Hr snap Hfrom.
  pose proof (handler_session lib env args fuel run0 from_seq Hres Hr) as H.
  cbv zeta in H. fold snap in H.
  assert (forall hi top w',
            session_inv lib args
              (Z.min (Z.max from_seq (min_seq snap)) (last_seq snap + 1)) hi top w' ->
            Forall (fun s => exists q, seq s = Some q /\ from_seq <= q /\ min_seq snap <= q)
              (data_samples (w_log w'))) as Hinv.
  { intros hi top w' (_ & _ & _ & [_ Hb] & _).
    eapply Forall_impl; [exact Hb |]. intros s Hs. unfold seq_in in Hs.
    destruct (seq s) as [q |]; [| done]. exists q. split; [done |].
    apply andb_prop in Hs as [Hs _]. apply Z.leb_le in Hs.
    pose proof (min_seq_eq snap) as Hmin. unfold last_seq in *. lia. }
  destruct (handler lib env args fuel (new_session (Some run0))) as [[[] | e |] w'];
    cbn [outcome_post snd] in *.
  - destruct H as [(hi & top & H) _]. by apply (Hinv hi top).
  - destruct H as (_ & hi & top & H). by apply (Hinv hi top).
  - destruct H as (hi & top & H). by apply (Hinv hi top).
Qed.

Lemma handler_sends_from_resume_point_witness :
  Forall (fun s => exists q, seq s = Some q /\ 3 <= q /\ 2 <= q)
    (data_samples
       (w_log (snd (handler demo_lib (demo_env (RecvMsg "resume from 3") true)
                      (demo_args "text") 6 (new_session (Some demo_run)))))).
Proof.
  apply (handler_sends_from_resume_point demo_lib (demo_env (RecvMsg "resume from 3") true)
           (demo_args "text") 6 demo_run 3 demo_resume_from_3 demo_run_reachable).
  vm_compute. discriminate.
Defined.

(** X12: every frame of a session fits its format and its size. For a
    [live_batch] that is not negative, after a valid resume on a run in a
    reachable state: in text mode no binary frame is sent; in binary mode
    every history, delta and live frame is sent as a binary frame that
    encodes; and every such frame holds at least one sample and at most
    [history_chunk] (history, delta) or [live_batch] (live) samples. *)
Theorem handler_frames_fit lib env args fuel run0 from_seq :
  valid_resume lib env from_seq -> reachable run0 ->
  0 <= args_live_batch args ->
  Forall (wire_fits lib args)
    (sent_msgs (w_log (snd (handler lib env args fuel (new_session (Some run0)))))).
Proof.
  intros Hres Hr Hlb.
  pose proof (handler_session lib env args fuel run0 from_seq Hres Hr) as H.
  cbv zeta in H.
  assert (forall lo hi top w',
            session_inv lib args lo hi top w' ->
            Forall (wire_fits lib args) (sent_msgs (w_log w'))) as Hinv.
  { intros lo hi top w' (_ & _ & _ & _ & Hf).
    eapply Forall_impl; [exact Hf |]. intros m Hm. by apply Hm. }
  destruct (handler lib env args fuel (new_session (Some run0))) as [[[] | e |] w'];
    cbn [outcome_post snd] in *.
  - destruct H as [(hi & top & H) _]. exact (Hinv _ hi top w' H).
  - destruct H as (_ & hi & top & H). exact (Hinv _ hi top w' H).
  - destruct H as (hi & top & H). exact (Hinv _ hi top w' H).
Qed.

Lemma handler_frames_fit_witness :
  Forall (wire_fits demo_lib (demo_args "text"))
    (sent_msgs
       (w_log (snd (handler demo_lib (demo_env (RecvMsg "resume from 3") true)
                      (demo_args "text") 6 (new_session (Some demo_run)))))).
Proof.
  apply (handler_frames_fit demo_lib (demo_env (RecvMsg "resume from 3") true)
           (demo_args "text") 6 demo_run 3 demo_resume_from_3 demo_run_reachable).
  vm_compute. discriminate.
Defined.

(** X13: after a valid resume on a run in a reachable state the handler
    raises only when [history_chunk] is zero: with any other chunk size it
    returns or keeps running, whatever the transport, the producer and the
    clock do. *)
Theorem handler_never_raises lib env args fuel run0 from_seq e :
  valid_resume lib env from_seq -> reachable run0 ->
  args_history_chunk args <> 0 ->
  fst (handler lib env args fuel (new_session (Some run0))) <> Raise e.
Proof.
  intros Hres Hr Hchunk.
  pose proof (handler_session lib env args fuel run0 from_seq Hres Hr) as H.
  cbv zeta in H.
  destruct (handler lib env args fuel (new_session (Some run0))) as [[[] | e' |] w'];
    cbn [outcome_post fst] in *; try done.
  by destruct H as [H _].
Qed.

Lemma handler_never_raises_witness :
  fst (handler demo_lib (demo_env (RecvMsg "resume from 3") false)
         (demo_args "binary") 6 (new_session (Some demo_run)))
  <> Raise ConnectionClosed.
Proof.
  apply (handler_never_raises demo_lib (demo_env (RecvMsg "resume from 3") false)
           (demo_args "binary") 6 demo_run 3).
  - exists "resume from 3", (PDict [("type", PStr "resume"); ("from_seq", PInt 3)]).
    repeat split; reflexivity.
  - exact demo_run_reachable.
  - vm_compute. discriminate.
Defined.



(** ** A session that loses nothing *)

Lemma contiguous_cons a x (l : list Sample) :
  seq x = Some a -> seq_contiguous (a + 1) l -> seq_contiguous a (x :: l).
Proof.
  unfold seq_contiguous. intros Hx Hl.
  rewrite py_range_cons by (simpl length; lia). rewrite !fmap_cons, Hx, Hl.
  do 3 f_equal. simpl length. lia.
Qed.

Lemma contiguous_app a (l1 l2 : list Sample) :
  seq_contiguous a (l1 ++ l2)
  <-> seq_contiguous a l1 /\ seq_contiguous (a + Z.of_nat (length l1)) l2.
Proof.
  revert a. induction l1 as [| x l1 IH]; intros a.
  - cbn [app length]. replace (a + Z.of_nat 0) with a by lia. split; [| tauto].
    intros H. split; [| done]. unfold seq_contiguous. simpl.
    by rewrite py_range_nil by lia.
  - replace (a + Z.of_nat (length (x :: l1))) with (a + 1 + Z.of_nat (length l1))
      by (simpl length; lia).
    split.
    + intros H. apply consecutive_cons in H as [Hx H]. apply IH in H as [H1 H2].
      split; [by apply contiguous_cons | done].
    + intros [H1 H2]. apply consecutive_cons in H1 as [Hx H1].
      apply contiguous_cons; [done |]. apply IH. by split.
Qed.

Lemma contiguous_last a (l : list Sample) :
  l <> [] -> seq_contiguous a l ->
  last l ≫= seq = Some (a + Z.of_nat (length l) - 1).
Proof.
  revert a. induction l as [| x l IH]; intros a Hne H; [done |].
  apply consecutive_cons in H as [Hx H].
  destruct l as [| y l].
  - simpl. rewrite Hx. f_equal. lia.
  - rewrite last_cons_cons, (IH (a + 1)) by done. f_equal. simpl length. lia.
Qed.

(** A range that the ring still holds in full comes back in full. *)
Lemma get_range_contiguous r a b :
  reachable r -> min_seq r <= a -> b <= last_seq r -> a <= b + 1 ->
  exists out,
    get_range r a b = Some out
    /\ seq_contiguous a out /\ a + Z.of_nat (length out) = b + 1.
Proof.
  intros Hr Ha Hb Hab.
  destruct (get_range_ring_ok r a b (reachable_ring_ok r Hr)) as [-> Hseq].
  rewrite Z.max_l, Z.min_l in Hseq by lia.
  eexists. split; [done |].
  pose proof (f_equal length Hseq) as Hlen.
  rewrite !length_fmap, py_range_length in Hlen.
  rewrite Z.max_l, Z.min_l by lia.
  split; [| lia]. unfold seq_contiguous. rewrite Hseq. do 2 f_equal. lia.
Qed.

Lemma same_but_event_clear r r' :
  same_but_event r r' -> same_but_event (clear_new_event r) r'.
Proof. unfold same_but_event. by intros <-. Qed.

Lemma same_but_event_step r r' a :
  same_but_event r r' -> same_but_event (producer_step r a) (producer_step r' a).
Proof.
  intros H. destruct a as [s | | | ts ok]; cbn [producer_step].
  - by rewrite (same_but_event_append r r' s H).
  - by rewrite (same_but_event_mark_done r r' H).
  - unfold same_but_event in *. by rewrite H.
  - done.
Qed.

Lemma same_but_event_min_seq r r' : same_but_event r r' -> min_seq r = min_seq r'.
Proof.
  unfold same_but_event. intros H.
  change (min_seq (clear_new_event r) = min_seq (clear_new_event r')). by rewrite H.
Qed.

Lemma data_samples_others w acts :
  data_samples (w_log (foldl apply_other w acts)) = data_samples (w_log w).
Proof.
  revert w. induction acts as [| a acts IH]; intros w; cbn [foldl]; [done |].
  rewrite IH. destruct a as [s | | | ts ok]; cbn [apply_other]; try done.
  destruct (w_hb w); [| done]. cbn [add_log w_log].
  rewrite data_samples_app. apply app_nil_r.
Qed.

Lemma closed_at_same hi w w' :
  sent_msgs (w_log w') = sent_msgs (w_log w) -> closed_at hi w -> closed_at hi w'.
Proof. unfold closed_at. by intros ->. Qed.

Lemma closed_at_others hi w acts :
  closed_at hi w -> closed_at hi (foldl apply_other w acts).
Proof.
  revert w. induction acts as [| a acts IH]; intros w H; cbn [foldl]; [done |].
  apply IH. destruct a as [s | | | ts ok]; cbn [apply_other]; try exact H.
  destruct (w_hb w); [| exact H].
  destruct H as (pre & final & hbs & Hlog & Hhbs & Hfinal).
  exists pre, final, (hbs ++ [WText (FHeartbeat ts)]).
  cbn [add_log w_log]. rewrite sent_msgs_app, Hlog. split; [| split; [| done]].
  - by rewrite <- app_assoc.
  - apply Forall_app. split; [done |]. constructor; [by exists ts | constructor].
Qed.

Lemma closed_at_add_log hi a w :
  sent_msgs [a] = [] -> closed_at hi w -> closed_at hi (add_log a w).
Proof.
  intros Ha. apply closed_at_same. cbn [add_log w_log].
  by rewrite sent_msgs_app, Ha, app_nil_r.
Qed.

Section Lossless.
Variable lib : Lib.
Variable env : Env.
Variable args : Args.
Variable run0 : FeedRun.
Variable lo : Z.
Hypothesis Htext : String.eqb (args_ws_format args) "binary" = false.
Hypothesis Hchunk : 0 < args_history_chunk args.
Hypothesis Hkeep : forall k, min_seq (run_at env run0 k) <= lo.

Local Abbreviation J := (lossless_inv lib env args run0 lo).
Local Abbreviation fits := (fun m => 0 <= args_live_batch args -> wire_fits lib args m).
Local Abbreviation send_range := (fun ty r a b =>
  bind (lift_option IndexError (get_range r a b)) (fun samples =>
    bind (lift_option ValueError (chunked samples (args_history_chunk args)))
      (fun batches =>
         for_each batches (fun batch => _send lib env args (FData ty batch))))).

Lemma closed_at_suspend hi w : closed_at hi w -> closed_at hi (snd (suspend env w)).
Proof.
  intros H. unfold suspend. cbn [snd].
  apply (closed_at_same hi (foldl apply_other w (e_others env (w_tick w)))); [done |].
  by apply closed_at_others.
Qed.

Lemma tracked_suspend w : tracked env run0 w -> tracked env run0 (snd (suspend env w)).
Proof.
  intros (r & Hrun & Hsame). unfold suspend. cbn [snd].
  exists (foldl producer_step r (e_others env (w_tick w))). split.
  - cbn [set_tick w_run]. by rewrite others_run, Hrun.
  - cbn [set_tick w_tick run_at]. generalize (e_others env (w_tick w)). intros acts.
    revert Hsame. generalize (run_at env run0 (w_tick w)). clear Hrun.
    revert r. induction acts as [| a acts IH]; intros r r' Hsame; cbn [foldl]; [done |].
    by apply IH, same_but_event_step.
Qed.

Lemma data_suspend w :
  data_samples (w_log (snd (suspend env w))) = data_samples (w_log w).
Proof. unfold suspend. cbn [snd set_tick w_log]. apply data_samples_others. Qed.

Lemma J_same hi top w w' :
  w_run w' = w_run w -> w_tick w' = w_tick w -> w_log w' = w_log w ->
  J hi top w -> J hi top w'.
Proof. unfold lossless_inv, session_inv, tracked, sent_exactly. by intros -> -> ->. Qed.

Lemma J_suspend hi top w : J hi top w -> J hi top (snd (suspend env w)).
Proof.
  intros (Hinv & Htr & Hc). split; [by apply inv_suspend |].
  split; [by apply tracked_suspend |].
  unfold sent_exactly. by rewrite data_suspend.
Qed.

Lemma J_add_ctl hi top a w :
  data_samples [a] = [] -> Forall fits (sent_msgs [a]) ->
  J hi top w -> J hi top (add_log a w).
Proof.
  intros Hd Hf (Hinv & Htr & Hc). split; [by apply inv_add_ctl |].
  split; [exact Htr |].
  unfold sent_exactly. cbn [add_log w_log].
  by rewrite data_samples_app, Hd, app_nil_r.
Qed.

Lemma J_sent_ctl obj hi top w :
  (forall ty samples, obj <> FData ty samples) ->
  J hi top w -> J hi top (sent lib env args obj w).
Proof.
  intros Hobj H. unfold sent.
  destruct obj as [? | ? ? ? | ty samples | ? ? | ? | ?];
    try (apply J_suspend, J_add_ctl;
         [done | constructor; [by intros _ | constructor] | done]).
  by destruct (Hobj ty samples).
Qed.

Lemma J_sent_data ty batch hi top w :
  J hi top w -> seq_contiguous (hi + 1) batch ->
  1 <= Z.of_nat (length batch) ->
  (0 <= args_live_batch args -> Z.of_nat (length batch) <= frame_limit args ty) ->
  hi + Z.of_nat (length batch) <= top ->
  J (hi + Z.of_nat (length batch)) top (sent lib env args (FData ty batch) w).
Proof.
  intros (Hinv & Htr & Hc & Hlen) Hb Hne Hsize Htop.
  unfold sent, on_wire. rewrite Htext. apply J_suspend.
  assert (data_samples [ASend (WText (FData ty batch)) (e_send_ok env (w_tick w))]
          = batch) as Hone by (unfold data_samples; simpl; apply app_nil_r).
  pose proof Hinv as (_ & _ & Hlo & _).
  split; [| split; [exact Htr |]].
  - apply (inv_add_log lib args lo hi top _ (hi + 1)); try done; try lia.
    + rewrite Hone. pose proof (consecutive_in_order batch (hi + 1) Hb) as Hord.
      eapply in_order_weaken; [| | exact Hord]; lia.
    + constructor; [| constructor]. intros Hlb. cbn [wire_fits].
      split; [done |]. split; [done | by apply Hsize].
  - unfold sent_exactly. cbn [add_log w_log]. rewrite data_samples_app, Hone. split.
    + apply contiguous_app. split; [done |].
      by replace (lo + Z.of_nat (length (data_samples (w_log w)))) with (hi + 1) by lia.
    + rewrite length_app. lia.
Qed.

Lemma J_raise_top hi top top' w r :
  J hi top w -> w_run w = Some r -> hi <= top' -> top' <= last_seq r -> J hi top' w.
Proof.
  intros (Hinv & Htr & Hc) Hrun H1 H2. split; [| by split].
  apply (inv_raise lib args lo hi top hi top' w r); (done || lia).
Qed.

Lemma J_min_seq hi top w r : J hi top w -> w_run w = Some r -> min_seq r <= lo.
Proof.
  intros (_ & (r' & Hrun & Hsame) & _) Hr. rewrite Hr in Hrun. injection Hrun as <-.
  rewrite (same_but_event_min_seq _ _ Hsame). apply Hkeep.
Qed.

Lemma J_sent_all ty batches hi top w :
  J hi top w -> seq_contiguous (hi + 1) (concat batches) ->
  Forall (fun batch =>
            1 <= Z.of_nat (length batch)
            /\ (0 <= args_live_batch args ->
                Z.of_nat (length batch) <= frame_limit args ty)) batches ->
  hi + Z.of_nat (length (concat batches)) <= top ->
  J (hi + Z.of_nat (length (concat batches))) top (sent_all lib env args ty batches w).
Proof.
  unfold sent_all. revert hi w.
  induction batches as [| b batches IH]; intros hi w H Hc Hsz Htop; cbn [foldl concat].
  - simpl length. by replace (hi + Z.of_nat 0) with hi by lia.
  - cbn [concat] in Hc, Htop. rewrite length_app in Htop |- *.
    apply contiguous_app in Hc as [Hb Hrest].
    apply Forall_cons in Hsz as [[Hne Hsize] Hsz].
    replace (hi + Z.of_nat (length b + length (concat batches)))
      with (hi + Z.of_nat (length b) + Z.of_nat (length (concat batches))) by lia.
    apply IH; try done; try lia.
    + apply J_sent_data; try done. lia.
    + by replace (hi + Z.of_nat (length b) + 1) with (hi + 1 + Z.of_nat (length b)) by lia.
Qed.

Lemma J_get_run {B} (k : FeedRun -> M B) hi top w (Q : Outcome B * World -> Prop) :
  J hi top w ->
  (forall r, w_run w = Some r -> reachable r -> top <= last_seq r -> min_seq r <= lo ->
             Q (k r w)) ->
  Q (bind get_run k w).
Proof.
  intros HJ H. pose proof HJ as (Hinv & _).
  apply (post_get_run lib args lo _ hi top w); [done |]. intros r Hrun Hr Htop.
  apply H; try done. by apply (J_min_seq hi top w).
Qed.

(** Sending the range that follows what was sent, chunk by chunk. *)
Lemma send_range_J ty r b hi top w :
  frame_limit args ty = args_history_chunk args ->
  J hi top w -> reachable r -> min_seq r <= lo -> top <= last_seq r ->
  hi <= b -> b <= top ->
  outcome_post (fun _ w' => J b top w') (fun _ => False) (fun _ => False)
    (send_range ty r (hi + 1) b w).
Proof.
  intros Hty H Hr Hmin Htop H1 H2.
  pose proof H as ((_ & _ & Hlo & _) & _).
  destruct (get_range_contiguous r (hi + 1) b Hr) as (out & -> & Hc & Hlen); try lia.
  cbn [lift_option]. rewrite bind_ret.
  assert (exists batches, chunked out (args_history_chunk args) = Some batches)
    as [batches Hch].
  { unfold chunked. replace (args_history_chunk args =? 0) with false by lia.
    replace (args_history_chunk args <? 0) with false by lia. by eexists. }
  rewrite Hch. cbn [lift_option]. rewrite bind_ret, for_each_send_eq.
  cbn [outcome_post].
  destruct (chunked_concat out _ batches Hchunk Hch) as [Hcat Hle].
  pose proof (chunked_nonempty out _ batches Hch) as Hne.
  replace b with (hi + Z.of_nat (length (concat batches))) by (rewrite Hcat; lia).
  apply J_sent_all.
  - replace (hi + Z.of_nat (length (concat batches))) with b by (rewrite Hcat; lia).
    done.
  - by rewrite Hcat.
  - rewrite Forall_forall in Hne, Hle. apply Forall_forall. intros batch Hb.
    specialize (Hne batch Hb). specialize (Hle batch Hb).
    split; [destruct batch; [done | simpl length; lia] |].
    intros _. by rewrite Hty.
  - rewrite Hcat. lia.
Qed.

Lemma live_batches_J fuel to_send idx last_sent series_state w top :
  0 <= idx <= Z.of_nat (length to_send) ->
  J last_sent top w ->
  seq_contiguous (last_sent + 1) (drop (Z.to_nat idx) to_send) ->
  last_sent + Z.of_nat (length (drop (Z.to_nat idx) to_send)) <= top ->
  outcome_post (fun r w' => J (fst r) top w') (fun _ => False)
    (fun w' => exists hi, J hi top w')
    (live_batches lib env args fuel to_send idx last_sent series_state w).
Proof.
  revert idx last_sent series_state w.
  induction fuel as [| fuel IH]; intros idx last_sent series_state w Hidx H Hc Htop;
    cbn [live_batches]; destruct (Z.ltb_spec idx (Z.of_nat (length to_send))) as [Hlt | Hge];
    try done; try (by exists last_sent).
  pose proof (py_slice_length to_send idx (idx + args_live_batch args)) as Hlen.
  destruct (py_slice_prefix to_send idx (idx + args_live_batch args)) as [k Hk]; [lia |].
  destruct (py_slice to_send idx (idx + args_live_batch args)) as [| s rest] eqn:Hb;
    [done |].
  symmetry in Hk. apply take_prefix in Hk.
  set (batch := s :: rest) in *.
  assert (Z.of_nat (length (drop (Z.to_nat idx) to_send))
          = Z.of_nat (length batch)
            + Z.of_nat (length (drop (length batch) (drop (Z.to_nat idx) to_send))))
    as Hsplit by (rewrite Hk at 1; rewrite length_app; lia).
  rewrite Hk in Hc. apply contiguous_app in Hc as [Hbatch Hrest].
  assert (Z.of_nat (length batch) <= Z.of_nat (length to_send) - idx) as Hfit.
  { rewrite length_drop in Hsplit. lia. }
  rewrite send_then, (contiguous_last (last_sent + 1) batch) by done.
  cbn [lift_option]. rewrite bind_ret, bind_suspend.
  replace (last_sent + 1 + Z.of_nat (length batch) - 1)
    with (last_sent + Z.of_nat (length batch)) by lia.
  apply IH.
  - lia.
  - apply J_suspend. apply J_sent_data; try done.
    + unfold batch. simpl length. lia.
    + intros Hlb. rewrite Hlen by lia. unfold py_slice_bound, frame_limit.
      replace (idx + args_live_batch args <? 0) with false by lia. lia.
    + lia.
  - replace (Z.to_nat (idx + Z.of_nat (length batch)))
      with (Z.to_nat idx + length batch)%nat by lia.
    rewrite <- drop_drop.
    by replace (last_sent + Z.of_nat (length batch) + 1)
      with (last_sent + 1 + Z.of_nat (length batch)) by lia.
  - replace (Z.to_nat (idx + Z.of_nat (length batch)))
      with (Z.to_nat idx + length batch)%nat by lia.
    rewrite <- drop_drop. lia.
Qed.

Lemma wait_J seq hi top w :
  J hi top w ->
  outcome_post (fun _ w' => J hi top w') (fun _ => False) (fun _ => False)
    (wait_for_new_after env seq w).
Proof.
  intros H. unfold wait_for_new_after.
  apply (J_get_run _ hi top w); [done |]. intros r Hrun Hr Htop Hmin.
  destruct (seq <? last_seq r); [exact H |].
  rewrite bind_modify. unfold bind at 1. cbn [get_tick]. rewrite bind_suspend.
  set (w1 := set_run (clear_new_event <$> w_run w) w).
  assert (J hi top (snd (suspend env w1))) as H1.
  { apply J_suspend. destruct H as ((_ & Hinv) & (r' & Hrun' & Hsame) & Hc).
    rewrite Hrun in Hrun'. injection Hrun' as <-.
    split; [| split; [| exact Hc]].
    - split; [| exact Hinv]. exists (clear_new_event r). unfold w1.
      cbn [set_run w_run]. rewrite Hrun.
      split; [done |]. split; [by apply reach_clear | done].
    - exists (clear_new_event r). unfold w1. cbn [set_run w_run w_tick]. rewrite Hrun.
      split; [done |]. by apply same_but_event_clear. }
  destruct (e_wait_timeout env (w_tick w1)); [exact H1 |].
  apply (J_get_run _ hi top _); [done |]. intros. exact H1.
Qed.

Lemma live_loop_while_J fuel last_sent series_state w top :
  J last_sent top w ->
  outcome_post (fun _ w' => exists hi top', J hi top' w' /\ closed_at hi w')
    (fun _ => False)
    (fun w' => exists hi top', J hi top' w')
    (_live_loop_while lib env args fuel last_sent series_state w).
Proof.
  revert last_sent series_state w top.
  induction fuel as [| fuel IH]; intros last_sent series_state w top H;
    cbn [_live_loop_while]; [by exists last_sent, top |].
  apply (J_get_run _ last_sent top w); [done |]. intros r Hrun Hr Htop Hmin.
  pose proof H as ((_ & Hhi & Hlo & _) & _).
  destruct (done r && (final_seq_or (final_seq r) last_sent <=? last_sent)) eqn:Hdone.
  - rewrite _send_eq. cbn [outcome_post]. exists last_sent, top. split.
    + by apply J_sent_ctl.
    + unfold sent. cbn [on_wire]. apply closed_at_suspend.
      apply andb_prop in Hdone as [_ Hfinal]. apply Z.leb_le in Hfinal.
      exists (sent_msgs (w_log w)), (final_seq r), [].
      cbn [add_log w_log]. rewrite sent_msgs_app. split; [done |]. split; [done |].
      intros v Hv Hnz. unfold final_seq_or in Hfinal. rewrite Hv in Hfinal.
      by replace (v =? 0) with false in Hfinal by lia.
  - destruct (Z.leb_spec (last_seq r) last_sent) as [Hle | Hgt].
    + eapply post_bind; [by apply (wait_J last_sent last_sent top) | | done | done].
      intros ? w' H'. by apply (IH _ _ _ top).
    + destruct (get_range_contiguous r (last_sent + 1) (last_seq r) Hr)
        as (to_send & -> & Hc & Hlen); try lia.
      cbn [lift_option]. rewrite bind_ret.
      eapply post_bind;
        [apply (live_batches_J _ to_send 0 last_sent series_state w (last_seq r)) | | done |].
      * lia.
      * apply (J_raise_top last_sent top (last_seq r) w r); (done || lia).
      * done.
      * change (Z.to_nat 0) with 0%nat. rewrite drop_0. lia.
      * intros [ls st] w' H'. by apply (IH _ _ _ (last_seq r)).
      * intros w' [hi H']. by exists hi, (last_seq r).
Qed.

Lemma handler_live_J fuel delta_end w top :
  J delta_end top w ->
  outcome_post (fun _ w' => exists hi top', J hi top' w' /\ closed_at hi w')
    (fun _ => False)
    (fun w' => exists hi top', J hi top' w')
    (handler_live lib env args fuel delta_end w).
Proof.
  intros H. unfold handler_live. rewrite bind_modify.
  eapply (post_bind _ _ _
            (fun _ w' => exists hi top', J hi top' w' /\ closed_at hi w')
            (fun _ => False)
            (fun w' => exists hi top', J hi top' w')); [| | done | done].
  { unfold _live_loop, try_except.
    assert (J delta_end top (set_hb true w)) as Hhb by (by apply (J_same _ _ w)).
    pose proof (live_loop_while_J fuel delta_end ∅ (set_hb true w) top Hhb) as Hloop.
    destruct (_live_loop_while lib env args fuel delta_end ∅ (set_hb true w))
      as [[[] | e |] w']; [exact Hloop | destruct Hloop | exact Hloop]. }
  intros ? w' (hi & top' & H' & Hclosed). rewrite bind_modify.
  unfold try_except. rewrite ws_close_eq. cbn [outcome_post].
  exists hi, top'. split.
  - apply J_suspend. apply J_add_ctl; [done | done |].
    apply (J_same _ _ (add_log ACancelHeartbeat w')); [done | done | done |].
    by apply J_add_ctl.
  - apply closed_at_suspend, closed_at_add_log; [done |].
    apply (closed_at_same hi (add_log ACancelHeartbeat w')); [done |].
    by apply closed_at_add_log.
Qed.

Lemma handshake_J from_seq w snap :
  w_run w = Some snap -> reachable snap -> tracked env run0 w ->
  data_samples (w_log w) = [] -> Forall fits (sent_msgs (w_log w)) ->
  lo = Z.max from_seq (min_seq snap) -> lo <= last_seq snap + 1 ->
  outcome_post (fun delta_end w' => J delta_end delta_end w')
    (fun _ => False) (fun _ => False)
    (handler_handshake lib env args from_seq w).
Proof.
  intros Hrun Hsnap Htr Hdata Hfit Hlo1 Hlo2.
  set (wm := last_seq snap) in *.
  assert (J (lo - 1) wm w) as H0.
  { split; [| split; [exact Htr |]].
    - split; [exists snap; by repeat split |]. split; [lia |]. split; [lia |].
      rewrite Hdata. split; [apply in_order_nil | done].
    - unfold sent_exactly. rewrite Hdata. split; [| simpl; lia].
      unfold seq_contiguous. simpl. by rewrite py_range_nil by lia. }
  unfold handler_handshake.
  apply (J_get_run _ (lo - 1) wm w); [done |]. intros r Hr _ _ _.
  rewrite Hrun in Hr. injection Hr as <-. cbv beta zeta. fold wm.
  rewrite <- Hlo1. rewrite send_then.
  set (w1 := sent lib env args (FInitBegin wm (min_seq snap) (ring_capacity snap)) w).
  assert (J (lo - 1) wm w1) as H1 by (by apply J_sent_ctl).
  eapply (post_bind _ _ w1 (fun _ w2 => J wm wm w2) (fun _ => False) (fun _ => False));
    [| | done | done].
  { destruct (Z.leb_spec lo wm) as [Hle | Hgt].
    - apply (J_get_run _ (lo - 1) wm w1); [done |]. intros r1 Hr1 Hreach1 Htop1 Hmin1.
      replace lo with (lo - 1 + 1) at 1 by lia.
      apply (send_range_J History r1 wm (lo - 1) wm w1); (done || lia).
    - cbn [ret outcome_post]. by replace wm with (lo - 1) at 1 by lia. }
  intros ? w2 H2. cbv beta in H2.
  apply (J_get_run _ wm wm w2); [done |]. intros r2 Hr2 Hreach2 Htop2 Hmin2.
  cbv beta zeta.
  eapply (post_bind _ _ w2 (fun _ w3 => J (last_seq r2) (last_seq r2) w3)
            (fun _ => False) (fun _ => False)); [| | done | done].
  { assert (J wm (last_seq r2) w2) as H2'
      by (apply (J_raise_top wm wm (last_seq r2) w2 r2); (done || lia)).
    destruct (Z.ltb_spec wm (last_seq r2)) as [Hlt | Hge].
    - apply (send_range_J Delta r2 (last_seq r2) wm (last_seq r2) w2); (done || lia).
    - cbn [ret outcome_post]. by replace (last_seq r2) with wm at 1 by lia. }
  intros ? w3 H3. cbv beta in H3. rewrite send_then. cbn [ret outcome_post].
  by apply J_sent_ctl.
Qed.
End Lossless.


Lemma demo_run_at_late first send_ok k :
  run_at (demo_env first send_ok) demo_run (4 + k)
  = run_at (demo_env first send_ok) demo_run 4.
Proof.
  induction k as [| k IH]; [done |].
  replace (4 + S k)%nat with (S (4 + k)) by lia.
  cbn [run_at]. by rewrite IH.
Qed.

